(** * Robin Hood hash map ([src/hash_map.h]): shallow embedding and verification

    The C++ class templates [HashBucket] and [HashMap] are embedded as
    records and functions over them.  [size_t] is a 64-bit unsigned integer,
    modelled as [Z] with the wrap-around written out ([wrap]); the bit
    operations of the source are [Z.land] and [Z.shiftl].  The bucket vector
    is a [list HashBucket] indexed with stdpp's list lookup and insert; an
    index outside the vector is undefined behaviour in C++ and is the error
    [Undefined] here.  Loops take fuel; running out of fuel ([OutOfFuel])
    stands for a loop that has not finished yet. *)

From Stdlib Require Import ZArith Lia Bool List.
From stdpp Require Import base tactics decidable option list numbers relations.
From stdpp Require Import sorting.

Local Open Scope Z_scope.

(** ** [size_t] *)

Definition SIZE_MAX : Z := 18446744073709551615.

(** Reduction of an integer to 64 bits. *)
Definition wrap (x : Z) : Z := x mod (SIZE_MAX + 1).

(** [const size_t UNOCCUPIED = -1;] *)
Definition UNOCCUPIED : Z := wrap (-1).

(** ** Results of fallible code *)

Inductive error : Type :=
| OutOfRange    (* std::out_of_range("Key not found") thrown by at() *)
| AllocFailure  (* std::vector could not be created (length_error, bad_alloc) *)
| Undefined     (* undefined behaviour: index outside the vector, read of a dead payload *)
| OutOfFuel.    (* the loop did not finish within the fuel *)

Inductive result (A : Type) : Type :=
| Ok (a : A)
| Err (e : error).
Arguments Ok {A} a.
Arguments Err {A} e.

Definition bind {A B : Type} (c : result A) (k : A -> result B) : result B :=
  match c with
  | Ok a => k a
  | Err e => Err e
  end.

Notation "'do' x <- c ; k" := (bind c (fun x => k))
  (at level 10, x name, c at level 100, k at level 200).

(** ** Single-precision arithmetic of [update_sizes]

    [MAX_LOAD_FACTOR * capacity_] is a product of two [float]s: the capacity
    is converted to [float] first.  A finite non-negative [float] is
    [f_mant * 2 ^ f_exp] with a significand of at most 24 bits; results are
    rounded to nearest, ties to even.  The values that occur are far from
    the overflow and underflow thresholds of the format. *)

Record float : Type := Float { f_mant : Z; f_exp : Z }.

Definition round24 (m e : Z) : float :=
  let k := Z.log2 m in
  if k <? 24 then Float m e
  else
    let s := k - 23 in
    let q := m / 2 ^ s in
    let r := m mod 2 ^ s in
    let h := 2 ^ (s - 1) in
    let q' := if (h <? r) || ((r =? h) && Z.odd q) then q + 1 else q in
    Float q' (e + s).

Definition float_of_size (n : Z) : float := round24 n 0.

Definition fmul (a b : float) : float :=
  round24 (f_mant a * f_mant b) (f_exp a + f_exp b).

(** [std::floor] and [std::ceil] followed by the conversion to [size_t]. *)
Definition ffloor (a : float) : Z :=
  if 0 <=? f_exp a then f_mant a * 2 ^ f_exp a
  else f_mant a / 2 ^ (- f_exp a).

Definition fceil (a : float) : Z :=
  if 0 <=? f_exp a then f_mant a * 2 ^ f_exp a
  else - ((- f_mant a) / 2 ^ (- f_exp a)).

(** [const float MAX_LOAD_FACTOR = 0.8;] is the float 13421773 * 2^-24. *)
Definition MAX_LOAD_FACTOR : float := Float 13421773 (-24).
(** [const float MIN_LOAD_FACTOR = 0.2;] is the float 13421773 * 2^-26. *)
Definition MIN_LOAD_FACTOR : float := Float 13421773 (-26).

Section HashMapModel.

Context {Key Value : Type} `{EqDecision Key}.

(** [Hash hasher_]: the injected hash function, returning a [size_t]. *)
Variable hasher_ : Key -> Z.

(** [Value()], the value [operator[]] inserts on a miss. *)
Variable default_value : Value.

(** [std::vector<bucket_type>::max_size()]: creating a longer vector fails. *)
Variable max_buckets : Z.

(** ** [HashBucket] *)

(** [value_] is raw storage: [None] when no payload object is alive in it. *)
Record HashBucket : Type := Bucket {
  value_ : option (Key * Value);
  hash_ : Z;
  distance_ : Z
}.

(** A bucket as [std::vector<bucket_type>(n)] creates it. *)
Definition new_bucket : HashBucket :=
  {| value_ := None; hash_ := 0; distance_ := UNOCCUPIED |}.

(** [bool empty() const { return distance_ == UNOCCUPIED; }] *)
Definition bucket_empty (b : HashBucket) : bool := distance_ b =? UNOCCUPIED.

(** [value()] / [get()]: reading the payload. *)
Definition bucket_get (b : HashBucket) : result (Key * Value) :=
  match value_ b with
  | Some kv => Ok kv
  | None => Err Undefined
  end.

(** [void clear()] *)
Definition bucket_clear (b : HashBucket) : HashBucket :=
  {| value_ := if bucket_empty b then value_ b else None;
     hash_ := hash_ b;
     distance_ := UNOCCUPIED |}.

(** [void set(hash_value_type&& value, size_t hash, size_t distance)] *)
Definition bucket_set (b : HashBucket) (value : Key * Value) (hash distance : Z)
  : HashBucket :=
  {| value_ := Some value; hash_ := hash; distance_ := distance |}.

(** [void swap(hash_value_type& hash_value, size_t& hash, size_t& distance)]:
    returns the new bucket and the new contents of the three references. *)
Definition bucket_swap (b : HashBucket) (value : Key * Value) (hash distance : Z)
  : result (HashBucket * ((Key * Value) * Z * Z)) :=
  do old <- bucket_get b;
  Ok ({| value_ := Some value; hash_ := hash; distance_ := distance |},
      (old, hash_ b, distance_ b)).

(** ** [HashMap] *)

Record HashMap : Type := Map {
  size_ : Z;
  capacity_ : Z;
  mask_ : Z;
  buckets_ : list HashBucket;
  max_size_ : Z;
  min_size_ : Z
}.

Definition with_buckets (st : HashMap) (bs : list HashBucket) : HashMap :=
  {| size_ := size_ st; capacity_ := capacity_ st; mask_ := mask_ st;
     buckets_ := bs; max_size_ := max_size_ st; min_size_ := min_size_ st |}.

Definition with_size (st : HashMap) (n : Z) : HashMap :=
  {| size_ := n; capacity_ := capacity_ st; mask_ := mask_ st;
     buckets_ := buckets_ st; max_size_ := max_size_ st;
     min_size_ := min_size_ st |}.

(** [buckets_[position]] for reading. *)
Definition bucket_at (st : HashMap) (position : Z) : result HashBucket :=
  match buckets_ st !! Z.to_nat position with
  | Some b => Ok b
  | None => Err Undefined
  end.

(** [buckets_[position] = b]. *)
Definition store_bucket (st : HashMap) (position : Z) (b : HashBucket)
  : HashMap :=
  with_buckets st (<[Z.to_nat position := b]> (buckets_ st)).

(** [bool empty() const { return size_ == 0; }] *)
Definition map_empty (st : HashMap) : bool := size_ st =? 0.

(** [std::size_t size() const] *)
Definition size (st : HashMap) : Z := size_ st.

(** [size_t next_bucket(size_t bucket) const] *)
Definition next_bucket (st : HashMap) (bucket : Z) : Z :=
  Z.land (wrap (bucket + 1)) (wrap (capacity_ st - 1)).

(** [static size_t get_capacity(size_t count)] *)
Fixpoint get_capacity_loop (fuel : nat) (size count : Z) : result Z :=
  match fuel with
  | O => Err OutOfFuel
  | S f =>
      if size <? count
      then get_capacity_loop f (wrap (Z.shiftl size 1)) count
      else Ok size
  end.

Definition get_capacity (fuel : nat) (count : Z) : result Z :=
  if count =? 0 then Ok 0
  else
    do size <- get_capacity_loop fuel 1 count;
    Ok (wrap (Z.shiftl size 1)).

(** [size_t get_ideal(size_t hash) const { return hash & mask_; }] *)
Definition get_ideal (st : HashMap) (hash : Z) : Z := Z.land hash (mask_ st).

(** [size_t get_distance(size_t position_1, size_t position_2)] *)
Definition get_distance (st : HashMap) (position_1 position_2 : Z) : Z :=
  Z.land (wrap (position_2 - position_1)) (mask_ st).

(** [void update_sizes()] *)
Definition update_sizes (st : HashMap) : HashMap :=
  {| size_ := size_ st; capacity_ := capacity_ st; mask_ := mask_ st;
     buckets_ := buckets_ st;
     max_size_ :=
       Z.min (mask_ st)
             (fceil (fmul MAX_LOAD_FACTOR (float_of_size (capacity_ st))));
     min_size_ :=
       Z.max 0 (ffloor (fmul MIN_LOAD_FACTOR (float_of_size (capacity_ st))))
  |}.

(** [HashMap(Hash hasher = Hash(), size_t count = 0)] *)
Definition new (fuel : nat) (count : Z) : result HashMap :=
  do capacity <- get_capacity fuel count;
  if max_buckets <? capacity then Err AllocFailure
  else
    Ok (update_sizes
          {| size_ := 0; capacity_ := capacity;
             mask_ := if capacity =? 0 then 0 else wrap (capacity - 1);
             buckets_ := replicate (Z.to_nat capacity) new_bucket;
             max_size_ := 0; min_size_ := 0 |}).

(** [bool check(size_t position, const Key& key, size_t hash) const] *)
Definition check (st : HashMap) (position : Z) (key : Key) (hash : Z)
  : result bool :=
  if map_empty st then Ok false
  else
    do b <- bucket_at st position;
    if bucket_empty b then Ok false
    else if negb (hash_ b =? hash) then Ok false
    else
      do kv <- bucket_get b;
      Ok (bool_decide (fst kv = key)).

(** The [for] loop of [find_bucket]. *)
Fixpoint find_bucket_loop (fuel : nat) (st : HashMap) (key : Key)
    (hash bucket distance : Z) : result Z :=
  match fuel with
  | O => Err OutOfFuel
  | S f =>
      do b <- bucket_at st bucket;
      if negb (bucket_empty b) && (distance <=? distance_ b) then
        do hit <- (if hash_ b =? hash
                   then do kv <- bucket_get b; Ok (bool_decide (fst kv = key))
                   else Ok false);
        if hit : bool then Ok bucket
        else find_bucket_loop f st key hash
               (next_bucket st bucket) (wrap (distance + 1))
      else Ok bucket
  end.

(** [size_t find_bucket(const Key& key, size_t hash) const] *)
Definition find_bucket (fuel : nat) (st : HashMap) (key : Key) (hash : Z)
  : result Z :=
  let bucket := get_ideal st hash in
  let distance := 0 in
  if map_empty st then Ok bucket
  else find_bucket_loop fuel st key hash bucket distance.

(** [iterator find(const Key& key)]: [None] is [end()], [Some position] is
    [position_iterator(position)]. *)
Definition find (fuel : nat) (st : HashMap) (key : Key) : result (option Z) :=
  if map_empty st then Ok None
  else
    let hash := hasher_ key in
    do position <- find_bucket fuel st key hash;
    do c <- check st position key hash;
    if c : bool then Ok (Some position) else Ok None.

(** [operator*] of the iterator [find] returns. *)
Definition deref (st : HashMap) (it : option Z) : result (Key * Value) :=
  match it with
  | Some position => do b <- bucket_at st position; bucket_get b
  | None => Err Undefined
  end.

(** [Value& at(const Key& key)] *)
Definition at_ (fuel : nat) (st : HashMap) (key : Key) : result Value :=
  if map_empty st then Err OutOfRange
  else
    let hash := hasher_ key in
    do position <- find_bucket fuel st key hash;
    do c <- check st position key hash;
    if negb c then Err OutOfRange
    else
      do b <- bucket_at st position;
      do kv <- bucket_get b;
      Ok (snd kv).

(** The [while] loop of [insert]; the result is the state of the loop
    variables when it is left. *)
Fixpoint insert_loop (fuel : nat) (st : HashMap) (value : Key * Value)
    (hash distance position answer : Z)
  : result (HashMap * (Key * Value) * Z * Z * Z * Z) :=
  match fuel with
  | O => Err OutOfFuel
  | S f =>
      do b <- bucket_at st position;
      if bucket_empty b then Ok (st, value, hash, distance, position, answer)
      else if distance_ b <? distance then
        do swapped <- bucket_swap b value hash distance;
        let '(b', (value', hash', distance')) := swapped in
        let st' := store_bucket st position b' in
        let answer' := if answer =? UNOCCUPIED then position else answer in
        insert_loop f st' value' hash' (wrap (distance' + 1))
                    (next_bucket st' position) answer'
      else
        insert_loop f st value hash (wrap (distance + 1))
                    (next_bucket st position) answer
  end.

(** The part of [insert] after the rehash. *)
Definition insert_place (fuel : nat) (st : HashMap) (value : Key * Value)
    (hash : Z) : result (HashMap * Z) :=
  let position := get_ideal st hash in
  let distance := 0 in
  let answer := UNOCCUPIED in
  do left <- insert_loop fuel st value hash distance position answer;
  let '(st, value, hash, distance, position, answer) := left in
  do b <- bucket_at st position;
  let st := store_bucket st position (bucket_set b value hash distance) in
  let st := with_size st (wrap (size_ st + 1)) in
  Ok (st, if answer =? UNOCCUPIED then position else answer).

(** The loop of [rehash] over the old buckets; [ins] is
    [insert(hash_value_type&&)]. *)
Fixpoint rehash_loop (ins : HashMap -> Key * Value -> result HashMap)
    (old_buckets : list HashBucket) (st : HashMap) : result HashMap :=
  match old_buckets with
  | [] => Ok st
  | cur :: rest =>
      if bucket_empty cur then rehash_loop ins rest st
      else
        do kv <- bucket_get cur;
        do st' <- ins st kv;
        rehash_loop ins rest st'
  end.

(** [void rehash(size_t size)], over its callee [insert]. *)
Definition rehash_with (ins : HashMap -> Key * Value -> result HashMap)
    (size : Z) (st : HashMap) : result HashMap :=
  if max_buckets <? size then Err AllocFailure
  else
    let old_buckets := buckets_ st in
    let st :=
      update_sizes
        {| size_ := 0; capacity_ := size; mask_ := wrap (size - 1);
           buckets_ := replicate (Z.to_nat size) new_bucket;
           max_size_ := max_size_ st; min_size_ := min_size_ st |} in
    rehash_loop ins old_buckets st.

(** [size_t insert(hash_value_type&& value, size_t hash)].  [insert] and
    [rehash] call each other; the fuel also bounds the depth of that
    recursion. *)
Fixpoint insert_hashed (fuel : nat) (st : HashMap) (value : Key * Value)
    (hash : Z) {struct fuel} : result (HashMap * Z) :=
  match fuel with
  | O => Err OutOfFuel
  | S f =>
      do position <- find_bucket fuel st (fst value) hash;
      do c <- check st position (fst value) hash;
      if c : bool then Ok (st, position)
      else
        do st <-
           (if size_ st =? max_size_ st then
              do capacity <- get_capacity fuel (wrap (size_ st + 1));
              rehash_with
                (fun s v => do r <- insert_hashed f s v (hasher_ (fst v));
                            Ok (fst r))
                capacity st
            else Ok st);
        insert_place fuel st value hash
  end.

(** [void insert(const pair_type& value)] and
    [void insert(hash_value_type&& value)] *)
Definition insert (fuel : nat) (st : HashMap) (value : Key * Value)
  : result HashMap :=
  do r <- insert_hashed fuel st value (hasher_ (fst value));
  Ok (fst r).

(** [void rehash(size_t size)] *)
Definition rehash (fuel : nat) (size : Z) (st : HashMap) : result HashMap :=
  rehash_with (insert fuel) size st.

(** [Value& operator[](const Key& key)]: the state and the position of the
    bucket whose value is referred to. *)
Definition index (fuel : nat) (st : HashMap) (key : Key)
  : result (HashMap * Z) :=
  let hash := hasher_ key in
  do position <- find_bucket fuel st key hash;
  do c <- check st position key hash;
  do r <- (if negb c then insert_hashed fuel st (key, default_value) hash
           else Ok (st, position));
  let '(st, position) := r in
  do b <- bucket_at st position;
  do _ <- bucket_get b;
  Ok (st, position).

(** Assignment through a [Value&] or an iterator that refers to the bucket
    at [position]. *)
Definition assign (st : HashMap) (position : Z) (v : Value) : result HashMap :=
  do b <- bucket_at st position;
  do kv <- bucket_get b;
  Ok (store_bucket st position
        {| value_ := Some (fst kv, v); hash_ := hash_ b;
           distance_ := distance_ b |}).

(** The backward-shift [for] loop of [erase]; the result is the state of
    the loop variables when it is left. *)
Fixpoint erase_loop (fuel : nat) (st : HashMap) (position to_swap : Z)
  : result (HashMap * Z * Z) :=
  match fuel with
  | O => Err OutOfFuel
  | S f =>
      do b <- bucket_at st to_swap;
      if negb (distance_ b =? 0) then
        if bucket_empty b then
          erase_loop f st position (next_bucket st to_swap)
        else
          do value <- bucket_get b;
          let hash := hash_ b in
          let ideal := get_ideal st hash in
          do p <- bucket_at st position;
          let st := store_bucket st position
                      (bucket_set p value hash (get_distance st ideal position)) in
          do b' <- bucket_at st to_swap;
          let st := store_bucket st to_swap (bucket_clear b') in
          erase_loop f st (next_bucket st position) (next_bucket st to_swap)
      else Ok (st, position, to_swap)
  end.

(** The backward-shift pass as section 4.5 (step 5) of the specification
    words it, to be compared with [erase_loop]: starting from the successor
    of the freed slot, while the current slot is occupied and its stored
    distance is non-zero, its payload is moved back into the gap, its
    distance recomputed, the vacated slot cleared and the gap advanced; the
    pass stops at the first slot that is empty or has distance 0. *)
Fixpoint backward_shift_spec (fuel : nat) (st : HashMap) (gap current : Z)
  : result (HashMap * Z * Z) :=
  match fuel with
  | O => Err OutOfFuel
  | S f =>
      do b <- bucket_at st current;
      if bucket_empty b || (distance_ b =? 0) then Ok (st, gap, current)
      else
        do value <- bucket_get b;
        let ideal := get_ideal st (hash_ b) in
        do g <- bucket_at st gap;
        let st := store_bucket st gap
                    (bucket_set g value (hash_ b) (get_distance st ideal gap)) in
        do b' <- bucket_at st current;
        let st := store_bucket st current (bucket_clear b') in
        backward_shift_spec f st (next_bucket st gap) (next_bucket st current)
  end.

(** [void erase(const Key& key, size_t hash)] *)
Definition erase_hashed (fuel : nat) (st : HashMap) (key : Key) (hash : Z)
  : result HashMap :=
  do position <- find_bucket fuel st key hash;
  do c <- check st position key hash;
  if negb c then Ok st
  else
    do b <- bucket_at st position;
    let st := store_bucket st position (bucket_clear b) in
    let st := with_size st (wrap (size_ st - 1)) in
    if map_empty st then Ok st
    else if size_ st <? min_size_ st then
      do capacity <- get_capacity fuel (size_ st);
      rehash fuel capacity st
    else
      do left <- erase_loop fuel st position (next_bucket st position);
      Ok (fst (fst left)).

(** [void erase(const Key& key)] *)
Definition erase (fuel : nat) (st : HashMap) (key : Key) : result HashMap :=
  erase_hashed fuel st key (hasher_ key).

(** [void clear()] *)
Definition clear (st : HashMap) : HashMap :=
  {| size_ := 0; capacity_ := 0; mask_ := 0; buckets_ := [];
     max_size_ := 0; min_size_ := 0 |}.

(** The loop of the range constructors,
    [for (auto it = begin; it != end; ++it) insert( *it );]. *)
Fixpoint insert_all (fuel : nat) (st : HashMap) (l : list (Key * Value))
  : result HashMap :=
  match l with
  | [] => Ok st
  | value :: l => do st <- insert fuel st value; insert_all fuel st l
  end.

(** [HashMap(std::initializer_list<pair_type> list, Hash hasher = Hash())]:
    the table is created for [list.size()] entries. *)
Definition from_list (fuel : nat) (l : list (Key * Value)) : result HashMap :=
  do st <- new fuel (Z.of_nat (length l));
  insert_all fuel st l.

(** [HashMap(It begin, It end, Hash hasher = Hash())]: the table is created
    with the default count, 0. *)
Definition from_range (fuel : nat) (l : list (Key * Value)) : result HashMap :=
  do st <- new fuel 0;
  insert_all fuel st l.

(** [m[key] = v;]: assignment through the reference [operator[]] returns. *)
Definition index_assign (fuel : nat) (st : HashMap) (key : Key) (v : Value)
  : result HashMap :=
  do r <- index fuel st key;
  assign (fst r) (snd r) v.

(** ** [HashIterator]

    An iterator of the bucket vector is its offset from [buckets_.begin()];
    [current_] and [end_] of a [HashIterator] are such offsets. *)
Record HashIterator : Type := Iterator { current_ : Z; end_ : Z }.

(** The [do ... while] loop of [advance]. *)
Fixpoint advance_loop (fuel : nat) (st : HashMap) (current last : Z)
  : result Z :=
  match fuel with
  | O => Err OutOfFuel
  | S f =>
      let current := current + 1 in
      if negb (current =? last) then
        do b <- bucket_at st current;
        if bucket_empty b then advance_loop f st current last
        else Ok current
      else Ok current
  end.

(** [void advance()], which [operator++] calls. *)
Definition advance (fuel : nat) (st : HashMap) (it : HashIterator)
  : result HashIterator :=
  if current_ it =? end_ it then Ok it
  else
    do current <- advance_loop fuel st (current_ it) (end_ it);
    Ok (Iterator current (end_ it)).

(** [reference operator*() const { return current_->get(); }] *)
Definition iterator_get (st : HashMap) (it : HashIterator)
  : result (Key * Value) :=
  do b <- bucket_at st (current_ it);
  bucket_get b.

(** [bool operator==(const HashIterator& other) const] *)
Definition iterator_eq (it other : HashIterator) : bool :=
  if current_ other =? end_ other then current_ it =? end_ it
  else current_ it =? current_ other.

(** [bool operator!=(const HashIterator& other) const] *)
Definition iterator_ne (it other : HashIterator) : bool :=
  negb (iterator_eq it other).

(** [iterator end()] *)
Definition end_iterator (st : HashMap) : HashIterator :=
  Iterator (Z.of_nat (length (buckets_ st))) (Z.of_nat (length (buckets_ st))).

(** [iterator position_iterator(size_t position)] *)
Definition position_iterator (st : HashMap) (position : Z) : HashIterator :=
  Iterator position (Z.of_nat (length (buckets_ st))).

(** [iterator begin()] *)
Definition begin (fuel : nat) (st : HashMap) : result HashIterator :=
  let it := Iterator 0 (Z.of_nat (length (buckets_ st))) in
  match buckets_ st with
  | b :: _ => if bucket_empty b then advance fuel st it else Ok it
  | [] => Ok it
  end.

(** [iterator find(const Key& key)] with its result as an iterator: [end()]
    or [position_iterator(position)]. *)
Definition find_iterator (fuel : nat) (st : HashMap) (key : Key)
  : result HashIterator :=
  do r <- find fuel st key;
  match r with
  | Some position => Ok (position_iterator st position)
  | None => Ok (end_iterator st)
  end.

(** The loop [for (auto it = begin(); it != end(); ++it)] of a client that
    collects [*it]: the part from [it] on. *)
Fixpoint iterate (fuel : nat) (st : HashMap) (it : HashIterator)
  : result (list (Key * Value)) :=
  match fuel with
  | O => Err OutOfFuel
  | S f =>
      if iterator_ne it (end_iterator st) then
        do kv <- iterator_get st it;
        do it <- advance fuel st it;
        do rest <- iterate f st it;
        Ok (kv :: rest)
      else Ok []
  end.

Definition to_list (fuel : nat) (st : HashMap) : result (list (Key * Value)) :=
  do it <- begin fuel st;
  iterate fuel st it.


(** ** The representation invariant *)

Definition pow2 (c : Z) : Prop := exists k, 0 <= k /\ c = 2 ^ k.

(** [st @ p] is the bucket at position [p]. *)
Notation "st @ p" := (buckets_ st !! Z.to_nat p) (at level 20).

(** The payloads in bucket order. *)
Definition contents (st : HashMap) : list (Key * Value) :=
  omap value_ (buckets_ st).

(** The pair [(k, v)] is stored in some bucket. *)
Definition stored (st : HashMap) (k : Key) (v : Value) : Prop :=
  exists p b, 0 <= p /\ st @ p = Some b /\ value_ b = Some (k, v).

Definition absent (st : HashMap) (k : Key) : Prop :=
  forall v, ~ stored st k v.

(** What a slot shows: nothing when it is empty, otherwise its pair, its
    cached hash and its distance. *)
Definition slot_view (b : HashBucket) : option (Key * Value * Z * Z) :=
  match value_ b with
  | Some kv => Some (kv, hash_ b, distance_ b)
  | None => None
  end.

(** The bucket layout of a table, slot by slot. *)
Definition layout (st : HashMap) : list (option (Key * Value * Z * Z)) :=
  slot_view <$> buckets_ st.

(** Capacity, mask, vector length and thresholds fit together. *)
Record geometry (st : HashMap) : Prop := {
  geo_cap : capacity_ st = 0 \/ (pow2 (capacity_ st) /\ 2 <= capacity_ st);
  geo_alloc : capacity_ st <= Z.max 0 max_buckets;
  geo_mask : mask_ st = Z.max 0 (capacity_ st - 1);
  geo_len : Z.of_nat (length (buckets_ st)) = capacity_ st;
  geo_sizes : update_sizes st = st
}.

(** A dead payload goes with the sentinel; a live one with the hash of its
    key and its displacement from the ideal bucket. *)
Definition bucket_ok (st : HashMap) (p : Z) (b : HashBucket) : Prop :=
  match value_ b with
  | None => distance_ b = UNOCCUPIED
  | Some kv =>
      hash_ b = hasher_ (fst kv) /\
      distance_ b = (p - hash_ b) mod capacity_ st
  end.

Definition slots_ok (st : HashMap) : Prop :=
  forall p b, 0 <= p -> st @ p = Some b -> bucket_ok st p b.

(** The Robin Hood ordering: a displaced entry is preceded by an entry that
    is displaced at most one less. *)
Definition rh_ok (st : HashMap) : Prop :=
  forall p b, 0 <= p -> st @ p = Some b -> value_ b <> None ->
    1 <= distance_ b ->
    exists b', st @ ((p - 1) mod capacity_ st) = Some b' /\
               value_ b' <> None /\ distance_ b - 1 <= distance_ b'.

Definition keys_unique (st : HashMap) : Prop :=
  forall p q b b' kv kv', 0 <= p -> 0 <= q ->
    st @ p = Some b -> st @ q = Some b' ->
    value_ b = Some kv -> value_ b' = Some kv' -> fst kv = fst kv' -> p = q.

Record wf (st : HashMap) : Prop := {
  wf_geo : geometry st;
  wf_slots : slots_ok st;
  wf_rh : rh_ok st;
  wf_keys : keys_unique st;
  wf_size : size_ st = Z.of_nat (length (contents st));
  wf_load : size_ st <= max_size_ st
}.

(** ** The public interface

    Construction, insertion, indexed access, assignment through a returned
    reference, erase and clear.  A step is an operation that returns. *)
Inductive step : HashMap -> HashMap -> Prop :=
| step_insert fuel st value st' :
    insert fuel st value = Ok st' -> step st st'
| step_index fuel st key st' position :
    index fuel st key = Ok (st', position) -> step st st'
| step_assign st position v st' :
    assign st position v = Ok st' -> step st st'
| step_erase fuel st key st' :
    erase fuel st key = Ok st' -> step st st'
| step_clear st :
    step st (clear st).

Inductive reachable : HashMap -> Prop :=
| reach_new fuel count st :
    new fuel count = Ok st -> reachable st
| reach_step st st' :
    reachable st -> step st st' -> reachable st'.

(** ** Auxiliary notions of the proofs *)

(** The invariant of the bucket vector alone, for tables with buckets. *)
Record table_ok (st : HashMap) : Prop := {
  tb_geo : geometry st;
  tb_cap : capacity_ st <> 0;
  tb_slots : slots_ok st;
  tb_rh : rh_ok st;
  tb_keys : keys_unique st
}.

(** [st'] differs from [st] in its buckets only. *)
Record same_fields (st st' : HashMap) : Prop := {
  sf_size : size_ st' = size_ st;
  sf_capacity : capacity_ st' = capacity_ st;
  sf_mask : mask_ st' = mask_ st;
  sf_max_size : max_size_ st' = max_size_ st;
  sf_min_size : min_size_ st' = min_size_ st
}.

(** What the loop leaves behind, once the carried entry is put into the
    bucket it stopped at: [kv] has been added, buckets outside the probed
    range [p .. p + r] are untouched, and the reported position holds [kv]. *)
Definition insert_post (st : HashMap) (kv : Key * Value) (p r ans : Z)
    (res : HashMap * (Key * Value) * Z * Z * Z * Z) : Prop :=
  let '(st', kv', h', d', p', ans') := res in
  exists e, st' @ p' = Some e /\ 0 <= p' < capacity_ st /\
    let F := store_bucket st' p' (bucket_set e kv' h' d') in
    let a := if ans' =? UNOCCUPIED then p' else ans' in
    table_ok F /\ same_fields st F /\ contents F ≡ₚ kv :: contents st /\
    (forall q, 0 <= q ->
       (forall j, 0 <= j <= r -> q <> (p + j) mod capacity_ st) ->
       F @ q = st @ q) /\
    (ans = UNOCCUPIED ->
       exists bA, F @ a = Some bA /\ value_ bA = Some kv /\
                  0 <= a < capacity_ st) /\
    (ans <> UNOCCUPIED -> a = ans).

(** The grow threshold of a power of two, before it is clamped to the
    mask, is at least half of it. *)
Definition load_check (k : Z) : bool :=
  2 ^ (k - 1) <=? fceil (fmul MAX_LOAD_FACTOR (float_of_size (2 ^ k))).

(** The table [rehash] starts from. *)
Definition fresh_table (capacity mx mn : Z) : HashMap :=
  update_sizes
    {| size_ := 0; capacity_ := capacity; mask_ := wrap (capacity - 1);
       buckets_ := replicate (Z.to_nat capacity) new_bucket;
       max_size_ := mx; min_size_ := mn |}.

(** The pair [kv] has been added to [st]: [F] is the table that results and
    [a] the position of the pair in it. *)
Definition added (st : HashMap) (kv : Key * Value) (F : HashMap) (a : Z)
  : Prop :=
  wf F /\ contents F ≡ₚ kv :: contents st /\
  exists bA, F @ a = Some bA /\ value_ bA = Some kv /\ 0 <= a < capacity_ F.

(** Fuel that is enough for every loop of an operation on [st], also after
    the table has grown. *)
Definition enough (st : HashMap) (fuel : nat) : Prop :=
  (Z.to_nat (4 * capacity_ st + 66) <= fuel)%nat.

(** The table right after the entry [b] at position [p] has been destroyed
    and the size decremented. *)
Definition erased_at (st : HashMap) (p : Z) (b : HashBucket) : HashMap :=
  with_size (store_bucket st p (bucket_clear b)) (size_ st - 1).

(** A fuel of at least [fuel] that is enough for [st]. *)
Definition more (st : HashMap) (fuel : nat) : nat :=
  (fuel + Z.to_nat (4 * capacity_ st + 66))%nat.

(** The steps that neither erase [k] nor overwrite its value. *)
Inductive keeps (k : Key) : HashMap -> HashMap -> Prop :=
| keeps_insert fuel st value st' :
    insert fuel st value = Ok st' -> keeps k st st'
| keeps_index fuel st key st' position :
    index fuel st key = Ok (st', position) -> keeps k st st'
| keeps_assign st position v st' :
    assign st position v = Ok st' ->
    (forall b kv, bucket_at st position = Ok b -> value_ b = Some kv ->
                  fst kv <> k) ->
    keeps k st st'
| keeps_erase fuel st key st' :
    key <> k -> erase fuel st key = Ok st' -> keeps k st st'.

(** Behind an empty slot the table can be read as a line: entry [y] of a
    layout is the position, counted from the slot behind the empty one, of
    the ideal bucket of the entry that lies at position [y].  An entry lies
    at or behind its ideal bucket, and a displaced entry follows an entry
    whose ideal bucket is not later.  [lin_from o prev L] says so for the
    layout [L] that starts at position [o] behind the entry [prev]. *)
Fixpoint lin_from (o : Z) (prev : option Z) (L : list (option Z)) : Prop :=
  match L with
  | [] => True
  | None :: L' => lin_from (o + 1) None L'
  | Some i :: L' =>
      i <= o /\ (i < o -> exists i', prev = Some i' /\ i' <= i) /\
      lin_from (o + 1) (Some i) L'
  end.

(** The ideal positions of the entries of a layout, in the order of the
    slots. *)
Definition ideals (L : list (option Z)) : list Z := omap (fun x => x) L.

(** A lower bound of the ideal positions of a layout that starts at [o]
    behind [prev]. *)
Definition lower (o : Z) (prev : option Z) : Z :=
  match prev with Some i' => i' | None => o end.

(** The buckets in circular order, from the slot behind [e] up to [e]. *)
Definition rotated (st : HashMap) (e : Z) : list HashBucket :=
  rotate (Z.to_nat (e + 1)) (buckets_ st).

(** The linear position of the ideal bucket of the entry at the linear
    position [y]. *)
Definition lin_entry (y : nat) (b : HashBucket) : option Z :=
  match value_ b with
  | Some _ => Some (Z.of_nat y - distance_ b)
  | None => None
  end.

(** The table as a linear layout behind the slot [e]. *)
Definition lin_view (st : HashMap) (e : Z) : list (option Z) :=
  imap lin_entry (rotated st e).

(** The linear position of the ideal bucket of a key; it depends on the
    capacity only. *)
Definition lin_ideal (capacity e : Z) (kv : Key * Value) : Z :=
  (hasher_ (fst kv) - (e + 1)) mod capacity.

(** The value of the first pair of [l] whose key is [k]. *)
Fixpoint first_binding (l : list (Key * Value)) (k : Key) : option Value :=
  match l with
  | [] => None
  | kv :: l => if decide (fst kv = k) then Some (snd kv) else first_binding l k
  end.

(** The shrink threshold of a power of two is at most a quarter of it. *)
Definition shrink_check (k : Z) : bool :=
  4 * Z.max 0 (ffloor (fmul MIN_LOAD_FACTOR (float_of_size (2 ^ k))))
  <=? 2 ^ k.

(** ** Arithmetic of [size_t] and of the mask *)

Hypothesis max_buckets_bound : max_buckets <= SIZE_MAX / 2.

Lemma wrap_small x : 0 <= x <= SIZE_MAX -> wrap x = x.
Proof. intros Hx. unfold wrap. apply Z.mod_small. unfold SIZE_MAX in *. lia. Qed.

Lemma UNOCCUPIED_eq : UNOCCUPIED = SIZE_MAX.
Proof. reflexivity. Qed.

Lemma wrap_mod_pow2 x k :
  0 <= k <= 64 -> (wrap x) mod 2 ^ k = x mod 2 ^ k.
Proof.
  intros Hk. unfold wrap. apply Z.mod_mod_divide.
  exists (2 ^ (64 - k)). rewrite <- Z.pow_add_r by lia.
  replace (64 - k + k) with 64 by lia. reflexivity.
Qed.

Lemma land_wrap_ones x k :
  0 <= k <= 64 -> Z.land (wrap x) (Z.ones k) = x mod 2 ^ k.
Proof. intros Hk. rewrite Z.land_ones by lia. apply wrap_mod_pow2; lia. Qed.

Lemma pow2_le_exp k c : 0 <= k -> 2 ^ k <= c -> c < 2 ^ 63 -> k <= 62.
Proof.
  intros Hk Hle Hlt. destruct (Z_le_gt_dec k 62) as [|Hgt]; [done|].
  assert (2 ^ 63 <= 2 ^ k) by (apply Z.pow_le_mono_r; lia). lia.
Qed.

(** What a non-zero capacity looks like. *)
Lemma geometry_pow2 st :
  geometry st -> capacity_ st <> 0 ->
  exists k, 1 <= k <= 62 /\ capacity_ st = 2 ^ k /\ mask_ st = Z.ones k.
Proof.
  intros [Hcap Halloc Hmask _ _] Hne.
  destruct Hcap as [|[(k & Hk & Hc) H2]]; [done|].
  exists k. assert (1 <= k).
  { destruct (Z.eq_dec k 0) as [->|]; [|lia]. rewrite Hc in H2. simpl in H2. lia. }
  assert (k <= 62).
  { apply (pow2_le_exp k (capacity_ st)); [lia|lia|].
    unfold SIZE_MAX in max_buckets_bound.
    change (18446744073709551615 `div` 2) with 9223372036854775807 in max_buckets_bound.
    change (2 ^ 63) with 9223372036854775808. lia. }
  repeat split; try lia. rewrite Hmask, Z.ones_equiv. lia.
Qed.

Lemma geometry_cap_range st :
  geometry st -> capacity_ st <> 0 -> 2 <= capacity_ st <= 2 ^ 62.
Proof.
  intros Hg Hne. destruct (geometry_pow2 st Hg Hne) as (k & Hk & -> & _).
  split.
  - change 2 with (2 ^ 1) at 1. apply Z.pow_le_mono_r; lia.
  - apply Z.pow_le_mono_r; lia.
Qed.

Lemma get_ideal_spec st hash :
  geometry st -> capacity_ st <> 0 -> get_ideal st hash = hash mod capacity_ st.
Proof.
  intros Hg Hne. destruct (geometry_pow2 st Hg Hne) as (k & Hk & Hc & Hm).
  unfold get_ideal. rewrite Hm, Hc. apply Z.land_ones. lia.
Qed.

Lemma next_bucket_spec st p :
  geometry st -> capacity_ st <> 0 ->
  next_bucket st p = (p + 1) mod capacity_ st.
Proof.
  intros Hg Hne. pose proof (geometry_cap_range st Hg Hne) as Hr.
  destruct (geometry_pow2 st Hg Hne) as (k & Hk & Hc & Hm).
  unfold next_bucket. rewrite (wrap_small (capacity_ st - 1)).
  - rewrite Hc. replace (2 ^ k - 1) with (Z.ones k) by (rewrite Z.ones_equiv; lia).
    apply land_wrap_ones. lia.
  - unfold SIZE_MAX. lia.
Qed.

Lemma get_distance_spec st a b :
  geometry st -> capacity_ st <> 0 ->
  get_distance st a b = (b - a) mod capacity_ st.
Proof.
  intros Hg Hne. destruct (geometry_pow2 st Hg Hne) as (k & Hk & Hc & Hm).
  unfold get_distance. rewrite Hm, Hc. apply land_wrap_ones. lia.
Qed.


(** Sums and differences under a modulus. *)
Ltac mod_norm :=
  repeat first
    [ rewrite Zplus_mod_idemp_l | rewrite Zplus_mod_idemp_r
    | rewrite Zminus_mod_idemp_l | rewrite Zminus_mod_idemp_r ].
Ltac mod_solve := mod_norm; f_equal; lia.

(** ** Buckets of a well-formed table *)

Lemma lookup_range st p b :
  geometry st -> 0 <= p -> st @ p = Some b -> p < capacity_ st.
Proof.
  intros Hg Hp Hl. apply lookup_lt_Some in Hl.
  rewrite <- (geo_len st Hg). lia.
Qed.

Lemma lookup_total st p :
  geometry st -> 0 <= p < capacity_ st -> exists b, st @ p = Some b.
Proof.
  intros Hg Hp. apply lookup_lt_is_Some. pose proof (geo_len st Hg). lia.
Qed.

Lemma bucket_at_Some st p b : st @ p = Some b -> bucket_at st p = Ok b.
Proof. intros H. unfold bucket_at. by rewrite H. Qed.

Lemma occupied_facts st p b kv :
  geometry st -> capacity_ st <> 0 -> bucket_ok st p b ->
  value_ b = Some kv ->
  0 <= distance_ b < capacity_ st /\ bucket_empty b = false /\
  hash_ b = hasher_ (fst kv) /\
  distance_ b = (p - hasher_ (fst kv)) mod capacity_ st.
Proof.
  intros Hg Hne Hok Hv. unfold bucket_ok in Hok. rewrite Hv in Hok.
  destruct Hok as [Hh Hd]. pose proof (geometry_cap_range st Hg Hne) as Hr.
  assert (0 <= distance_ b < capacity_ st) as Hb
    by (rewrite Hd; apply Z.mod_pos_bound; lia).
  split; [done|]. split; [|split; [done|by rewrite <- Hh]].
  unfold bucket_empty. apply Z.eqb_neq. rewrite UNOCCUPIED_eq.
  unfold SIZE_MAX. lia.
Qed.

Lemma dead_empty st p b :
  bucket_ok st p b -> value_ b = None -> bucket_empty b = true.
Proof.
  intros Hok Hv. unfold bucket_ok in Hok. rewrite Hv in Hok.
  unfold bucket_empty. by apply Z.eqb_eq.
Qed.

Lemma empty_iff_dead st p b :
  geometry st -> capacity_ st <> 0 -> bucket_ok st p b ->
  bucket_empty b = true <-> value_ b = None.
Proof.
  intros Hg Hne Hok. split.
  - intros He. destruct (value_ b) as [kv|] eqn:Hv; [|done].
    destruct (occupied_facts st p b kv Hg Hne Hok Hv) as (_ & He' & _).
    congruence.
  - by apply (dead_empty st p).
Qed.

Lemma stored_capacity st k v :
  geometry st -> stored st k v -> capacity_ st <> 0.
Proof.
  intros Hg (p & b & Hp & Hl & _). pose proof (lookup_range st p b Hg Hp Hl). lia.
Qed.

Lemma contents_stored st k v : (k, v) ∈ contents st <-> stored st k v.
Proof.
  unfold contents, stored. rewrite list_elem_of_omap. split.
  - intros (b & Hb & Hv). apply list_elem_of_lookup in Hb as [i Hi].
    exists (Z.of_nat i), b. rewrite Nat2Z.id. split; [lia|done].
  - intros (p & b & _ & Hl & Hv). exists b. split; [|done].
    apply list_elem_of_lookup. eauto.
Qed.

Lemma stored_size st k v : wf st -> stored st k v -> 1 <= size_ st.
Proof.
  intros Hwf Hs. apply contents_stored in Hs. rewrite (wf_size st Hwf).
  destruct (contents st); [by apply elem_of_nil in Hs|simpl; lia].
Qed.

Lemma empty_absent st k : wf st -> map_empty st = true -> absent st k.
Proof.
  intros Hwf He v Hs. apply stored_size in Hs; [|done].
  unfold map_empty in He. apply Z.eqb_eq in He. lia.
Qed.

(** Following the ordering [m] buckets back. *)
Lemma rh_chain st :
  geometry st -> slots_ok st -> rh_ok st ->
  forall m p b, (0 <= p) ->
    st @ p = Some b -> value_ b <> None -> Z.of_nat m <= distance_ b ->
    exists b', st @ ((p - Z.of_nat m) mod capacity_ st) = Some b' /\
               value_ b' <> None /\ distance_ b - Z.of_nat m <= distance_ b'.
Proof.
  intros Hg Hs Hrh m. induction m as [|m IH]; intros p b Hp Hl Hv Hd.
  - pose proof (lookup_range st p b Hg Hp Hl).
    exists b. rewrite Z.sub_0_r, Z.mod_small by lia. split_and!; [done|done|lia].
  - destruct (IH p b Hp Hl Hv) as (b1 & Hl1 & Hv1 & Hd1); [lia|].
    assert (capacity_ st <> 0) as Hne
      by (pose proof (lookup_range st p b Hg Hp Hl); lia).
    pose proof (geometry_cap_range st Hg Hne) as Hr.
    assert (0 <= (p - Z.of_nat m) mod capacity_ st) as Hp1
      by (apply Z.mod_pos_bound; lia).
    destruct (Hrh _ b1 Hp1 Hl1 Hv1) as (b2 & Hl2 & Hv2 & Hd2); [lia|].
    exists b2. split_and!; [|done|lia].
    rewrite <- Hl2. do 2 f_equal. mod_solve.
Qed.

(** ** Lookup *)

Lemma find_bucket_loop_hit st k v i bi :
  wf st -> 0 <= i -> st @ i = Some bi -> value_ bi = Some (k, v) ->
  forall fuel j,
    0 <= j <= distance_ bi -> (Z.to_nat (distance_ bi - j) < fuel)%nat ->
    find_bucket_loop fuel st k (hasher_ k)
      ((hasher_ k + j) mod capacity_ st) j = Ok i.
Proof.
  intros Hwf Hi Hli Hvi. destruct Hwf as [Hg Hs Hrh Hu _ _].
  pose proof (lookup_range st i bi Hg Hi Hli) as Hic.
  assert (capacity_ st <> 0) as Hne by lia.
  pose proof (geometry_cap_range st Hg Hne) as Hr.
  destruct (occupied_facts st i bi _ Hg Hne (Hs i bi Hi Hli) Hvi)
    as (Hdr & _ & Hh & Hd). simpl in Hh, Hd.
  induction fuel as [|fuel IH]; intros j Hj Hfuel; [lia|].
  assert ((hasher_ k + j) mod capacity_ st
          = (i - Z.of_nat (Z.to_nat (distance_ bi - j))) mod capacity_ st) as Hpos.
  { rewrite Z2Nat.id by lia.
    replace (i - (distance_ bi - j)) with (i + j - distance_ bi) by lia.
    rewrite Hd. mod_solve. }
  destruct (rh_chain st Hg Hs Hrh (Z.to_nat (distance_ bi - j)) i bi Hi Hli)
    as (b & Hl & Hv & Hdb); [congruence|lia|].
  rewrite <- Hpos in Hl. rewrite Z2Nat.id in Hdb by lia.
  set (p := (hasher_ k + j) mod capacity_ st) in *.
  assert (0 <= p < capacity_ st) as Hp by (apply Z.mod_pos_bound; lia).
  destruct (value_ b) as [kv|] eqn:Hvb; [|done].
  destruct (occupied_facts st p b kv Hg Hne (Hs p b (proj1 Hp) Hl) Hvb)
    as (_ & Hemp & Hhb & _).
  cbn [find_bucket_loop]. rewrite (bucket_at_Some st p b Hl). cbn [bind].
  rewrite Hemp. cbn [negb andb].
  replace (j <=? distance_ b) with true by (symmetry; apply Z.leb_le; lia).
  unfold bucket_get. rewrite Hvb. cbn [bind].
  destruct (decide (fst kv = k)) as [Hk|Hk].
  - assert (p = i) as -> by (eapply (Hu p i b bi kv (k, v)); eauto; lia).
    rewrite Hhb, Hk, Z.eqb_refl. cbn [bind].
    by rewrite bool_decide_eq_true_2.
  - assert (j < distance_ bi) as Hlt.
    { destruct (Z.eq_dec j (distance_ bi)) as [->|]; [|lia].
      exfalso. apply Hk.
      replace (distance_ bi - distance_ bi) with 0 in Hpos by lia.
      simpl in Hpos. rewrite Z.sub_0_r, (Z.mod_small i) in Hpos by lia.
      fold p in Hpos. subst p. rewrite Hpos in Hl.
      assert (b = bi) as -> by congruence.
      rewrite Hvi in Hvb. by inversion Hvb. }
    rewrite (bool_decide_eq_false_2 _ Hk).
    replace (if hash_ b =? hasher_ k then Ok false else Ok false)
      with (@Ok bool false) by (by destruct (hash_ b =? hasher_ k)).
    cbn [bind].
    rewrite next_bucket_spec by done.
    rewrite wrap_small by (unfold SIZE_MAX; lia).
    replace ((p + 1) mod capacity_ st)
      with ((hasher_ k + (j + 1)) mod capacity_ st) by (subst p; mod_solve).
    apply IH; lia.
Qed.


(** The scan of [find_bucket] ends within [capacity_] steps, for every key. *)
Lemma find_bucket_loop_total st k h :
  geometry st -> slots_ok st -> capacity_ st <> 0 ->
  forall fuel p j,
    0 <= p < capacity_ st -> 0 <= j ->
    (Z.to_nat (capacity_ st - j) < fuel)%nat ->
    exists r, find_bucket_loop fuel st k h p j = Ok r /\ 0 <= r < capacity_ st.
Proof.
  intros Hg Hs Hne. pose proof (geometry_cap_range st Hg Hne) as Hr.
  induction fuel as [|fuel IH]; intros p j Hp Hj Hfuel; [lia|].
  destruct (lookup_total st p Hg Hp) as [b Hl].
  cbn [find_bucket_loop]. rewrite (bucket_at_Some st p b Hl). cbn [bind].
  destruct (negb (bucket_empty b) && (j <=? distance_ b)) eqn:Hcond;
    [|by exists p].
  apply andb_true_iff in Hcond as [Hemp Hle].
  apply negb_true_iff in Hemp. apply Z.leb_le in Hle.
  destruct (value_ b) as [kv|] eqn:Hv;
    [|by rewrite (dead_empty st p b (Hs p b (proj1 Hp) Hl) Hv) in Hemp].
  destruct (occupied_facts st p b kv Hg Hne (Hs p b (proj1 Hp) Hl) Hv)
    as (Hd & _).
  unfold bucket_get. rewrite Hv.
  destruct (hash_ b =? h); cbn [bind];
    [destruct (bool_decide (fst kv = k)); [by exists p|]|];
    (rewrite next_bucket_spec, wrap_small by (done || unfold SIZE_MAX; lia);
     apply IH; [apply Z.mod_pos_bound; lia|lia|lia]).
Qed.

Lemma find_bucket_stored st k v i bi fuel :
  wf st -> 0 <= i -> st @ i = Some bi -> value_ bi = Some (k, v) ->
  (Z.to_nat (capacity_ st) < fuel)%nat ->
  find_bucket fuel st k (hasher_ k) = Ok i.
Proof.
  intros Hwf Hi Hl Hv Hfuel. unfold find_bucket.
  assert (stored st k v) as Hst by (exists i, bi; done).
  pose proof (stored_size st k v Hwf Hst) as Hsz.
  pose proof (stored_capacity st k v (wf_geo st Hwf) Hst) as Hne.
  pose proof (geometry_cap_range st (wf_geo st Hwf) Hne) as Hr.
  unfold map_empty. replace (size_ st =? 0) with false
    by (symmetry; apply Z.eqb_neq; lia).
  rewrite get_ideal_spec by (done || apply Hwf).
  replace (hasher_ k mod capacity_ st)
    with ((hasher_ k + 0) mod capacity_ st) by (f_equal; lia).
  destruct (occupied_facts st i bi _ (wf_geo st Hwf) Hne
              (wf_slots st Hwf i bi Hi Hl) Hv) as (Hd & _).
  eapply find_bucket_loop_hit; eauto; lia.
Qed.

Lemma wf_capacity_zero st :
  wf st -> capacity_ st = 0 -> buckets_ st = [] /\ size_ st = 0.
Proof.
  intros Hwf Hz. assert (buckets_ st = []) as Hnil.
  { apply length_zero_iff_nil. pose proof (geo_len st (wf_geo st Hwf)). lia. }
  split; [done|]. rewrite (wf_size st Hwf). unfold contents. by rewrite Hnil.
Qed.

Lemma find_bucket_total st k h fuel :
  wf st -> (Z.to_nat (capacity_ st) < fuel)%nat ->
  exists r, find_bucket fuel st k h = Ok r /\
            0 <= r /\ (capacity_ st <> 0 -> r < capacity_ st).
Proof.
  intros Hwf Hfuel. pose proof (wf_geo st Hwf) as Hg. unfold find_bucket.
  destruct (Z.eq_dec (capacity_ st) 0) as [Hz|Hne].
  - destruct (wf_capacity_zero st Hwf Hz) as [_ Hsz].
    assert (get_ideal st h = 0) as ->.
    { unfold get_ideal. rewrite (geo_mask st Hg), Hz. simpl. apply Z.land_0_r. }
    unfold map_empty. rewrite Hsz. simpl. exists 0. split; [done|lia].
  - pose proof (geometry_cap_range st Hg Hne) as Hr.
    rewrite get_ideal_spec by done.
    assert (0 <= h mod capacity_ st < capacity_ st) as Hp
      by (apply Z.mod_pos_bound; lia).
    destruct (map_empty st); [exists (h mod capacity_ st); split; [done|lia]|].
    destruct (find_bucket_loop_total st k h Hg (wf_slots st Hwf) Hne fuel _ 0 Hp)
      as (r & -> & Hrr); [lia|rewrite Z.sub_0_r; lia|].
    exists r. split; [done|lia].
Qed.

(** [check] at a position inside the table. *)
Lemma check_stored st p b k v :
  wf st -> 0 <= p -> st @ p = Some b -> value_ b = Some (k, v) ->
  check st p k (hasher_ k) = Ok true.
Proof.
  intros Hwf Hp Hl Hv.
  assert (stored st k v) as Hst by (exists p, b; done).
  pose proof (stored_size st k v Hwf Hst) as Hsz.
  pose proof (stored_capacity st k v (wf_geo st Hwf) Hst) as Hne.
  destruct (occupied_facts st p b _ (wf_geo st Hwf) Hne
              (wf_slots st Hwf p b Hp Hl) Hv) as (_ & He & Hh & _).
  unfold check, map_empty. replace (size_ st =? 0) with false
    by (symmetry; apply Z.eqb_neq; lia).
  rewrite (bucket_at_Some st p b Hl). cbn [bind]. rewrite He, Hh. simpl.
  rewrite Z.eqb_refl. simpl. unfold bucket_get. rewrite Hv. simpl.
  by rewrite bool_decide_eq_true_2.
Qed.

Lemma check_true st p k h :
  check st p k h = Ok true ->
  exists b v, st @ p = Some b /\ value_ b = Some (k, v) /\
              bucket_empty b = false /\ map_empty st = false.
Proof.
  unfold check, bucket_at. destruct (map_empty st); [done|].
  destruct (st @ p) as [b|]; [|done]. cbn [bind].
  destruct (bucket_empty b) eqn:He; [done|].
  destruct (negb (hash_ b =? h)); [done|].
  unfold bucket_get. destruct (value_ b) as [[k' v]|] eqn:Hv; [|done].
  cbn [bind]. intros [= Hk%bool_decide_eq_true]. simpl in Hk. subst k'.
  by exists b, v.
Qed.

Lemma check_absent st p k h :
  wf st -> absent st k -> 0 <= p -> (capacity_ st <> 0 -> p < capacity_ st) ->
  check st p k h = Ok false.
Proof.
  intros Hwf Habs Hp Hpc. pose proof (wf_geo st Hwf) as Hg. unfold check.
  destruct (map_empty st) eqn:Hemp; [done|].
  assert (capacity_ st <> 0) as Hne.
  { intros Hz. destruct (wf_capacity_zero st Hwf Hz) as [_ Hsz].
    unfold map_empty in Hemp. rewrite Hsz in Hemp. done. }
  destruct (lookup_total st p Hg) as [b Hl]; [lia|].
  rewrite (bucket_at_Some st p b Hl). cbn [bind].
  destruct (bucket_empty b) eqn:He; [done|].
  destruct (negb (hash_ b =? h)); [done|].
  destruct (value_ b) as [[k' v]|] eqn:Hv.
  - unfold bucket_get. rewrite Hv. cbn [bind]. f_equal.
    apply bool_decide_eq_false_2. simpl. intros ->.
    apply (Habs v). by exists p, b.
  - by rewrite (dead_empty st p b (wf_slots st Hwf p b Hp Hl) Hv) in He.
Qed.

(** ** [find] and [at] on a well-formed table *)

Lemma at_stored st k v fuel :
  wf st -> stored st k v -> (Z.to_nat (capacity_ st) < fuel)%nat ->
  at_ fuel st k = Ok v.
Proof.
  intros Hwf Hst Hfuel. pose proof (stored_size st k v Hwf Hst) as Hsz.
  destruct Hst as (p & b & Hp & Hl & Hv). unfold at_, map_empty.
  replace (size_ st =? 0) with false by (symmetry; apply Z.eqb_neq; lia).
  rewrite (find_bucket_stored st k v p b fuel) by done. cbn [bind].
  rewrite (check_stored st p b k v) by done. cbn [bind negb].
  rewrite (bucket_at_Some st p b Hl). cbn [bind]. unfold bucket_get.
  by rewrite Hv.
Qed.

Lemma at_absent st k fuel :
  wf st -> absent st k -> (Z.to_nat (capacity_ st) < fuel)%nat ->
  at_ fuel st k = Err OutOfRange.
Proof.
  intros Hwf Habs Hfuel. unfold at_. destruct (map_empty st); [done|].
  destruct (find_bucket_total st k (hasher_ k) fuel Hwf Hfuel)
    as (r & -> & Hr0 & Hr1). cbn [bind].
  by rewrite (check_absent st r k (hasher_ k)).
Qed.

Lemma find_stored st k v fuel :
  wf st -> stored st k v -> (Z.to_nat (capacity_ st) < fuel)%nat ->
  exists it, find fuel st k = Ok it /\ deref st it = Ok (k, v).
Proof.
  intros Hwf Hst Hfuel. pose proof (stored_size st k v Hwf Hst) as Hsz.
  destruct Hst as (p & b & Hp & Hl & Hv). unfold find, map_empty.
  replace (size_ st =? 0) with false by (symmetry; apply Z.eqb_neq; lia).
  rewrite (find_bucket_stored st k v p b fuel) by done. cbn [bind].
  rewrite (check_stored st p b k v) by done. cbn [bind].
  exists (Some p). split; [done|]. unfold deref.
  rewrite (bucket_at_Some st p b Hl). cbn [bind]. unfold bucket_get.
  by rewrite Hv.
Qed.

Lemma find_absent st k fuel :
  wf st -> absent st k -> (Z.to_nat (capacity_ st) < fuel)%nat ->
  find fuel st k = Ok None.
Proof.
  intros Hwf Habs Hfuel. unfold find. destruct (map_empty st); [done|].
  destruct (find_bucket_total st k (hasher_ k) fuel Hwf Hfuel)
    as (r & -> & Hr0 & Hr1). cbn [bind].
  by rewrite (check_absent st r k (hasher_ k)).
Qed.

(** A key is stored with at most one value. *)
Lemma stored_functional st k v v' :
  wf st -> stored st k v -> stored st k v' -> v = v'.
Proof.
  intros Hwf (p & b & Hp & Hl & Hv) (q & b' & Hq & Hl' & Hv').
  assert (p = q) as -> by (eapply (wf_keys st Hwf p q b b'); eauto).
  congruence.
Qed.

Lemma stored_dec st k : wf st -> (exists v, stored st k v) \/ absent st k.
Proof.
  intros Hwf.
  destruct (decide (Exists (fun kv => fst kv = k) (contents st))) as [Hex|Hno].
  - left. apply list.Exists_exists in Hex as ([k' v] & Hin & Hk). simpl in Hk.
    subst k'. exists v. by apply contents_stored.
  - right. intros v Hst. apply Hno. apply list.Exists_exists. exists (k, v).
    split; [by apply contents_stored|done].
Qed.


(** ** Circular positions *)

Lemma mod_wrap_once x c :
  0 <= x < 2 * c -> x mod c = if x <? c then x else x - c.
Proof.
  intros Hx. destruct (Z.ltb_spec x c).
  - apply Z.mod_small. lia.
  - symmetry. apply (Z.mod_unique x c 1); lia.
Qed.

Lemma mod_back_once x c :
  - c <= x < c -> x mod c = if x <? 0 then x + c else x.
Proof.
  intros Hx. destruct (Z.ltb_spec x 0).
  - symmetry. apply (Z.mod_unique x c (-1)); lia.
  - apply Z.mod_small. lia.
Qed.

Lemma add_mod_ne p m c :
  0 <= p < c -> 0 < m < c -> (p + m) mod c <> p.
Proof.
  intros Hp Hm. rewrite mod_wrap_once by lia.
  destruct (p + m <? c); lia.
Qed.

Lemma prev_ne p c : 2 <= c -> 0 <= p < c -> (p - 1) mod c <> p.
Proof.
  intros Hc Hp. rewrite mod_back_once by lia. destruct (p - 1 <? 0); lia.
Qed.

Lemma prev_next p c : 0 <= p < c -> ((p + 1) mod c - 1) mod c = p.
Proof.
  intros Hp. rewrite Zminus_mod_idemp_l.
  replace (p + 1 - 1) with p by lia. apply Z.mod_small. lia.
Qed.

Lemma prev_eq_next p q c :
  0 <= p < c -> 0 <= q < c -> (q - 1) mod c = p -> q = (p + 1) mod c.
Proof.
  intros Hp Hq <-. rewrite Zplus_mod_idemp_l.
  replace (q - 1 + 1) with q by lia. symmetry. apply Z.mod_small. lia.
Qed.

(** ** Storing a bucket *)

Lemma store_lookup_eq st p b :
  geometry st -> 0 <= p < capacity_ st -> store_bucket st p b @ p = Some b.
Proof.
  intros Hg Hp. simpl. apply list_lookup_insert_eq.
  pose proof (geo_len st Hg). lia.
Qed.

Lemma store_lookup_ne st p q b :
  0 <= p -> 0 <= q -> p <> q -> store_bucket st p b @ q = st @ q.
Proof. intros Hp Hq Hne. simpl. apply list_lookup_insert_ne. lia. Qed.

Lemma store_geometry st p b : geometry st -> geometry (store_bucket st p b).
Proof.
  intros [Hcap Halloc Hmask Hlen Hsz]. split; simpl; try done.
  - by rewrite length_insert.
  - change (update_sizes (store_bucket st p b))
      with (store_bucket (update_sizes st) p b). by rewrite Hsz.
Qed.

Lemma contents_store st p b b' :
  0 <= p -> st @ p = Some b ->
  option_list (value_ b) ++ contents (store_bucket st p b')
  ≡ₚ option_list (value_ b') ++ contents st.
Proof.
  intros Hp Hl. unfold contents. simpl.
  rewrite insert_take_drop by (by eapply lookup_lt_Some).
  rewrite <- (take_drop_middle (buckets_ st) (Z.to_nat p) b Hl) at 3.
  rewrite !omap_app. simpl.
  destruct (value_ b), (value_ b'); simpl;
    rewrite ?Permutation_middle; try done.
  apply Permutation_app_head, perm_swap.
Qed.

Lemma slots_ok_store st p b :
  slots_ok st -> 0 <= p -> bucket_ok st p b -> slots_ok (store_bucket st p b).
Proof.
  intros Hs Hp Hb q bq Hq Hl. destruct (Z.eq_dec p q) as [->|Hne].
  - simpl in Hl. apply list_lookup_insert_Some in Hl as [(_ & <- & _)|[? _]];
      [done|lia].
  - rewrite store_lookup_ne in Hl by done. by apply Hs.
Qed.

Lemma keys_unique_store st p b :
  geometry st -> keys_unique st -> 0 <= p < capacity_ st ->
  (forall kv q bq kv', value_ b = Some kv -> 0 <= q -> q <> p ->
     st @ q = Some bq -> value_ bq = Some kv' -> fst kv <> fst kv') ->
  keys_unique (store_bucket st p b).
Proof.
  intros Hg Hu Hp Hfresh q1 q2 b1 b2 kv1 kv2 Hq1 Hq2 Hl1 Hl2 Hv1 Hv2 Hk.
  destruct (Z.eq_dec q1 p) as [->|Hn1], (Z.eq_dec q2 p) as [->|Hn2]; [done|..].
  - rewrite store_lookup_eq in Hl1 by done. injection Hl1 as <-.
    rewrite store_lookup_ne in Hl2 by lia.
    by destruct (Hfresh kv1 q2 b2 kv2).
  - rewrite store_lookup_eq in Hl2 by done. injection Hl2 as <-.
    rewrite store_lookup_ne in Hl1 by lia.
    by destruct (Hfresh kv2 q1 b1 kv1).
  - rewrite store_lookup_ne in Hl1, Hl2 by lia. by eapply Hu.
Qed.

(** Replacing a bucket by an entry that is at least as displaced keeps the
    ordering, when the entry is in order with its predecessor. *)
Lemma rh_ok_store st p bo b :
  geometry st -> capacity_ st <> 0 -> rh_ok st ->
  0 <= p -> st @ p = Some bo ->
  value_ b <> None ->
  (value_ bo <> None -> distance_ bo <= distance_ b) ->
  (1 <= distance_ b ->
   exists b', st @ ((p - 1) mod capacity_ st) = Some b' /\
              value_ b' <> None /\ distance_ b - 1 <= distance_ b') ->
  rh_ok (store_bucket st p b).
Proof.
  intros Hg Hne Hrh Hp Hl Hv Hmono Hprev q bq Hq Hlq Hvq Hdq.
  pose proof (geometry_cap_range st Hg Hne) as Hr.
  pose proof (lookup_range st p bo Hg Hp Hl) as Hpc.
  change (capacity_ (store_bucket st p b)) with (capacity_ st).
  assert (0 <= (q - 1) mod capacity_ st < capacity_ st) as Hpq
    by (apply Z.mod_pos_bound; lia).
  destruct (Z.eq_dec q p) as [->|Hnq].
  - rewrite store_lookup_eq in Hlq by (done || lia). injection Hlq as <-.
    rewrite store_lookup_ne by (pose proof (prev_ne p (capacity_ st)); lia).
    by apply Hprev.
  - rewrite store_lookup_ne in Hlq by lia.
    destruct (Hrh q bq Hq Hlq Hvq Hdq) as (b' & Hl' & Hv' & Hd').
    destruct (Z.eq_dec ((q - 1) mod capacity_ st) p) as [Heq|Hnp].
    + rewrite Heq in *. rewrite store_lookup_eq by (done || lia).
      assert (b' = bo) as -> by congruence.
      exists b. split_and!; [done|done|]. specialize (Hmono Hv'). lia.
    + rewrite store_lookup_ne by lia. by exists b'.
Qed.


(** ** The probe loop of [insert] *)

Lemma same_fields_store st p b : same_fields st (store_bucket st p b).
Proof. by split. Qed.

Lemma same_fields_trans st1 st2 st3 :
  same_fields st1 st2 -> same_fields st2 st3 -> same_fields st1 st3.
Proof. intros [] []. split; congruence. Qed.

Lemma same_fields_capacity st st' :
  same_fields st st' -> capacity_ st' = capacity_ st.
Proof. by intros []. Qed.

Lemma dist_next p h c d :
  0 <= d -> d + 1 < c -> d = (p - h) mod c ->
  d + 1 = ((p + 1) mod c - h) mod c.
Proof.
  intros Hd Hc Heq. rewrite Zminus_mod_idemp_l.
  replace (p + 1 - h) with ((p - h) + 1) by lia.
  rewrite <- Zplus_mod_idemp_l, <- Heq. symmetry. apply Z.mod_small. lia.
Qed.

Lemma absent_fresh st (kv : Key * Value) :
  absent st (fst kv) ->
  forall q bq (kv' : Key * Value), 0 <= q ->
    st @ q = Some bq -> value_ bq = Some kv' -> fst kv <> fst kv'.
Proof.
  intros Habs q bq [k' v'] Hq Hl Hv Hk. simpl in Hk.
  apply (Habs v'). exists q, bq. by rewrite Hk.
Qed.

Lemma insert_loop_spec fuel :
  forall st kv h d p ans r,
    table_ok st -> h = hasher_ (fst kv) -> 0 <= p < capacity_ st ->
    d = (p - h) mod capacity_ st -> absent st (fst kv) ->
    (1 <= d ->
     exists b', st @ ((p - 1) mod capacity_ st) = Some b' /\
                value_ b' <> None /\ d - 1 <= distance_ b') ->
    0 <= r ->
    (exists e, st @ ((p + r) mod capacity_ st) = Some e /\ value_ e = None) ->
    d + r < capacity_ st -> (Z.to_nat r < fuel)%nat ->
    exists res, insert_loop fuel st kv h d p ans = Ok res /\
                insert_post st kv p r ans res.
Proof.
  induction fuel as [|fuel IH];
    intros st kv h d p ans r Hok Hh Hp Hd Habs Hprev Hr Hdead Hsum Hfuel; [lia|].
  destruct Hok as [Hg Hne Hs Hrh Hu].
  pose proof (geometry_cap_range st Hg Hne) as Hcr.
  assert (0 <= d) as Hd0 by (rewrite Hd; apply Z.mod_pos_bound; lia).
  destruct (lookup_total st p Hg Hp) as [b Hl].
  cbn [insert_loop]. rewrite (bucket_at_Some st p b Hl). cbn [bind].
  destruct (value_ b) as [kvR|] eqn:Hv.
  - (* an occupied bucket *)
    destruct (occupied_facts st p b kvR Hg Hne (Hs p b (proj1 Hp) Hl) Hv)
      as (HdR & He & HhR & HdRe).
    rewrite He.
    assert (1 <= r) as Hr1.
    { destruct (Z.eq_dec r 0) as [->|]; [|lia]. exfalso.
      destruct Hdead as (e & Hle & Hve).
      rewrite Z.add_0_r, Z.mod_small in Hle by lia. congruence. }
    assert (next_bucket st p = (p + 1) mod capacity_ st) as Hnext
      by (by apply next_bucket_spec).
    assert (0 <= (p + 1) mod capacity_ st < capacity_ st) as Hp1
      by (apply Z.mod_pos_bound; lia).
    assert (forall st1, (forall q, 0 <= q -> q <> p -> st1 @ q = st @ q) ->
            exists e, st1 @ (((p + 1) mod capacity_ st + (r - 1))
                             mod capacity_ st) = Some e /\ value_ e = None)
      as Hdead1.
    { intros st1 Hsame. destruct Hdead as (e & Hle & Hve). exists e.
      split; [|done]. rewrite Zplus_mod_idemp_l.
      replace (p + 1 + (r - 1)) with (p + r) by lia.
      rewrite Hsame; [done|apply Z.mod_pos_bound; lia|].
      apply add_mod_ne; lia. }
    assert (forall q, (forall j, 0 <= j <= r -> q <> (p + j) mod capacity_ st) ->
            q <> p /\
            forall j, 0 <= j <= r - 1 ->
              q <> ((p + 1) mod capacity_ st + j) mod capacity_ st) as Hframe.
    { intros q Hq. split.
      - specialize (Hq 0). rewrite Z.add_0_r, Z.mod_small in Hq by lia.
        apply Hq. lia.
      - intros j Hj. rewrite Zplus_mod_idemp_l.
        replace (p + 1 + j) with (p + (j + 1)) by lia. apply Hq. lia. }
    destruct (distance_ b <? d) eqn:Hlt.
    + (* the resident is less displaced: swap *)
      apply Z.ltb_lt in Hlt.
      unfold bucket_swap, bucket_get. rewrite Hv. cbn [bind].
      set (nb := {| value_ := Some kv; hash_ := h; distance_ := d |}).
      set (st1 := store_bucket st p nb).
      change (next_bucket st1 p) with (next_bucket st p). rewrite Hnext.
      rewrite wrap_small by (unfold SIZE_MAX; lia).
      assert (table_ok st1) as Hok1.
      { split.
        - by apply store_geometry.
        - done.
        - apply slots_ok_store; [done|lia|]. unfold bucket_ok. simpl. done.
        - eapply rh_ok_store; eauto; simpl; try done; try lia.
        - apply keys_unique_store; try done. simpl. intros kv0 q bq kv' [= <-] Hq _.
          by apply (absent_fresh st kv Habs). }
      assert (capacity_ st1 = capacity_ st) as Hc1 by reflexivity.
      destruct (IH st1 kvR (hash_ b) (distance_ b + 1) ((p + 1) mod capacity_ st)
                  (if ans =? UNOCCUPIED then p else ans) (r - 1))
        as ([[[[[st' kv'] h'] d'] p'] ans'] & Hrun & e & Hle & Hp' & HF);
        rewrite ?Hc1 in *; try done; try lia.
      * apply dist_next; [lia|lia|]. by rewrite HhR.
      * (* the evicted key is not in the table any more *)
        intros v (q & bq & Hq & Hlq & Hvq).
        destruct (Z.eq_dec q p) as [->|Hnq].
        -- unfold st1 in Hlq. rewrite store_lookup_eq in Hlq by done.
           injection Hlq as <-. simpl in Hvq. injection Hvq as Hkv.
           apply (Habs (snd kvR)). exists p, b.
           rewrite Hkv. simpl. by destruct kvR.
        -- unfold st1 in Hlq. rewrite store_lookup_ne in Hlq by lia.
           apply Hnq.
           apply (Hu q p bq b (fst kvR, v) kvR); done || lia.
      * intros _. rewrite prev_next by done. exists nb. unfold st1.
        rewrite store_lookup_eq by done. simpl. split_and!; [done|done|lia].
      * apply Hdead1. intros q Hq Hqp. unfold st1. apply store_lookup_ne; lia.
      * rewrite Hrun. eexists. split; [done|]. cbn zeta in HF.
        destruct HF as (HokF & Hsf & Hperm & Hfr & Hans1 & Hans2).
        exists e. split; [done|]. split; [done|]. cbn zeta.
        split_and!;
          [done|by eapply same_fields_trans; [apply same_fields_store|]| | | |].
        -- rewrite Hperm.
           pose proof (contents_store st p b nb (proj1 Hp) Hl) as Hc.
           rewrite Hv in Hc. simpl in Hc. done.
        -- intros q Hq Hqr. destruct (Hframe q Hqr) as [Hqp Hqj].
           rewrite (Hfr q Hq Hqj). unfold st1. apply store_lookup_ne; lia.
        -- intros ->. rewrite Z.eqb_refl in Hans2.
           rewrite Hans2 by (rewrite UNOCCUPIED_eq; unfold SIZE_MAX; lia).
           exists nb. split; [|split; [done|lia]].
           rewrite Hfr; [unfold st1; by rewrite store_lookup_eq|lia|].
           intros j Hj. rewrite Zplus_mod_idemp_l.
           replace (p + 1 + j) with (p + (j + 1)) by lia.
           pose proof (add_mod_ne p (j + 1) (capacity_ st)). lia.
        -- intros Hau. apply Z.eqb_neq in Hau as Hau'. rewrite Hau' in Hans2.
           by apply Hans2.
    + (* the resident stays *)
      apply Z.ltb_ge in Hlt. rewrite Hnext.
      rewrite wrap_small by (unfold SIZE_MAX; lia).
      destruct (IH st kv h (d + 1) ((p + 1) mod capacity_ st) ans (r - 1))
        as ([[[[[st' kv'] h'] d'] p'] ans'] & Hrun & e & Hle & Hp' & HF);
        try done; try lia.
      * apply dist_next; [lia|lia|done].
      * intros _. rewrite prev_next by done. exists b.
        split_and!; [done|congruence|lia].
      * by apply Hdead1.
      * rewrite Hrun. eexists. split; [done|]. cbn zeta in HF.
        destruct HF as (HokF & Hsf & Hperm & Hfr & Hans1 & Hans2).
        exists e. split; [done|]. split; [done|]. cbn zeta.
        split_and!; [done|done|done| |done|done].
        intros q Hq Hqr. destruct (Hframe q Hqr) as [Hqp Hqj].
        by apply Hfr.
  - (* a dead bucket: the loop is left *)
    rewrite (dead_empty st p b (Hs p b (proj1 Hp) Hl) Hv).
    eexists. split; [done|]. exists b. split; [done|]. split; [done|].
    cbn zeta. set (nb := bucket_set b kv h d).
    split_and!.
    + split.
      * by apply store_geometry.
      * done.
      * apply slots_ok_store; [done|lia|]. unfold bucket_ok. simpl. done.
      * eapply rh_ok_store; eauto; simpl; try done; try lia.
      * apply keys_unique_store; try done. simpl. intros kv0 q bq kv' [= <-] Hq _.
        by apply (absent_fresh st kv Habs).
    + apply same_fields_store.
    + pose proof (contents_store st p b nb (proj1 Hp) Hl) as Hc.
      rewrite Hv in Hc. simpl in Hc. done.
    + intros q Hq Hqr. apply store_lookup_ne; [lia|lia|].
      specialize (Hqr 0). rewrite Z.add_0_r, Z.mod_small in Hqr by lia.
      intros <-. apply Hqr; lia.
    + intros ->. rewrite Z.eqb_refl. exists nb.
      by rewrite store_lookup_eq.
    + intros Hau. apply Z.eqb_neq in Hau. by rewrite Hau.
Qed.


(** ** Placing an entry *)

Lemma omap_length_lt {A B : Type} (f : A -> option B) (l : list A) :
  (length (omap f l) < length l)%nat ->
  exists i x, l !! i = Some x /\ f x = None.
Proof.
  induction l as [|a l IH]; simpl; [lia|].
  destruct (f a) eqn:Hfa; intros Hlen.
  - destruct IH as (i & x & Hl & Hx);
      [simpl in Hlen; apply Nat.succ_lt_mono in Hlen; exact Hlen|].
    by exists (S i), x.
  - by exists 0%nat, a.
Qed.

Lemma omap_length_le {A B : Type} (f : A -> option B) (l : list A) :
  (length (omap f l) <= length l)%nat.
Proof.
  induction l as [|a l IH]; simpl; [lia|].
  destruct (f a); simpl; [apply le_n_S, IH|apply Nat.le_le_succ_r, IH].
Qed.

Lemma exists_dead st :
  geometry st -> Z.of_nat (length (contents st)) < capacity_ st ->
  exists q e, 0 <= q < capacity_ st /\ st @ q = Some e /\ value_ e = None.
Proof.
  intros Hg Hlen. pose proof (geo_len st Hg) as Hl.
  destruct (omap_length_lt value_ (buckets_ st)) as (i & e & Hi & He).
  { unfold contents in Hlen. lia. }
  exists (Z.of_nat i), e. rewrite Nat2Z.id. split_and!; try done; [lia|].
  apply lookup_lt_Some in Hi. lia.
Qed.

Lemma table_ok_with_size st n : table_ok st -> table_ok (with_size st n).
Proof.
  intros [[Hcap Halloc Hmask Hlen Hsz] Hne Hs Hrh Hu]. split; try done.
  split; try done.
  change (update_sizes (with_size st n)) with (with_size (update_sizes st) n).
  by rewrite Hsz.
Qed.

Lemma geometry_max_size st :
  geometry st -> max_size_ st <= mask_ st.
Proof.
  intros Hg. rewrite <- (geo_sizes st Hg) at 1. simpl. lia.
Qed.

Lemma insert_place_spec st kv fuel :
  table_ok st -> absent st (fst kv) ->
  size_ st = Z.of_nat (length (contents st)) -> size_ st < capacity_ st ->
  (Z.to_nat (capacity_ st) < fuel)%nat ->
  exists F a,
    insert_place fuel st kv (hasher_ (fst kv)) = Ok (F, a) /\
    table_ok F /\ same_fields (with_size st (size_ st + 1)) F /\
    contents F ≡ₚ kv :: contents st /\
    exists bA, F @ a = Some bA /\ value_ bA = Some kv /\
               0 <= a < capacity_ st.
Proof.
  intros Hok Habs Hsize Hroom Hfuel. pose proof Hok as [Hg Hne Hs Hrh Hu].
  pose proof (geometry_cap_range st Hg Hne) as Hcr.
  destruct (exists_dead st Hg) as (q & e & Hq & Hle & Hve); [lia|].
  set (h := hasher_ (fst kv)).
  assert (0 <= h mod capacity_ st < capacity_ st) as Hp
    by (apply Z.mod_pos_bound; lia).
  set (r := (q - h mod capacity_ st) mod capacity_ st).
  assert (0 <= r < capacity_ st) as Hr by (apply Z.mod_pos_bound; lia).
  destruct (insert_loop_spec fuel st kv h 0 (h mod capacity_ st) UNOCCUPIED r)
    as ([[[[[st' kv'] h'] d'] p'] ans'] & Hrun & e' & Hle' & Hp' & HF);
    try done; try lia.
  - rewrite Zminus_mod_idemp_l, Z.sub_diag. by rewrite Z.mod_0_l.
  - exists e. split; [|done]. rewrite <- Hle. do 2 f_equal. unfold r.
    rewrite Zplus_mod_idemp_r.
    replace (h mod capacity_ st + (q - h mod capacity_ st)) with q by lia.
    apply Z.mod_small. lia.
  - cbn zeta in HF. destruct HF as (HokF & Hsf & Hperm & _ & Hans & _).
    unfold insert_place. rewrite get_ideal_spec by done. fold h.
    rewrite Hrun. cbn [bind]. rewrite (bucket_at_Some st' p' e' Hle').
    cbn [bind]. eexists _, _. split; [done|].
    set (F0 := store_bucket st' p' (bucket_set e' kv' h' d')) in *.
    assert (size_ F0 = size_ st) as HszF by apply Hsf.
    rewrite HszF, wrap_small by (unfold SIZE_MAX; lia).
    split_and!.
    + by apply table_ok_with_size.
    + destruct Hsf. by split.
    + done.
    + destruct (Hans eq_refl) as (bA & HbA). by exists bA.
Qed.


(** ** Thresholds and capacities *)

Lemma load_check_all (n : nat) :
  (n < 63)%nat -> load_check (Z.of_nat (S n)) = true.
Proof.
  intros Hn.
  do 63 (destruct n as [|n]; [vm_compute; reflexivity|]). lia.
Qed.

Lemma max_load_pow2 k :
  1 <= k <= 63 ->
  2 ^ (k - 1) <= fceil (fmul MAX_LOAD_FACTOR (float_of_size (2 ^ k))).
Proof.
  intros Hk. pose proof (load_check_all (Z.to_nat (k - 1))) as H.
  replace (Z.of_nat (S (Z.to_nat (k - 1)))) with k in H by lia.
  apply Z.leb_le. apply H. lia.
Qed.

Lemma pow2_half k : 1 <= k -> 2 ^ k = 2 * 2 ^ (k - 1).
Proof.
  intros Hk. replace k with (1 + (k - 1)) at 1 by lia.
  rewrite Z.pow_add_r by lia. reflexivity.
Qed.

(** A table of [2 ^ k] buckets takes at least [2 ^ (k - 1)] entries before
    it grows, and always keeps a bucket free. *)
Lemma geometry_load st k :
  geometry st -> 1 <= k <= 63 -> capacity_ st = 2 ^ k ->
  2 ^ (k - 1) <= max_size_ st <= capacity_ st - 1.
Proof.
  intros Hg Hk Hc. pose proof (geometry_max_size st Hg) as Hmax.
  pose proof (geo_mask st Hg) as Hm.
  pose proof (max_load_pow2 k Hk) as Hl.
  pose proof (pow2_half k (proj1 Hk)) as Hh.
  assert (0 < 2 ^ (k - 1)) by (apply Z.pow_pos_nonneg; lia).
  rewrite <- (geo_sizes st Hg). simpl. rewrite Hm, Hc. lia.
Qed.

Lemma get_capacity_loop_spec count :
  1 <= count <= 2 ^ 62 ->
  forall fuel i,
    0 <= i <= 62 -> (i = 0 \/ 2 ^ (i - 1) < count) ->
    (Z.to_nat (62 - i) < fuel)%nat ->
    exists j, i <= j <= 62 /\ get_capacity_loop fuel (2 ^ i) count = Ok (2 ^ j) /\
              count <= 2 ^ j /\ (j = 0 \/ 2 ^ (j - 1) < count).
Proof.
  intros Hc. induction fuel as [|fuel IH]; intros i Hi Hlow Hfuel; [lia|].
  cbn [get_capacity_loop]. destruct (Z.ltb_spec (2 ^ i) count) as [Hlt|Hge].
  - assert (i < 62) as Hi62.
    { destruct (Z.eq_dec i 62) as [->|]; lia. }
    rewrite Z.shiftl_mul_pow2 by lia.
    replace (2 ^ i * 2 ^ 1) with (2 ^ (i + 1))
      by (rewrite Z.pow_add_r by lia; reflexivity).
    assert (2 ^ (i + 1) <= 2 ^ 62) by (apply Z.pow_le_mono_r; lia).
    assert (0 < 2 ^ (i + 1)) by (apply Z.pow_pos_nonneg; lia).
    rewrite wrap_small by (unfold SIZE_MAX; lia).
    destruct (IH (i + 1)) as (j & Hj & Hrun & Hup & Hlo); [lia| |lia|].
    + right. by replace (i + 1 - 1) with i by lia.
    + exists j. split_and!; try done; lia.
  - exists i. split_and!; try done; lia.
Qed.

Lemma get_capacity_spec fuel count :
  1 <= count <= 2 ^ 62 -> (63 <= fuel)%nat ->
  exists k, 1 <= k <= 63 /\ get_capacity fuel count = Ok (2 ^ k) /\
            count <= 2 ^ (k - 1) /\ 2 ^ k < 4 * count.
Proof.
  intros Hc Hfuel. unfold get_capacity.
  replace (count =? 0) with false by (symmetry; apply Z.eqb_neq; lia).
  destruct (get_capacity_loop_spec count Hc fuel 0) as (j & Hj & Hrun & Hup & Hlo);
    [lia|by left|lia|].
  change (2 ^ 0) with 1 in Hrun. rewrite Hrun. cbn [bind].
  rewrite Z.shiftl_mul_pow2 by lia.
  replace (2 ^ j * 2 ^ 1) with (2 ^ (j + 1))
    by (rewrite Z.pow_add_r by lia; reflexivity).
  assert (2 ^ (j + 1) <= 2 ^ 63) by (apply Z.pow_le_mono_r; lia).
  assert (0 < 2 ^ (j + 1)) by (apply Z.pow_pos_nonneg; lia).
  rewrite wrap_small by (unfold SIZE_MAX; lia).
  exists (j + 1). replace (j + 1 - 1) with j by lia.
  split_and!; try done; try lia.
  destruct (Z.eq_dec j 0) as [->|Hj0]; [change (2 ^ (0 + 1)) with 2; lia|].
  destruct Hlo as [->|Hlo]; [done|].
  assert (2 ^ (j + 1) = 4 * 2 ^ (j - 1)) as Heq.
  { replace (j + 1) with (2 + (j - 1)) by lia.
    rewrite Z.pow_add_r by lia. reflexivity. }
  lia.
Qed.

Lemma fresh_lookup capacity mx mn p b :
  fresh_table capacity mx mn @ p = Some b -> b = new_bucket.
Proof. simpl. intros H. by apply lookup_replicate_1 in H as [-> _]. Qed.

Lemma fresh_contents capacity mx mn :
  contents (fresh_table capacity mx mn) = [].
Proof.
  unfold contents. simpl. induction (Z.to_nat capacity) as [|n IH]; [done|].
  simpl. exact IH.
Qed.

Lemma fresh_wf k mx mn :
  1 <= k <= 63 -> 2 ^ k <= max_buckets -> wf (fresh_table (2 ^ k) mx mn).
Proof.
  intros Hk Halloc.
  assert (2 ^ 1 <= 2 ^ k <= 2 ^ 63) as Hr
    by (split; apply Z.pow_le_mono_r; lia).
  change (2 ^ 1) with 2 in Hr.
  assert (geometry (fresh_table (2 ^ k) mx mn)) as Hg.
  { split; simpl.
    - right. split; [exists k; split; [lia|done]|lia].
    - lia.
    - rewrite wrap_small by (unfold SIZE_MAX; lia). lia.
    - rewrite length_replicate. lia.
    - reflexivity. }
  split; try done.
  - intros p b _ Hl. apply fresh_lookup in Hl as ->. by unfold bucket_ok.
  - intros p b _ Hl Hv. by apply fresh_lookup in Hl as ->.
  - intros p q b b' kv kv' _ _ Hl _ Hv. by apply fresh_lookup in Hl as ->.
  - by rewrite fresh_contents.
  - pose proof (geometry_load _ k Hg Hk eq_refl) as Hl.
    assert (0 < 2 ^ (k - 1)) by (apply Z.pow_pos_nonneg; lia).
    change (size_ (fresh_table (2 ^ k) mx mn)) with 0. lia.
Qed.

Lemma wf_table_ok st : wf st -> capacity_ st <> 0 -> table_ok st.
Proof. intros [] Hne. by split. Qed.

Lemma table_ok_wf st :
  table_ok st -> size_ st = Z.of_nat (length (contents st)) ->
  size_ st <= max_size_ st -> wf st.
Proof. intros [] Hs Hl. by split. Qed.


(** ** [insert] without growth *)

Lemma wf_size_nonneg st : wf st -> 0 <= size_ st.
Proof. intros Hwf. rewrite (wf_size st Hwf). lia. Qed.

Lemma wf_size_lt_capacity st :
  wf st -> capacity_ st <> 0 -> size_ st < capacity_ st.
Proof.
  intros Hwf Hne. pose proof (wf_load st Hwf).
  pose proof (geometry_max_size st (wf_geo st Hwf)).
  pose proof (geo_mask st (wf_geo st Hwf)).
  pose proof (geometry_cap_range st (wf_geo st Hwf) Hne). lia.
Qed.

Lemma room_capacity st : wf st -> size_ st < max_size_ st -> capacity_ st <> 0.
Proof.
  intros Hwf Hroom Hz. pose proof (wf_size_nonneg st Hwf).
  pose proof (geometry_max_size st (wf_geo st Hwf)).
  pose proof (geo_mask st (wf_geo st Hwf)). lia.
Qed.

Lemma insert_hashed_room st kv fuel :
  wf st -> absent st (fst kv) -> size_ st < max_size_ st ->
  (Z.to_nat (capacity_ st) < fuel)%nat ->
  exists F a,
    insert_hashed fuel st kv (hasher_ (fst kv)) = Ok (F, a) /\
    added st kv F a /\ same_fields (with_size st (size_ st + 1)) F.
Proof.
  intros Hwf Habs Hroom Hfuel.
  pose proof (room_capacity st Hwf Hroom) as Hne.
  pose proof (wf_size_lt_capacity st Hwf Hne) as Hlt.
  destruct fuel as [|f]; [lia|]. cbn [insert_hashed].
  destruct (find_bucket_total st (fst kv) (hasher_ (fst kv)) (S f) Hwf Hfuel)
    as (r & -> & Hr0 & Hr1). cbn [bind].
  rewrite (check_absent st r (fst kv) (hasher_ (fst kv))) by done. cbn [bind].
  replace (size_ st =? max_size_ st) with false
    by (symmetry; apply Z.eqb_neq; lia).
  cbn [bind].
  destruct (insert_place_spec st kv (S f)) as (F & a & Hrun & HokF & Hsf & Hperm & Hans);
    try done; [by apply wf_table_ok|apply Hwf|].
  exists F, a. split; [done|]. split; [|done]. destruct Hsf. split_and!.
  - apply table_ok_wf; [done| |].
    + rewrite Hperm. simpl. rewrite sf_size0. simpl.
      rewrite (wf_size st Hwf). lia.
    + rewrite sf_size0, sf_max_size0. simpl. lia.
  - done.
  - destruct Hans as (bA & H1 & H2 & H3). exists bA.
    rewrite sf_capacity0. by simpl.
Qed.

(** Inserting a key that is there changes nothing. *)
Lemma insert_hashed_present st k v0 v fuel :
  wf st -> stored st k v0 -> (Z.to_nat (capacity_ st) < fuel)%nat ->
  exists a b, insert_hashed fuel st (k, v) (hasher_ k) = Ok (st, a) /\
              0 <= a /\ st @ a = Some b /\ value_ b = Some (k, v0).
Proof.
  intros Hwf (p & b & Hp & Hl & Hv) Hfuel.
  destruct fuel as [|f]; [lia|]. cbn [insert_hashed fst].
  rewrite (find_bucket_stored st k v0 p b (S f)) by done. cbn [bind].
  rewrite (check_stored st p b k v0) by done. cbn [bind].
  by exists p, b.
Qed.

(** ** [rehash] *)

Lemma keys_unique_NoDup st : keys_unique st -> NoDup ((contents st).*1).
Proof.
  unfold keys_unique, contents.
  assert (forall bs : list HashBucket,
    (forall i j b b' kv kv',
       bs !! i = Some b -> bs !! j = Some b' ->
       value_ b = Some kv -> value_ b' = Some kv' -> fst kv = fst kv' -> i = j) ->
    NoDup ((omap value_ bs).*1)) as Hgen.
  { induction bs as [|b bs IH]; intros Hu; [constructor|]. simpl.
    assert (NoDup (omap value_ bs).*1) as Hrest.
    { apply IH. intros i j b1 b2 kv1 kv2 H1 H2 Hv1 Hv2 Hk.
      assert (S i = S j) by (by eapply (Hu (S i) (S j))). lia. }
    destruct (value_ b) as [kv|] eqn:Hv; [|done]. simpl.
    constructor; [|done]. intros Hin.
    apply list_elem_of_fmap in Hin as (kv' & Hk & Hin).
    apply list_elem_of_omap in Hin as (b' & Hin & Hv').
    apply list_elem_of_lookup in Hin as (j & Hj).
    assert (0%nat = S j) by (by eapply (Hu 0%nat (S j) b b' kv kv')). lia. }
  intros Hu. apply Hgen. intros i j b b' kv kv' Hi Hj Hv Hv' Hk.
  assert (Z.of_nat i = Z.of_nat j); [|lia].
  apply (Hu (Z.of_nat i) (Z.of_nat j) b b' kv kv');
    rewrite ?Nat2Z.id; done || lia.
Qed.

(** The reinsertion loop puts the payloads of the old buckets into a table
    that has room for them. *)
Lemma rehash_loop_spec f :
  forall old st,
    wf st ->
    (forall b, b ∈ old -> bucket_empty b = true <-> value_ b = None) ->
    NoDup ((omap value_ old).*1) ->
    (forall kv, kv ∈ omap value_ old -> absent st (fst kv)) ->
    size_ st + Z.of_nat (length (omap value_ old)) <= max_size_ st ->
    (Z.to_nat (capacity_ st) < f)%nat ->
    exists st',
      rehash_loop
        (fun s v => do r <- insert_hashed f s v (hasher_ (fst v)); Ok (fst r))
        old st = Ok st' /\
      wf st' /\ same_fields (with_size st (size_ st')) st' /\
      contents st' ≡ₚ contents st ++ omap value_ old.
Proof.
  induction old as [|cur rest IH]; intros st Hwf Hold Hnd Habs Hroom Hfuel.
  - exists st. simpl. rewrite app_nil_r. by split_and!.
  - cbn [rehash_loop].
    assert (forall b, b ∈ rest -> bucket_empty b = true <-> value_ b = None)
      as Hold' by (intros b Hb; apply Hold; by right).
    destruct (value_ cur) as [kv|] eqn:Hv.
    + destruct (bucket_empty cur) eqn:He.
      { apply Hold in He; [congruence|by left]. }
      unfold bucket_get. rewrite Hv. cbn [bind].
      assert (omap value_ (cur :: rest) = kv :: omap value_ rest) as Heq
        by (simpl; by rewrite Hv).
      rewrite Heq in Hnd, Habs, Hroom |- *. rewrite fmap_cons in Hnd.
      rewrite length_cons in Hroom.
      apply list.NoDup_cons in Hnd as [Hnin Hnd].
      destruct (insert_hashed_room st kv f) as (F & a & Hrun & Hadd & Hsf);
        try done; [apply Habs; by left|lia|].
      rewrite Hrun. cbn [bind fst].
      destruct Hadd as (HwfF & Hperm & _). destruct Hsf. simpl in *.
      destruct (IH F) as (st' & Hrun' & Hwf' & Hsf' & Hperm'); try done.
      * intros kv' Hin v' Hst. apply contents_stored in Hst.
        rewrite Hperm in Hst. apply elem_of_cons in Hst as [Hkv|Hst].
        -- apply Hnin. apply list_elem_of_fmap. exists kv'.
           split; [by rewrite <- Hkv|done].
        -- apply contents_stored in Hst. eapply Habs; [by right|done].
      * lia.
      * lia.
      * exists st'. split_and!; try done.
        -- destruct Hsf'. simpl in *. split; simpl; congruence.
        -- rewrite Hperm', Hperm. simpl. by rewrite Permutation_middle.
    + assert (bucket_empty cur = true) as -> by (apply Hold; [by left|done]).
      assert (omap value_ (cur :: rest) = omap value_ rest) as Heq
        by (simpl; by rewrite Hv).
      rewrite Heq in Hnd, Habs, Hroom |- *.
      by apply IH.
Qed.


Lemma old_buckets_ok st :
  geometry st -> slots_ok st ->
  forall b, b ∈ buckets_ st -> bucket_empty b = true <-> value_ b = None.
Proof.
  intros Hg Hs b Hb. apply list_elem_of_lookup in Hb as (i & Hi).
  assert (st @ Z.of_nat i = Some b) as Hl by (by rewrite Nat2Z.id).
  pose proof (lookup_range st _ b Hg (Nat2Z.is_nonneg i) Hl).
  apply (empty_iff_dead st (Z.of_nat i)); [done|lia|].
  apply Hs; [lia|done].
Qed.

(** [rehash] to a capacity [2 ^ k] that has room for the entries. *)
Lemma rehash_with_spec f st k :
  geometry st -> slots_ok st -> keys_unique st ->
  1 <= k <= 63 -> Z.of_nat (length (contents st)) <= 2 ^ (k - 1) ->
  2 ^ k <= max_buckets -> (Z.to_nat (2 ^ k) < f)%nat ->
  exists st',
    rehash_with
      (fun s v => do r <- insert_hashed f s v (hasher_ (fst v)); Ok (fst r))
      (2 ^ k) st = Ok st' /\
    wf st' /\ capacity_ st' = 2 ^ k /\ contents st' ≡ₚ contents st.
Proof.
  intros Hg Hs Hu Hk Hcount Halloc Hfuel. unfold rehash_with.
  replace (max_buckets <? 2 ^ k) with false by (symmetry; apply Z.ltb_ge; lia).
  cbv zeta. fold (fresh_table (2 ^ k) (max_size_ st) (min_size_ st)).
  set (st0 := fresh_table (2 ^ k) (max_size_ st) (min_size_ st)).
  pose proof (fresh_wf k (max_size_ st) (min_size_ st) Hk Halloc) as Hwf0.
  fold st0 in Hwf0.
  destruct (rehash_loop_spec f (buckets_ st) st0) as (st' & Hrun & Hwf' & Hsf & Hperm);
    try done.
  - by apply old_buckets_ok.
  - by apply keys_unique_NoDup.
  - intros kv _ v Hst. apply contents_stored in Hst. unfold st0 in Hst.
    rewrite fresh_contents in Hst. by apply elem_of_nil in Hst.
  - pose proof (geometry_load st0 k (wf_geo st0 Hwf0) Hk eq_refl) as Hl.
    change (size_ st0) with 0. unfold contents in Hcount. lia.
  - exists st'. split_and!; try done.
    + by destruct Hsf.
    + rewrite Hperm. unfold st0. by rewrite fresh_contents.
Qed.

Lemma rehash_with_alloc ins st capacity :
  max_buckets < capacity -> rehash_with ins capacity st = Err AllocFailure.
Proof.
  intros H. unfold rehash_with.
  by replace (max_buckets <? capacity) with true by (symmetry; by apply Z.ltb_lt).
Qed.

(** ** [insert] *)

Lemma wf_capacity_nonneg st : wf st -> 0 <= capacity_ st.
Proof. intros Hwf. rewrite <- (geo_len st (wf_geo st Hwf)). lia. Qed.

Lemma absent_perm st st' k :
  contents st' ≡ₚ contents st -> absent st k -> absent st' k.
Proof.
  intros Hperm Habs v Hst. apply (Habs v). apply contents_stored.
  rewrite <- Hperm. by apply contents_stored.
Qed.

Lemma insert_hashed_grow st kv fuel :
  wf st -> absent st (fst kv) -> size_ st = max_size_ st -> enough st fuel ->
  exists k, 1 <= k <= 63 /\
    get_capacity fuel (size_ st + 1) = Ok (2 ^ k) /\
    size_ st + 1 <= 2 ^ (k - 1) /\
    (max_buckets < 2 ^ k ->
     insert_hashed fuel st kv (hasher_ (fst kv)) = Err AllocFailure) /\
    (2 ^ k <= max_buckets ->
     exists F a, insert_hashed fuel st kv (hasher_ (fst kv)) = Ok (F, a) /\
                 added st kv F a /\ capacity_ F = 2 ^ k).
Proof.
  intros Hwf Habs Hfull Hfuel. unfold enough in Hfuel.
  pose proof (wf_capacity_nonneg st Hwf) as Hc0.
  pose proof (wf_size_nonneg st Hwf) as Hs0.
  assert (size_ st + 1 <= 2 ^ 62 /\ size_ st + 1 <= Z.max 1 (capacity_ st))
    as [Hcount Hcount'].
  { destruct (Z.eq_dec (capacity_ st) 0) as [Hz|Hne].
    - destruct (wf_capacity_zero st Hwf Hz) as [_ ->]. lia.
    - pose proof (wf_size_lt_capacity st Hwf Hne).
      pose proof (geometry_cap_range st (wf_geo st Hwf) Hne). lia. }
  destruct fuel as [|f]; [lia|].
  destruct (get_capacity_spec (S f) (size_ st + 1)) as (k & Hk & Hcap & Hup & Hlo);
    [lia|lia|].
  exists k. split; [done|]. split; [done|]. split; [done|].
  assert (insert_hashed (S f) st kv (hasher_ (fst kv))
          = do st1 <- rehash_with
               (fun s v => do r <- insert_hashed f s v (hasher_ (fst v)); Ok (fst r))
               (2 ^ k) st;
            insert_place (S f) st1 kv (hasher_ (fst kv))) as ->.
  { cbn [insert_hashed].
    destruct (find_bucket_total st (fst kv) (hasher_ (fst kv)) (S f) Hwf)
      as (r & -> & Hr0 & Hr1); [lia|]. cbn [bind].
    rewrite (check_absent st r (fst kv) (hasher_ (fst kv))) by done.
    cbn [bind]. rewrite Hfull, Z.eqb_refl. rewrite <- Hfull.
    rewrite wrap_small by (unfold SIZE_MAX; lia). rewrite Hcap. done. }
  split.
  - intros Hbig. by rewrite rehash_with_alloc.
  - intros Halloc.
    assert (0 < 2 ^ (k - 1)) by (apply Z.pow_pos_nonneg; lia).
    pose proof (pow2_half k (proj1 Hk)) as Hhalf.
    destruct (rehash_with_spec f st k) as (st1 & -> & Hwf1 & Hcap1 & Hperm1);
      try done; try apply Hwf; try lia.
    { rewrite <- (wf_size st Hwf). lia. }
    cbn [bind].
    assert (size_ st1 = size_ st) as Hsz1.
    { rewrite (wf_size st1 Hwf1), (wf_size st Hwf). by rewrite Hperm1. }
    destruct (insert_place_spec st1 kv (S f))
      as (F & a & Hrun & HokF & Hsf & Hperm & Hans); try done; try lia.
    + apply wf_table_ok; [done|lia].
    + by apply (absent_perm st).
    + apply Hwf1.
    + exists F, a. split; [done|]. destruct Hsf. simpl in *.
      split; [|congruence]. split_and!.
      * apply table_ok_wf; [done| |].
        -- rewrite Hperm. simpl. rewrite sf_size0, Hsz1, (wf_size st Hwf).
           rewrite Hperm1. lia.
        -- pose proof (geometry_load st1 k (wf_geo st1 Hwf1) Hk Hcap1). lia.
      * by rewrite Hperm, Hperm1.
      * destruct Hans as (bA & H1 & H2 & H3). exists bA. by rewrite sf_capacity0.
Qed.

(** Inserting an absent key either fails while allocating the larger
    table, or adds the entry. *)
Lemma insert_hashed_absent st kv fuel :
  wf st -> absent st (fst kv) -> enough st fuel ->
  insert_hashed fuel st kv (hasher_ (fst kv)) = Err AllocFailure \/
  exists F a, insert_hashed fuel st kv (hasher_ (fst kv)) = Ok (F, a) /\
              added st kv F a.
Proof.
  intros Hwf Habs Hfuel.
  destruct (Z.eq_dec (size_ st) (max_size_ st)) as [Hfull|Hroom].
  - destruct (insert_hashed_grow st kv fuel Hwf Habs Hfull Hfuel)
      as (k & _ & _ & _ & Hbig & Hfit).
    destruct (Z.lt_ge_cases max_buckets (2 ^ k)) as [Hlt|Hge].
    + left. by apply Hbig.
    + right. destruct (Hfit Hge) as (F & a & Hrun & Hadd & _). by exists F, a.
  - right. pose proof (wf_capacity_nonneg st Hwf). unfold enough in Hfuel.
    destruct (insert_hashed_room st kv fuel) as (F & a & Hrun & Hadd & _);
      try done; [pose proof (wf_load st Hwf); lia|lia|].
    by exists F, a.
Qed.


(** ** The backward shift of [erase] *)

Lemma add_mod_inj p a b c :
  0 <= a < c -> 0 <= b < c -> (p + a) mod c = (p + b) mod c -> a = b.
Proof.
  intros Ha Hb Heq.
  assert ((p + a - p) mod c = (p + b - p) mod c) as H
    by (rewrite <- Zminus_mod_idemp_l, Heq, Zminus_mod_idemp_l; done).
  replace (p + a - p) with a in H by lia.
  replace (p + b - p) with b in H by lia.
  rewrite !Z.mod_small in H by lia. done.
Qed.

Lemma store_store st p b b' :
  store_bucket (store_bucket st p b) p b' = store_bucket st p b'.
Proof.
  unfold store_bucket, with_buckets. simpl. by rewrite list_insert_insert_eq.
Qed.

Lemma store_id st p b : st @ p = Some b -> store_bucket st p b = st.
Proof.
  intros Hl. unfold store_bucket, with_buckets.
  rewrite list_insert_id by done. by destruct st.
Qed.

(** Putting an entry into a bucket keeps the ordering when the entry is in
    order with both neighbours. *)
Lemma rh_ok_store_gen st p bo b :
  geometry st -> capacity_ st <> 0 -> rh_ok st ->
  0 <= p -> st @ p = Some bo ->
  value_ b <> None ->
  (forall bn, st @ ((p + 1) mod capacity_ st) = Some bn ->
     value_ bn <> None -> 1 <= distance_ bn ->
     distance_ bn - 1 <= distance_ b) ->
  (1 <= distance_ b ->
   exists b', st @ ((p - 1) mod capacity_ st) = Some b' /\
              value_ b' <> None /\ distance_ b - 1 <= distance_ b') ->
  rh_ok (store_bucket st p b).
Proof.
  intros Hg Hne Hrh Hp Hl Hv Hnext Hprev q bq Hq Hlq Hvq Hdq.
  pose proof (geometry_cap_range st Hg Hne) as Hr.
  pose proof (lookup_range st p bo Hg Hp Hl) as Hpc.
  change (capacity_ (store_bucket st p b)) with (capacity_ st).
  assert (0 <= (q - 1) mod capacity_ st < capacity_ st) as Hpq
    by (apply Z.mod_pos_bound; lia).
  destruct (Z.eq_dec q p) as [->|Hnq].
  - rewrite store_lookup_eq in Hlq by (done || lia). injection Hlq as <-.
    rewrite store_lookup_ne by (pose proof (prev_ne p (capacity_ st)); lia).
    by apply Hprev.
  - rewrite store_lookup_ne in Hlq by lia.
    pose proof (lookup_range st q bq Hg Hq Hlq) as Hqc.
    destruct (Hrh q bq Hq Hlq Hvq Hdq) as (b' & Hl' & Hv' & Hd').
    destruct (Z.eq_dec ((q - 1) mod capacity_ st) p) as [Heq|Hnp].
    + rewrite Heq. rewrite store_lookup_eq by (done || lia).
      exists b. split_and!; [done|done|].
      apply (Hnext bq); [|done|done].
      by rewrite <- (prev_eq_next p q (capacity_ st)) by (done || lia).
    + rewrite store_lookup_ne by lia. by exists b'.
Qed.

(** Taking an entry out keeps the ordering when no entry behind it leans
    on it. *)
Lemma rh_ok_unstore st p e gb :
  geometry st -> capacity_ st <> 0 ->
  0 <= p -> st @ p = Some e -> value_ e = None ->
  rh_ok (store_bucket st p gb) ->
  (forall bn, st @ ((p + 1) mod capacity_ st) = Some bn ->
     value_ bn <> None -> distance_ bn = 0) ->
  rh_ok st.
Proof.
  intros Hg Hne Hp Hl Hv Hrh Hnext q bq Hq Hlq Hvq Hdq.
  pose proof (geometry_cap_range st Hg Hne) as Hr.
  pose proof (lookup_range st p e Hg Hp Hl) as Hpc.
  pose proof (lookup_range st q bq Hg Hq Hlq) as Hqc.
  assert (q <> p) as Hnq by (intros ->; congruence).
  destruct (Hrh q bq Hq) as (b' & Hl' & Hv' & Hd'); try done.
  { by rewrite store_lookup_ne by lia. }
  change (capacity_ (store_bucket st p gb)) with (capacity_ st) in Hl'.
  assert (0 <= (q - 1) mod capacity_ st < capacity_ st) as Hpq
    by (apply Z.mod_pos_bound; lia).
  destruct (Z.eq_dec ((q - 1) mod capacity_ st) p) as [Heq|Hnp].
  - exfalso. apply prev_eq_next in Heq; [|lia|lia]. subst q.
    specialize (Hnext bq Hlq Hvq). lia.
  - rewrite store_lookup_ne in Hl' by lia. by exists b'.
Qed.

(** The scan over dead buckets that ends the loop of [erase]: it moves
    nothing and stops at the first entry, which sits in its ideal bucket. *)
Lemma erase_scan fuel :
  forall st gap ts r,
    table_ok st -> 0 <= ts < capacity_ st ->
    (exists e, st @ ((ts - 1) mod capacity_ st) = Some e /\ value_ e = None) ->
    0 <= r ->
    (exists b, st @ ((ts + r) mod capacity_ st) = Some b /\ value_ b <> None) ->
    (Z.to_nat r < fuel)%nat ->
    exists ts', erase_loop fuel st gap ts = Ok (st, gap, ts').
Proof.
  induction fuel as [|fuel IH]; intros st gap ts r Hok Hts Hprev Hr Hocc Hfuel;
    [lia|].
  pose proof Hok as [Hg Hne Hs Hrh Hu].
  pose proof (geometry_cap_range st Hg Hne) as Hcr.
  destruct (lookup_total st ts Hg Hts) as [b Hl].
  cbn [erase_loop]. rewrite (bucket_at_Some st ts b Hl). cbn [bind].
  destruct (value_ b) as [kv|] eqn:Hv.
  - destruct (occupied_facts st ts b kv Hg Hne (Hs ts b (proj1 Hts) Hl) Hv)
      as (Hd & _).
    assert (distance_ b = 0) as ->.
    { destruct (Z.eq_dec (distance_ b) 0) as [|Hd0]; [done|]. exfalso.
      destruct (Hrh ts b (proj1 Hts) Hl) as (b' & Hl' & Hv' & _);
        [congruence|lia|].
      destruct Hprev as (e & Hle & Hve). congruence. }
    simpl. by exists ts.
  - pose proof (Hs ts b (proj1 Hts) Hl) as Hbo. unfold bucket_ok in Hbo.
    rewrite Hv in Hbo. rewrite Hbo.
    rewrite (dead_empty st ts b (Hs ts b (proj1 Hts) Hl) Hv).
    change (negb (UNOCCUPIED =? 0)) with true. cbv iota.
    rewrite next_bucket_spec by done.
    assert (1 <= r) as Hr1.
    { destruct (Z.eq_dec r 0) as [->|]; [|lia]. exfalso.
      destruct Hocc as (b' & Hl' & Hv').
      rewrite Z.add_0_r, Z.mod_small in Hl' by lia. congruence. }
    apply (IH st gap ((ts + 1) mod capacity_ st) (r - 1)); try done; try lia.
    + apply Z.mod_pos_bound. lia.
    + rewrite prev_next by done. by exists b.
    + destruct Hocc as (b' & Hl' & Hv'). exists b'. split; [|done].
      rewrite Zplus_mod_idemp_l.
      by replace (ts + 1 + (r - 1)) with (ts + r) by lia.
Qed.


Lemma keys_unique_move st g t bg bt kv nb cb :
  geometry st -> keys_unique st ->
  0 <= g < capacity_ st -> 0 <= t < capacity_ st -> g <> t ->
  st @ g = Some bg -> value_ bg = None ->
  st @ t = Some bt -> value_ bt = Some kv ->
  value_ nb = Some kv -> value_ cb = None ->
  keys_unique (store_bucket (store_bucket st g nb) t cb).
Proof.
  intros Hg Hu Hgr Htr Hgt Hlg Hvg Hlt Hvt Hnb Hcb.
  assert (geometry (store_bucket st g nb)) as Hg1 by (by apply store_geometry).
  assert (forall q b kv', 0 <= q ->
            store_bucket (store_bucket st g nb) t cb @ q = Some b ->
            value_ b = Some kv' ->
            q <> t /\ (q = g /\ kv' = kv \/ q <> g /\ st @ q = Some b))
    as Hcases.
  { intros q b kv' Hq Hl Hv. destruct (Z.eq_dec q t) as [->|Hqt].
    - rewrite store_lookup_eq in Hl by done. congruence.
    - split; [done|]. rewrite store_lookup_ne in Hl by lia.
      destruct (Z.eq_dec q g) as [->|Hqg].
      + rewrite store_lookup_eq in Hl by done. left. split; congruence.
      + right. by rewrite store_lookup_ne in Hl by lia. }
  intros q1 q2 b1 b2 kv1 kv2 Hq1 Hq2 Hl1 Hl2 Hv1 Hv2 Hk.
  destruct (Hcases q1 b1 kv1 Hq1 Hl1 Hv1) as [Hn1 [[-> ->]|[Hg1' Hs1]]],
           (Hcases q2 b2 kv2 Hq2 Hl2 Hv2) as [Hn2 [[-> ->]|[Hg2' Hs2]]].
  - done.
  - exfalso. apply Hn2. symmetry.
    apply (Hu t q2 bt b2 kv kv2); done || lia.
  - exfalso. apply Hn1. symmetry.
    apply (Hu t q1 bt b1 kv kv1); done || lia.
  - by apply (Hu q1 q2 b1 b2 kv1 kv2).
Qed.

Lemma contents_occupied st :
  contents st <> [] ->
  exists q b, 0 <= q /\ st @ q = Some b /\ value_ b <> None.
Proof.
  intros Hne. destruct (contents st) as [|[k v] l] eqn:Hc; [done|].
  assert (stored st k v) as (q & b & Hq & Hl & Hv).
  { apply contents_stored. rewrite Hc. by left. }
  exists q, b. split_and!; [done|done|congruence].
Qed.

(** The loop of [erase], started behind a gap [gap] whose former entry
    [gb] was in order: it closes the gap and leaves the table that the pass
    of the specification leaves. *)
Lemma erase_shift fuel :
  forall st gap eg gb r,
    geometry st -> capacity_ st <> 0 -> slots_ok st -> keys_unique st ->
    0 <= gap < capacity_ st -> st @ gap = Some eg -> value_ eg = None ->
    value_ gb <> None -> rh_ok (store_bucket st gap gb) ->
    1 <= r < capacity_ st ->
    (exists e, st @ ((gap + r) mod capacity_ st) = Some e /\ value_ e = None) ->
    contents st <> [] ->
    (Z.to_nat (r + capacity_ st) < fuel)%nat ->
    exists F gap' ts ts',
      erase_loop fuel st gap (next_bucket st gap) = Ok (F, gap', ts) /\
      backward_shift_spec fuel st gap (next_bucket st gap) = Ok (F, gap', ts') /\
      table_ok F /\ same_fields st F /\ contents F ≡ₚ contents st.
Proof.
  induction fuel as [|fuel IH];
    intros st gap eg gb r Hg Hne Hs Hu Hgap Hlg Hvg Hgb Hrh Hr Hdead Hocc Hfuel;
    [lia|].
  pose proof (geometry_cap_range st Hg Hne) as Hcr.
  rewrite next_bucket_spec by done.
  set (ts := (gap + 1) mod capacity_ st).
  assert (0 <= ts < capacity_ st) as Hts by (apply Z.mod_pos_bound; lia).
  assert (ts <> gap) as Hne_ts by (apply add_mod_ne; lia).
  destruct (lookup_total st ts Hg Hts) as [b Hl].
  cbn [erase_loop backward_shift_spec].
  rewrite (bucket_at_Some st ts b Hl). cbn [bind].
  pose proof (Hs ts b (proj1 Hts) Hl) as Hbo.
  destruct (value_ b) as [kv|] eqn:Hv.
  - destruct (occupied_facts st ts b kv Hg Hne Hbo Hv) as (Hd & He & Hh & Hde).
    rewrite He. cbn [orb].
    destruct (distance_ b =? 0) eqn:Hz.
    + (* an entry in its ideal bucket: both passes stop *)
      apply Z.eqb_eq in Hz. cbn [negb].
      exists st, gap, ts, ts. split_and!; try done.
      split; try done.
      apply (rh_ok_unstore st gap eg gb); try done; [lia|].
      intros bn Hln _. fold ts in Hln. congruence.
    + (* a displaced entry: both passes move it back *)
      apply Z.eqb_neq in Hz. cbn [negb].
      unfold bucket_get. rewrite Hv. cbn [bind].
      rewrite (bucket_at_Some st gap eg Hlg). cbn [bind].
      rewrite get_ideal_spec, get_distance_spec by done.
      set (nb := bucket_set eg kv (hash_ b)
                   ((gap - hash_ b mod capacity_ st) mod capacity_ st)).
      set (st1 := store_bucket st gap nb).
      assert (st1 @ ts = Some b) as Hl1
        by (unfold st1; by rewrite store_lookup_ne by lia).
      rewrite (bucket_at_Some st1 ts b Hl1). cbn [bind].
      set (st2 := store_bucket st1 ts (bucket_clear b)).
      change (next_bucket st2 gap) with (next_bucket st gap).
      rewrite (next_bucket_spec st gap) by done. fold ts.
      assert (distance_ nb = distance_ b - 1) as Hdnb.
      { simpl. rewrite Zminus_mod_idemp_r. rewrite Hh.
        assert (distance_ b
                = ((gap - hasher_ (fst kv)) mod capacity_ st + 1)
                    mod capacity_ st) as Hstep.
        { rewrite Hde. unfold ts. mod_solve. }
        pose proof (Z.mod_pos_bound (gap - hasher_ (fst kv)) (capacity_ st)) as Hb.
        rewrite mod_wrap_once in Hstep by lia.
        destruct ((gap - hasher_ (fst kv)) mod capacity_ st + 1 <? capacity_ st);
          lia. }
      assert (geometry st1) as Hg1 by (by apply store_geometry).
      assert (r <> 1) as Hr1.
      { intros ->. destruct Hdead as (e & Hle & Hve). fold ts in Hle. congruence. }
      assert (capacity_ st2 = capacity_ st) as Hc2 by reflexivity.
      destruct (IH st2 ts (bucket_clear b) b (r - 1))
        as (F & gap' & ts1 & ts2 & Hrun & Hspec & HokF & Hsf & Hperm);
        rewrite ?Hc2; try done; try lia.
      * by apply store_geometry.
      * apply slots_ok_store; [|lia|].
        -- apply slots_ok_store; [done|lia|]. unfold bucket_ok. simpl.
           split; [done|]. by rewrite Zminus_mod_idemp_r.
        -- unfold bucket_ok, bucket_clear. simpl. by rewrite He.
      * apply (keys_unique_move st gap ts eg b kv); try done.
        unfold bucket_clear. simpl. by rewrite He.
      * unfold st2. by rewrite store_lookup_eq.
      * unfold bucket_clear. simpl. by rewrite He.
      * congruence.
      * unfold st2. rewrite store_store, (store_id st1 ts b Hl1).
        unfold st1. rewrite <- (store_store st gap gb nb).
        assert (store_bucket st gap gb @ ts = Some b) as HlG
          by (by rewrite store_lookup_ne by lia).
        destruct (Hrh ts b (proj1 Hts) HlG) as (bp & Hlp & Hvp & Hdp);
          [congruence|lia|].
        change (capacity_ (store_bucket st gap gb)) with (capacity_ st) in Hlp.
        unfold ts in Hlp. rewrite prev_next in Hlp by done.
        rewrite store_lookup_eq in Hlp by done. injection Hlp as <-.
        apply (rh_ok_store_gen _ gap gb); try done.
        -- by apply store_geometry.
        -- lia.
        -- by rewrite store_lookup_eq.
        -- intros bn Hln _ _. change (capacity_ (store_bucket st gap gb))
             with (capacity_ st) in Hln. fold ts in Hln.
           assert (bn = b) as -> by congruence. lia.
        -- intros Hd1.
           destruct (Hrh gap gb) as (b' & Hl' & Hv' & Hd'); try done; try lia.
           { by rewrite store_lookup_eq. }
           exists b'. split_and!; [done|done|lia].
      * destruct Hdead as (e & Hle & Hve). exists e. split; [|done].
        unfold ts. rewrite Zplus_mod_idemp_l.
        replace (gap + 1 + (r - 1)) with (gap + r) by lia.
        unfold st2, st1. rewrite !store_lookup_ne; try done;
          try (apply Z.mod_pos_bound; lia); try lia.
        -- pose proof (add_mod_ne gap r (capacity_ st)). lia.
        -- unfold ts. intros Heq. apply add_mod_inj in Heq; lia.
      * intros Hnil.
        pose proof (contents_store st1 ts b (bucket_clear b) (proj1 Hts) Hl1) as H2.
        pose proof (contents_store st gap eg nb (proj1 Hgap) Hlg) as H1.
        fold st1 in H1. fold st2 in H2. rewrite Hv in H2. rewrite Hvg in H1.
        unfold bucket_clear in H2. simpl in H1, H2. rewrite He in H2.
        simpl in H2. rewrite Hnil, H1 in H2.
        apply Permutation_length in H2.
        destruct (contents st); [done|simpl in H2; lia].
      * exists F, gap', ts1, ts2. split_and!; try done.
        -- eapply same_fields_trans; [|done]. by split.
        -- rewrite Hperm.
           pose proof (contents_store st1 ts b (bucket_clear b) (proj1 Hts) Hl1) as H2.
           pose proof (contents_store st gap eg nb (proj1 Hgap) Hlg) as H1.
           fold st1 in H1. fold st2 in H2. rewrite Hv in H2. rewrite Hvg in H1.
           unfold bucket_clear in H2. simpl in H1, H2. rewrite He in H2.
           simpl in H2. rewrite H1 in H2.
           by apply Permutation_cons_inv in H2.
  - (* a dead bucket: the pass of the specification stops, the loop scans on *)
    unfold bucket_ok in Hbo. rewrite Hv in Hbo. rewrite Hbo.
    assert (bucket_empty b = true) as He
      by (unfold bucket_empty; by rewrite Hbo).
    rewrite He. cbn [orb]. change (negb (UNOCCUPIED =? 0)) with true. cbv iota.
    assert (table_ok st) as Hok.
    { split; try done. apply (rh_ok_unstore st gap eg gb); try done; [lia|].
      intros bn Hln Hvn. fold ts in Hln. congruence. }
    destruct (contents_occupied st Hocc) as (q & bq & Hq & Hlq & Hvq).
    pose proof (lookup_range st q bq Hg Hq Hlq) as Hqc.
    rewrite next_bucket_spec by done.
    destruct (erase_scan fuel st gap ((ts + 1) mod capacity_ st)
                ((q - (ts + 1)) mod capacity_ st)) as (ts' & Hrun); try done.
    + apply Z.mod_pos_bound. lia.
    + rewrite prev_next by done. by exists b.
    + apply Z.mod_pos_bound. lia.
    + exists bq. split; [|done]. rewrite <- Hlq. do 2 f_equal.
      rewrite Zplus_mod_idemp_l, Zplus_mod_idemp_r.
      replace (ts + 1 + (q - (ts + 1))) with q by lia. apply Z.mod_small. lia.
    + pose proof (Z.mod_pos_bound (q - (ts + 1)) (capacity_ st)). lia.
    + exists st, gap, ts', ts. split_and!; try done.
Qed.


(** ** [erase] *)

Lemma geometry_with_size st n : geometry st -> geometry (with_size st n).
Proof.
  intros [Hcap Halloc Hmask Hlen Hsz]. split; try done.
  change (update_sizes (with_size st n)) with (with_size (update_sizes st) n).
  by rewrite Hsz.
Qed.

Lemma contents_nil_dead st p b :
  contents st = [] -> st @ p = Some b -> value_ b = None.
Proof.
  intros Hnil Hl. destruct (value_ b) as [[k v]|] eqn:Hv; [|done].
  assert ((k, v) ∈ contents st) as Hin.
  { apply contents_stored. exists (Z.of_nat (Z.to_nat p)), b.
    rewrite Nat2Z.id. split_and!; [lia|done|done]. }
  rewrite Hnil in Hin. by apply elem_of_nil in Hin.
Qed.

Lemma rh_ok_nil st : contents st = [] -> rh_ok st.
Proof.
  intros Hnil p b _ Hl Hv. by rewrite (contents_nil_dead st p b Hnil Hl) in Hv.
Qed.

Lemma geometry_max_size_nonneg st : geometry st -> 0 <= max_size_ st.
Proof.
  intros Hg. destruct (Z.eq_dec (capacity_ st) 0) as [Hz|Hne].
  - rewrite <- (geo_sizes st Hg). simpl. rewrite Hz, (geo_mask st Hg), Hz.
    vm_compute. discriminate.
  - destruct (geometry_pow2 st Hg Hne) as (k & Hk & Hc & _).
    pose proof (geometry_load st k Hg) as Hl.
    assert (0 < 2 ^ (k - 1)) by (apply Z.pow_pos_nonneg; lia). lia.
Qed.

(** Erasing a key that is not there changes nothing. *)
Lemma erase_absent st k fuel :
  wf st -> absent st k -> (Z.to_nat (capacity_ st) < fuel)%nat ->
  erase fuel st k = Ok st.
Proof.
  intros Hwf Habs Hfuel. unfold erase, erase_hashed.
  destruct (find_bucket_total st k (hasher_ k) fuel Hwf Hfuel)
    as (r & -> & Hr0 & Hr1). cbn [bind].
  by rewrite (check_absent st r k (hasher_ k)).
Qed.

Lemma erased_at_facts st p b k v :
  wf st -> 0 <= p -> st @ p = Some b -> value_ b = Some (k, v) ->
  let st1 := erased_at st p b in
  geometry st1 /\ slots_ok st1 /\ keys_unique st1 /\
  contents st ≡ₚ (k, v) :: contents st1 /\
  size_ st1 = Z.of_nat (length (contents st1)) /\
  st1 @ p = Some (bucket_clear b) /\ value_ (bucket_clear b) = None.
Proof.
  intros Hwf Hp Hl Hv st1.
  pose proof (wf_geo st Hwf) as Hg.
  pose proof (lookup_range st p b Hg Hp Hl) as Hpc.
  assert (capacity_ st <> 0) as Hne by lia.
  destruct (occupied_facts st p b _ Hg Hne (wf_slots st Hwf p b Hp Hl) Hv)
    as (_ & He & _).
  assert (value_ (bucket_clear b) = None) as Hdead
    by (unfold bucket_clear; simpl; by rewrite He).
  assert (contents st ≡ₚ (k, v) :: contents st1) as Hperm.
  { pose proof (contents_store st p b (bucket_clear b) Hp Hl) as Hc.
    rewrite Hv, Hdead in Hc. simpl in Hc. by symmetry. }
  split_and!; try done.
  - by apply geometry_with_size, store_geometry.
  - apply (slots_ok_store st p (bucket_clear b)); [apply Hwf|done|].
    unfold bucket_ok. by rewrite Hdead.
  - apply (keys_unique_store st p (bucket_clear b)); [done|apply Hwf|lia|].
    intros kv q bq kv' Hkv. congruence.
  - apply Permutation_length in Hperm. rewrite length_cons in Hperm.
    change (size_ st1) with (size_ st - 1). rewrite (wf_size st Hwf). lia.
  - unfold st1, erased_at. change (store_bucket st p (bucket_clear b) @ p
      = Some (bucket_clear b)). by apply store_lookup_eq.
Qed.

Lemma erase_unfold st k v p b fuel :
  wf st -> 0 <= p -> st @ p = Some b -> value_ b = Some (k, v) ->
  (Z.to_nat (capacity_ st) < fuel)%nat ->
  erase fuel st k =
    let st1 := erased_at st p b in
    if map_empty st1 then Ok st1
    else if size_ st1 <? min_size_ st1 then
      do capacity <- get_capacity fuel (size_ st1);
      rehash fuel capacity st1
    else
      do left <- erase_loop fuel st1 p (next_bucket st1 p);
      Ok (fst (fst left)).
Proof.
  intros Hwf Hp Hl Hv Hfuel. unfold erase, erase_hashed.
  rewrite (find_bucket_stored st k v p b fuel) by done. cbn [bind].
  rewrite (check_stored st p b k v) by done. cbn [bind negb].
  rewrite (bucket_at_Some st p b Hl). cbn [bind].
  assert (stored st k v) as Hst by (by exists p, b).
  pose proof (stored_size st k v Hwf Hst).
  pose proof (stored_capacity st k v (wf_geo st Hwf) Hst) as Hne.
  pose proof (wf_size_lt_capacity st Hwf Hne).
  pose proof (geometry_cap_range st (wf_geo st Hwf) Hne).
  change (size_ (store_bucket st p (bucket_clear b))) with (size_ st).
  rewrite wrap_small by (unfold SIZE_MAX; lia). reflexivity.
Qed.

(** Erasing the only key leaves the buckets in place, all of them empty. *)
Lemma erase_last st k v fuel :
  wf st -> stored st k v -> size_ st = 1 ->
  (Z.to_nat (capacity_ st) < fuel)%nat ->
  exists F, erase fuel st k = Ok F /\ wf F /\ same_fields (with_size st 0) F /\
            contents F = [].
Proof.
  intros Hwf Hst Hone Hfuel. pose proof Hst as (p & b & Hp & Hl & Hv).
  rewrite (erase_unfold st k v p b fuel) by done. cbv zeta.
  destruct (erased_at_facts st p b k v Hwf Hp Hl Hv)
    as (Hg1 & Hs1 & Hu1 & Hperm & Hsz1 & Hl1 & Hdead).
  set (st1 := erased_at st p b) in *.
  assert (size_ st1 = 0) as Hz by (unfold st1, erased_at; simpl; lia).
  unfold map_empty. rewrite Hz. simpl.
  assert (contents st1 = []) as Hnil.
  { apply length_zero_iff_nil. lia. }
  exists st1. split_and!; try done.
  split; try done.
  - by apply rh_ok_nil.
  - rewrite Hz. by apply geometry_max_size_nonneg.
Qed.

(** The backward shift behind the destroyed entry. *)
Lemma erased_shift st k v p b fuel :
  wf st -> 0 <= p -> st @ p = Some b -> value_ b = Some (k, v) ->
  size_ st <> 1 -> enough st fuel ->
  let st1 := erased_at st p b in
  exists F gap' ts ts',
    erase_loop fuel st1 p (next_bucket st1 p) = Ok (F, gap', ts) /\
    backward_shift_spec fuel st1 p (next_bucket st1 p) = Ok (F, gap', ts') /\
    table_ok F /\ same_fields st1 F /\ contents F ≡ₚ contents st1.
Proof.
  intros Hwf Hp Hl Hv Hsize Hfuel st1. unfold enough in Hfuel.
  assert (stored st k v) as Hst by (by exists p, b).
  pose proof (wf_geo st Hwf) as Hg.
  pose proof (stored_size st k v Hwf Hst) as Hsz.
  pose proof (stored_capacity st k v Hg Hst) as Hne.
  pose proof (wf_size_lt_capacity st Hwf Hne) as Hlt.
  pose proof (geometry_cap_range st Hg Hne) as Hcr.
  pose proof (lookup_range st p b Hg Hp Hl) as Hpc.
  destruct (erased_at_facts st p b k v Hwf Hp Hl Hv)
    as (Hg1 & Hs1 & Hu1 & Hperm & Hsz1 & Hl1 & Hdead).
  fold st1 in Hg1, Hs1, Hu1, Hperm, Hsz1, Hl1.
  assert (size_ st1 = size_ st - 1) as Hsize1 by reflexivity.
  assert (capacity_ st1 = capacity_ st) as Hcap1 by reflexivity.
  destruct (exists_dead st Hg) as (q & e & Hq & Hle & Hve);
    [rewrite <- (wf_size st Hwf); lia|].
  assert (q <> p) as Hqp by (intros ->; congruence).
  set (r := (q - p) mod capacity_ st).
  assert (0 <= r < capacity_ st) as Hr by (apply Z.mod_pos_bound; lia).
  assert ((p + r) mod capacity_ st = q) as Hpr.
  { unfold r. rewrite Zplus_mod_idemp_r.
    replace (p + (q - p)) with q by lia. apply Z.mod_small. lia. }
  assert (r <> 0) as Hr0.
  { intros Hz. rewrite Hz, Z.add_0_r, Z.mod_small in Hpr by lia. lia. }
  apply (erase_shift fuel st1 p (bucket_clear b) b r);
    rewrite ?Hcap1; try done; try lia.
  - congruence.
  - unfold st1, erased_at.
    change (store_bucket (with_size (store_bucket st p (bucket_clear b))
                            (size_ st - 1)) p b)
      with (with_size (store_bucket (store_bucket st p (bucket_clear b)) p b)
              (size_ st - 1)).
    rewrite store_store, (store_id st p b Hl).
    intros q' bq Hq' Hlq Hvq Hdq. by apply (wf_rh st Hwf).
  - exists e. rewrite Hpr. split; [|done].
    unfold st1, erased_at.
    change (store_bucket st p (bucket_clear b) @ q = Some e).
    by rewrite store_lookup_ne by lia.
  - intros Hnil. rewrite Hnil in Hsz1. simpl in Hsz1. lia.
Qed.

(** Erasing a key that is there removes its entry, shrinking or closing
    the gap; only the allocation of the smaller table can fail. *)
Lemma erase_present st k v fuel :
  wf st -> stored st k v -> enough st fuel ->
  erase fuel st k = Err AllocFailure \/
  exists F, erase fuel st k = Ok F /\ wf F /\
            contents st ≡ₚ (k, v) :: contents F.
Proof.
  intros Hwf Hst Hfuel. pose proof Hfuel as Hfuel'. unfold enough in Hfuel.
  pose proof Hst as (p & b & Hp & Hl & Hv).
  pose proof (wf_geo st Hwf) as Hg.
  pose proof (stored_size st k v Hwf Hst) as Hsz.
  pose proof (stored_capacity st k v Hg Hst) as Hne.
  pose proof (wf_size_lt_capacity st Hwf Hne) as Hlt.
  pose proof (geometry_cap_range st Hg Hne) as Hcr.
  pose proof (lookup_range st p b Hg Hp Hl) as Hpc.
  rewrite (erase_unfold st k v p b fuel) by (done || lia). cbv zeta.
  destruct (erased_at_facts st p b k v Hwf Hp Hl Hv)
    as (Hg1 & Hs1 & Hu1 & Hperm & Hsz1 & Hl1 & Hdead).
  pose proof (erased_shift st k v p b fuel Hwf Hp Hl Hv) as Hshift.
  cbv zeta in Hshift.
  set (st1 := erased_at st p b) in *.
  assert (size_ st1 = size_ st - 1) as Hsize1 by reflexivity.
  assert (capacity_ st1 = capacity_ st) as Hcap1 by reflexivity.
  assert (max_size_ st1 = max_size_ st) as Hmax1 by reflexivity.
  destruct (map_empty st1) eqn:Hemp.
  { (* the last entry *)
    right. unfold map_empty in Hemp. apply Z.eqb_eq in Hemp.
    assert (contents st1 = []) as Hnil by (apply length_zero_iff_nil; lia).
    exists st1. split_and!; try done. split; try done.
    - by apply rh_ok_nil.
    - rewrite Hemp. by apply geometry_max_size_nonneg. }
  unfold map_empty in Hemp. apply Z.eqb_neq in Hemp.
  destruct (size_ st1 <? min_size_ st1) eqn:Hshrink.
  - (* shrink *)
    destruct (get_capacity_spec fuel (size_ st1)) as (j & Hj & -> & Hup & Hlo);
      [lia|lia|]. cbn [bind]. unfold rehash.
    destruct (Z.lt_ge_cases max_buckets (2 ^ j)) as [Hbig|Hfit].
    + left. by apply rehash_with_alloc.
    + right.
      destruct (rehash_with_spec fuel st1 j) as (F & Hrun & HwfF & _ & HpermF);
        try done; try lia.
      exists F. split_and!; try done. by rewrite HpermF.
  - (* close the gap *)
    right.
    destruct Hshift as (F & gap' & ts & ts' & Hrun & _ & HokF & Hsf & HpermF);
      [lia|done|].
    rewrite Hrun. cbn [bind fst]. exists F. split_and!; try done.
    + destruct Hsf. apply table_ok_wf; [done| |].
      * rewrite HpermF. congruence.
      * pose proof (wf_load st Hwf). lia.
    + by rewrite HpermF.
Qed.

(** ** More fuel gives the same result *)

Lemma bind_Ok {A B : Type} (c : result A) (k : A -> result B) (r : B) :
  bind c k = Ok r -> exists a, c = Ok a /\ k a = Ok r.
Proof. destruct c as [a|e]; simpl; [by exists a|done]. Qed.

Lemma bind_mono {A B : Type} (c c' : result A) (k k' : A -> result B) (r : B) :
  (forall a, c = Ok a -> c' = Ok a) ->
  (forall a, c = Ok a -> k a = Ok r -> k' a = Ok r) ->
  bind c k = Ok r -> bind c' k' = Ok r.
Proof.
  intros Hc Hk H. apply bind_Ok in H as (a & Ha & Hr).
  rewrite (Hc a Ha). simpl. by apply Hk.
Qed.

Lemma find_bucket_loop_mono st key hash f :
  forall f' bucket distance r, (f <= f')%nat ->
    find_bucket_loop f st key hash bucket distance = Ok r ->
    find_bucket_loop f' st key hash bucket distance = Ok r.
Proof.
  induction f as [|f IH]; intros f' bucket distance r Hle H; [done|].
  destruct f' as [|f']; [lia|]. cbn [find_bucket_loop] in *.
  revert H. apply bind_mono; [done|]. intros b _.
  destruct (negb (bucket_empty b) && (distance <=? distance_ b)); [|done].
  apply bind_mono; [done|]. intros [|] _; [done|]. apply IH. lia.
Qed.

Lemma find_bucket_mono st key hash f f' r :
  (f <= f')%nat -> find_bucket f st key hash = Ok r ->
  find_bucket f' st key hash = Ok r.
Proof.
  intros Hle. unfold find_bucket. destruct (map_empty st); [done|].
  by apply find_bucket_loop_mono.
Qed.

Lemma get_capacity_loop_mono count f :
  forall f' size r, (f <= f')%nat ->
    get_capacity_loop f size count = Ok r ->
    get_capacity_loop f' size count = Ok r.
Proof.
  induction f as [|f IH]; intros f' size r Hle H; [done|].
  destruct f' as [|f']; [lia|]. cbn [get_capacity_loop] in *.
  destruct (size <? count); [|done]. revert H. apply IH. lia.
Qed.

Lemma get_capacity_mono count f f' r :
  (f <= f')%nat -> get_capacity f count = Ok r -> get_capacity f' count = Ok r.
Proof.
  intros Hle. unfold get_capacity. destruct (count =? 0); [done|].
  apply bind_mono; [|done]. intros a. by apply get_capacity_loop_mono.
Qed.

Lemma insert_loop_mono f :
  forall f' st value hash distance position answer r, (f <= f')%nat ->
    insert_loop f st value hash distance position answer = Ok r ->
    insert_loop f' st value hash distance position answer = Ok r.
Proof.
  induction f as [|f IH];
    intros f' st value hash distance position answer r Hle H; [done|].
  destruct f' as [|f']; [lia|]. cbn [insert_loop] in *.
  revert H. apply bind_mono; [done|]. intros b _.
  destruct (bucket_empty b); [done|].
  destruct (distance_ b <? distance).
  - apply bind_mono; [done|]. intros [b' [[value' hash'] distance']] _.
    apply IH. lia.
  - apply IH. lia.
Qed.

Lemma insert_place_mono st value hash f f' r :
  (f <= f')%nat -> insert_place f st value hash = Ok r ->
  insert_place f' st value hash = Ok r.
Proof.
  intros Hle. unfold insert_place. apply bind_mono; [|done].
  intros a. by apply insert_loop_mono.
Qed.

Lemma rehash_loop_mono (ins ins' : HashMap -> Key * Value -> result HashMap) :
  (forall s v r, ins s v = Ok r -> ins' s v = Ok r) ->
  forall old st r,
    rehash_loop ins old st = Ok r -> rehash_loop ins' old st = Ok r.
Proof.
  intros Hins. induction old as [|cur rest IH]; intros st r H; [done|].
  cbn [rehash_loop] in *. destruct (bucket_empty cur); [by apply IH|].
  revert H. apply bind_mono; [done|]. intros kv _.
  apply bind_mono; [apply Hins|]. intros st' _. apply IH.
Qed.

Lemma rehash_with_mono (ins ins' : HashMap -> Key * Value -> result HashMap)
    size st r :
  (forall s v r, ins s v = Ok r -> ins' s v = Ok r) ->
  rehash_with ins size st = Ok r -> rehash_with ins' size st = Ok r.
Proof.
  intros Hins. unfold rehash_with. destruct (max_buckets <? size); [done|].
  by apply rehash_loop_mono.
Qed.

Lemma insert_hashed_mono f :
  forall f' st value hash r, (f <= f')%nat ->
    insert_hashed f st value hash = Ok r ->
    insert_hashed f' st value hash = Ok r.
Proof.
  induction f as [|f IH]; intros f' st value hash r Hle H; [done|].
  destruct f' as [|f']; [lia|]. cbn [insert_hashed] in *.
  revert H. apply bind_mono; [intros a; by apply find_bucket_mono|].
  intros position _. apply bind_mono; [done|]. intros [|] _; [done|].
  apply bind_mono.
  - intros st1. destruct (size_ st =? max_size_ st); [|done].
    apply bind_mono; [intros a; by apply get_capacity_mono|].
    intros capacity _. apply rehash_with_mono. intros s v r'.
    apply bind_mono; [|done]. intros a. apply IH. lia.
  - intros st1 _. by apply insert_place_mono.
Qed.

Lemma insert_mono st value f f' r :
  (f <= f')%nat -> insert f st value = Ok r -> insert f' st value = Ok r.
Proof.
  intros Hle. unfold insert. apply bind_mono; [|done].
  intros a. by apply insert_hashed_mono.
Qed.

Lemma index_mono st key f f' r :
  (f <= f')%nat -> index f st key = Ok r -> index f' st key = Ok r.
Proof.
  intros Hle. unfold index.
  apply bind_mono; [intros a; by apply find_bucket_mono|].
  intros position _. apply bind_mono; [done|]. intros c _.
  apply bind_mono; [|done]. intros a. destruct (negb c); [|done].
  by apply insert_hashed_mono.
Qed.

Lemma erase_loop_mono f :
  forall f' st position to_swap r, (f <= f')%nat ->
    erase_loop f st position to_swap = Ok r ->
    erase_loop f' st position to_swap = Ok r.
Proof.
  induction f as [|f IH]; intros f' st position to_swap r Hle H; [done|].
  destruct f' as [|f']; [lia|]. cbn [erase_loop] in *.
  revert H. apply bind_mono; [done|]. intros b _.
  destruct (negb (distance_ b =? 0)); [|done].
  destruct (bucket_empty b); [apply IH; lia|].
  apply bind_mono; [done|]. intros value _.
  apply bind_mono; [done|]. intros g _.
  apply bind_mono; [done|]. intros b' _. apply IH. lia.
Qed.

Lemma erase_mono st key f f' r :
  (f <= f')%nat -> erase f st key = Ok r -> erase f' st key = Ok r.
Proof.
  intros Hle. unfold erase, erase_hashed.
  apply bind_mono; [intros a; by apply find_bucket_mono|].
  intros position _. apply bind_mono; [done|]. intros c _.
  destruct (negb c); [done|]. apply bind_mono; [done|]. intros b _.
  match goal with |- context [map_empty ?s] => destruct (map_empty s) end;
    [done|].
  match goal with |- context [?a <? ?b] => destruct (a <? b) end.
  - apply bind_mono; [intros a; by apply get_capacity_mono|].
    intros capacity _. unfold rehash. apply rehash_with_mono.
    intros s v r'. by apply insert_mono.
  - apply bind_mono; [|done]. intros a. by apply erase_loop_mono.
Qed.


(** ** Assignment, indexed access, [clear] and construction *)

Lemma assign_spec st position v st' :
  wf st -> assign st position v = Ok st' ->
  exists b k v0,
    let p := Z.of_nat (Z.to_nat position) in
    bucket_at st position = Ok b /\ st @ p = Some b /\
    value_ b = Some (k, v0) /\
    st' = store_bucket st p
            {| value_ := Some (k, v); hash_ := hash_ b;
               distance_ := distance_ b |} /\
    wf st'.
Proof.
  intros Hwf H. unfold assign in H.
  apply bind_Ok in H as (b & Hb & H). apply bind_Ok in H as ([k v0] & Hkv & H).
  injection H as <-. pose proof Hb as Hb'. unfold bucket_at in Hb.
  destruct (st @ position) as [b0|] eqn:Hl; [|done]. injection Hb as ->.
  unfold bucket_get in Hkv. destruct (value_ b) as [kv|] eqn:Hv; [|done].
  injection Hkv as ->.
  exists b, k, v0. cbv zeta.
  set (p := Z.of_nat (Z.to_nat position)).
  assert (Z.to_nat p = Z.to_nat position) as Hpp by (unfold p; lia).
  assert (0 <= p) as Hp by (unfold p; lia).
  assert (st @ p = Some b) as Hlp by (by rewrite Hpp).
  set (nb := {| value_ := Some (k, v); hash_ := hash_ b;
                distance_ := distance_ b |}).
  assert (store_bucket st position nb = store_bucket st p nb) as Hst
    by (unfold store_bucket; by rewrite Hpp).
  simpl fst. fold nb. rewrite Hst.
  split_and!; try done.
  pose proof (wf_geo st Hwf) as Hg.
  pose proof (lookup_range st p b Hg Hp Hlp) as Hpc.
  assert (capacity_ st <> 0) as Hne by lia.
  pose proof (wf_slots st Hwf p b Hp Hlp) as Hbo.
  apply table_ok_wf.
  - split.
    + by apply store_geometry.
    + done.
    + apply slots_ok_store; [apply Hwf|done|].
      unfold bucket_ok in *. rewrite Hv in Hbo. by simpl in *.
    + apply (rh_ok_store st p b nb);
        [done|done|apply Hwf|done|done|done|simpl; lia|].
      simpl. intros Hd. apply (wf_rh st Hwf p b); [done|done|congruence|done].
    + apply keys_unique_store; [done|apply Hwf|lia|].
      intros kv q bq kv' [= <-] Hq Hqp Hlq Hvq Hk. apply Hqp.
      apply (wf_keys st Hwf q p bq b kv' (k, v0)); try done.
  - pose proof (contents_store st p b nb Hp Hlp) as Hc. rewrite Hv in Hc.
    apply Permutation_length in Hc. simpl in Hc.
    change (size_ (store_bucket st p nb)) with (size_ st).
    rewrite (wf_size st Hwf). lia.
  - apply (wf_load st Hwf).
Qed.

Lemma empty_table_wf : wf (Map 0 0 0 [] 0 0).
Proof.
  split; try done. split; simpl; try done; [by left|lia].
Qed.

Lemma clear_wf st : wf (clear st).
Proof. apply empty_table_wf. Qed.

Lemma get_capacity_loop_shape count f :
  forall size r,
    (size = 0 \/ exists i, 0 <= i <= 63 /\ size = 2 ^ i) ->
    get_capacity_loop f size count = Ok r ->
    r = 0 \/ exists i, 0 <= i <= 63 /\ r = 2 ^ i.
Proof.
  induction f as [|f IH]; intros size r Hsize H; [done|].
  cbn [get_capacity_loop] in H. destruct (size <? count).
  - apply (IH _ _) in H; [done|]. destruct Hsize as [->|(i & Hi & ->)].
    + left. reflexivity.
    + rewrite Z.shiftl_mul_pow2 by lia.
      replace (2 ^ i * 2 ^ 1) with (2 ^ (i + 1))
        by (rewrite Z.pow_add_r by lia; reflexivity).
      destruct (Z.eq_dec i 63) as [->|Hne]; [left; reflexivity|].
      right. exists (i + 1). split; [lia|].
      assert (2 ^ (i + 1) <= 2 ^ 63) by (apply Z.pow_le_mono_r; lia).
      assert (0 < 2 ^ (i + 1)) by (apply Z.pow_pos_nonneg; lia).
      apply wrap_small. unfold SIZE_MAX. lia.
  - injection H as <-. done.
Qed.

Lemma get_capacity_shape f count c :
  get_capacity f count = Ok c ->
  c = 0 \/ exists k, 1 <= k <= 63 /\ c = 2 ^ k.
Proof.
  unfold get_capacity. destruct (count =? 0).
  - intros [= <-]. by left.
  - intros H. apply bind_Ok in H as (size & Hloop & [= <-]).
    apply get_capacity_loop_shape in Hloop;
      [|right; exists 0; split; [lia|reflexivity]].
    destruct Hloop as [->|(i & Hi & ->)]; [by left|].
    rewrite Z.shiftl_mul_pow2 by lia.
    replace (2 ^ i * 2 ^ 1) with (2 ^ (i + 1))
      by (rewrite Z.pow_add_r by lia; reflexivity).
    destruct (Z.eq_dec i 63) as [->|Hne]; [left; reflexivity|].
    right. exists (i + 1). split; [lia|].
    assert (2 ^ (i + 1) <= 2 ^ 63) by (apply Z.pow_le_mono_r; lia).
    assert (0 < 2 ^ (i + 1)) by (apply Z.pow_pos_nonneg; lia).
    apply wrap_small. unfold SIZE_MAX. lia.
Qed.

Lemma new_wf fuel count st : new fuel count = Ok st -> wf st /\ contents st = [].
Proof.
  unfold new. intros H. apply bind_Ok in H as (c & Hc & H).
  destruct (max_buckets <? c) eqn:Halloc; [done|]. apply Z.ltb_ge in Halloc.
  injection H as <-. apply get_capacity_shape in Hc as [->|(k & Hk & ->)].
  - split; [apply empty_table_wf|done].
  - assert (0 < 2 ^ k) by (apply Z.pow_pos_nonneg; lia).
    replace (2 ^ k =? 0) with false by (symmetry; apply Z.eqb_neq; lia).
    fold (fresh_table (2 ^ k) 0 0). split; [by apply fresh_wf|].
    apply fresh_contents.
Qed.

(** Indexed access: the entry of the key, inserted with the default value
    when the key was absent. *)
Lemma index_present st k v0 fuel :
  wf st -> stored st k v0 -> (Z.to_nat (capacity_ st) < fuel)%nat ->
  exists a b, index fuel st k = Ok (st, a) /\ 0 <= a /\
              st @ a = Some b /\ value_ b = Some (k, v0).
Proof.
  intros Hwf (p & b & Hp & Hl & Hv) Hfuel. unfold index.
  rewrite (find_bucket_stored st k v0 p b fuel) by done. cbn [bind].
  rewrite (check_stored st p b k v0) by done. cbn [bind negb].
  rewrite (bucket_at_Some st p b Hl). cbn [bind]. unfold bucket_get.
  rewrite Hv. cbn [bind]. by exists p, b.
Qed.

Lemma index_absent st k fuel :
  wf st -> absent st k -> enough st fuel ->
  index fuel st k = Err AllocFailure \/
  exists F a, index fuel st k = Ok (F, a) /\ added st (k, default_value) F a.
Proof.
  intros Hwf Habs Hfuel. unfold index.
  pose proof (wf_capacity_nonneg st Hwf) as Hc0.
  destruct (find_bucket_total st k (hasher_ k) fuel Hwf)
    as (r & -> & Hr0 & Hr1); [unfold enough in Hfuel; lia|]. cbn [bind].
  rewrite (check_absent st r k (hasher_ k)) by done. cbn [bind negb].
  destruct (insert_hashed_absent st (k, default_value) fuel Hwf Habs Hfuel)
    as [Herr|(F & a & Hrun & Hadd)]; simpl in *.
  - left. by rewrite Herr.
  - right. rewrite Hrun. cbn [bind].
    destruct Hadd as (HwfF & Hperm & bA & HlA & HvA & HaA).
    rewrite (bucket_at_Some F a bA HlA). cbn [bind]. unfold bucket_get.
    rewrite HvA. cbn [bind]. exists F, a. split; [done|].
    split_and!; try done. by exists bA.
Qed.

(** ** Every reachable table is well-formed *)

Lemma more_enough st fuel : enough st (more st fuel).
Proof. unfold enough, more. lia. Qed.

Lemma more_lookup st fuel :
  wf st -> (Z.to_nat (capacity_ st) < more st fuel)%nat.
Proof. intros Hwf. pose proof (wf_capacity_nonneg st Hwf). unfold more. lia. Qed.

Lemma insert_wf st value fuel st' :
  wf st -> insert fuel st value = Ok st' -> wf st'.
Proof.
  intros Hwf H. apply (insert_mono st value fuel (more st fuel)) in H;
    [|unfold more; lia].
  unfold insert in H. apply bind_Ok in H as ([F a] & Hrun & [= <-]).
  destruct value as [k v].
  destruct (stored_dec st k Hwf) as [[v0 Hst]|Habs].
  - destruct (insert_hashed_present st k v0 v (more st fuel) Hwf Hst)
      as (a' & b & Hrun' & _); [by apply more_lookup|].
    simpl in *. congruence.
  - destruct (insert_hashed_absent st (k, v) (more st fuel) Hwf Habs)
      as [Herr|(F' & a' & Hrun' & Hadd)]; [apply more_enough| |];
      simpl in *; [congruence|].
    assert (F = F') as -> by congruence. apply Hadd.
Qed.

Lemma index_wf st key fuel st' position :
  wf st -> index fuel st key = Ok (st', position) -> wf st'.
Proof.
  intros Hwf H. apply (index_mono st key fuel (more st fuel)) in H;
    [|unfold more; lia].
  destruct (stored_dec st key Hwf) as [[v0 Hst]|Habs].
  - destruct (index_present st key v0 (more st fuel) Hwf Hst)
      as (a & b & Hrun & _); [by apply more_lookup|]. congruence.
  - destruct (index_absent st key (more st fuel) Hwf Habs)
      as [Herr|(F & a & Hrun & Hadd)]; [apply more_enough|congruence|].
    assert (st' = F) as -> by congruence. apply Hadd.
Qed.

Lemma erase_wf st key fuel st' :
  wf st -> erase fuel st key = Ok st' -> wf st'.
Proof.
  intros Hwf H. apply (erase_mono st key fuel (more st fuel)) in H;
    [|unfold more; lia].
  destruct (stored_dec st key Hwf) as [[v0 Hst]|Habs].
  - destruct (erase_present st key v0 (more st fuel) Hwf Hst)
      as [Herr|(F & Hrun & HwfF & _)]; [apply more_enough|congruence|].
    congruence.
  - rewrite (erase_absent st key (more st fuel)) in H;
      [congruence|done|done|by apply more_lookup].
Qed.

Lemma step_wf st st' : wf st -> step st st' -> wf st'.
Proof.
  intros Hwf Hstep. destruct Hstep as [? ? ? ? H|? ? ? ? ? H|? ? ? ? H|? ? ? ? H|?].
  - by eapply insert_wf.
  - by eapply index_wf.
  - destruct (assign_spec _ _ _ _ Hwf H) as (? & ? & ? & ? & ? & ? & ? & H').
    apply H'.
  - by eapply erase_wf.
  - apply clear_wf.
Qed.

Lemma reachable_wf st : reachable st -> wf st.
Proof.
  induction 1 as [fuel count st H|st st' _ IH Hstep].
  - by apply new_wf in H as [H _].
  - by apply (step_wf st).
Qed.


(** ** What the operations do to the stored pairs *)

Lemma insert_contents st k v fuel st' :
  wf st -> insert fuel st (k, v) = Ok st' ->
  (exists v0, stored st k v0 /\ st' = st) \/
  (absent st k /\ contents st' ≡ₚ (k, v) :: contents st).
Proof.
  intros Hwf H. apply (insert_mono st _ fuel (more st fuel)) in H;
    [|unfold more; lia].
  unfold insert in H. apply bind_Ok in H as ([F a] & Hrun & [= <-]).
  destruct (stored_dec st k Hwf) as [[v0 Hst]|Habs].
  - left. exists v0. split; [done|].
    destruct (insert_hashed_present st k v0 v (more st fuel) Hwf Hst)
      as (a' & b & Hrun' & _); [by apply more_lookup|].
    simpl in *. congruence.
  - right. split; [done|].
    destruct (insert_hashed_absent st (k, v) (more st fuel) Hwf Habs)
      as [Herr|(F' & a' & Hrun' & Hadd)]; [apply more_enough| |];
      simpl in *; [congruence|].
    assert (F = F') as -> by congruence. apply Hadd.
Qed.

Lemma index_contents st k fuel st' position :
  wf st -> index fuel st k = Ok (st', position) ->
  (exists v0, stored st k v0 /\ st' = st) \/
  (absent st k /\ contents st' ≡ₚ (k, default_value) :: contents st).
Proof.
  intros Hwf H. apply (index_mono st k fuel (more st fuel)) in H;
    [|unfold more; lia].
  destruct (stored_dec st k Hwf) as [[v0 Hst]|Habs].
  - left. exists v0. split; [done|].
    destruct (index_present st k v0 (more st fuel) Hwf Hst)
      as (a & b & Hrun & _); [by apply more_lookup|]. congruence.
  - right. split; [done|].
    destruct (index_absent st k (more st fuel) Hwf Habs)
      as [Herr|(F & a & Hrun & Hadd)]; [apply more_enough|congruence|].
    assert (st' = F) as -> by congruence. apply Hadd.
Qed.

Lemma erase_contents st k fuel st' :
  wf st -> erase fuel st k = Ok st' ->
  (absent st k /\ st' = st) \/
  (exists v0, contents st ≡ₚ (k, v0) :: contents st').
Proof.
  intros Hwf H. apply (erase_mono st k fuel (more st fuel)) in H;
    [|unfold more; lia].
  destruct (stored_dec st k Hwf) as [[v0 Hst]|Habs].
  - right. exists v0.
    destruct (erase_present st k v0 (more st fuel) Hwf Hst)
      as [Herr|(F & Hrun & HwfF & Hperm)]; [apply more_enough|congruence|].
    congruence.
  - left. split; [done|].
    rewrite (erase_absent st k (more st fuel)) in H;
      [congruence|done|done|by apply more_lookup].
Qed.

Lemma assign_stored st position v st' k0 v0 :
  wf st -> assign st position v = Ok st' -> stored st k0 v0 ->
  (forall b kv, bucket_at st position = Ok b -> value_ b = Some kv ->
                fst kv <> k0) ->
  stored st' k0 v0.
Proof.
  intros Hwf H (q & bq & Hq & Hlq & Hvq) Hother.
  destruct (assign_spec st position v st' Hwf H)
    as (b & k & v1 & Hb & Hl & Hv & -> & _).
  specialize (Hother b (k, v1) Hb Hv). simpl in Hother.
  exists q, bq. split_and!; [done| |done].
  rewrite store_lookup_ne; [done|lia|done|].
  intros Heq. rewrite Heq in Hl. congruence.
Qed.


(** ** Termination of the probe loop of [insert] *)

Lemma insert_loop_total fuel :
  forall st value hash distance position answer r,
    geometry st -> capacity_ st <> 0 ->
    (forall p b, 0 <= p -> st @ p = Some b -> bucket_empty b = false ->
                 value_ b <> None) ->
    0 <= position < capacity_ st -> 0 <= r ->
    (exists e, st @ ((position + r) mod capacity_ st) = Some e /\
               bucket_empty e = true) ->
    (Z.to_nat r < fuel)%nat ->
    exists res, insert_loop fuel st value hash distance position answer = Ok res.
Proof.
  induction fuel as [|fuel IH];
    intros st value hash distance position answer r Hg Hne Hlive Hp Hr Hdead
           Hfuel; [lia|].
  pose proof (geometry_cap_range st Hg Hne) as Hcr.
  destruct (lookup_total st position Hg Hp) as [b Hl].
  cbn [insert_loop]. rewrite (bucket_at_Some st position b Hl). cbn [bind].
  destruct (bucket_empty b) eqn:He; [by eexists|].
  assert (1 <= r) as Hr1.
  { destruct (Z.eq_dec r 0) as [->|]; [|lia]. exfalso.
    destruct Hdead as (e & Hle & Hee).
    rewrite Z.add_0_r, Z.mod_small in Hle by lia. congruence. }
  assert (forall st1, (forall q, 0 <= q -> q <> position -> st1 @ q = st @ q) ->
          exists e, st1 @ (((position + 1) mod capacity_ st + (r - 1))
                           mod capacity_ st) = Some e /\ bucket_empty e = true)
    as Hdead1.
  { intros st1 Hsame. destruct Hdead as (e & Hle & Hee). exists e.
    split; [|done]. rewrite Zplus_mod_idemp_l.
    replace (position + 1 + (r - 1)) with (position + r) by lia.
    rewrite Hsame; [done|apply Z.mod_pos_bound; lia|].
    destruct (Z.eq_dec r (capacity_ st)) as [->|Hrc].
    - exfalso. rewrite <- (Z.mul_1_l (capacity_ st)) in Hle at 1.
      rewrite Z.mod_add, Z.mod_small in Hle by lia. congruence.
    - destruct (Z_lt_le_dec r (capacity_ st)); [apply add_mod_ne; lia|].
      intros Heq. rewrite Heq in Hle. congruence. }
  assert (0 <= (position + 1) mod capacity_ st < capacity_ st) as Hp1
    by (apply Z.mod_pos_bound; lia).
  destruct (distance_ b <? distance).
  - unfold bucket_swap, bucket_get.
    destruct (value_ b) as [kv|] eqn:Hv;
      [|by destruct (Hlive position b (proj1 Hp) Hl He)].
    cbn [bind].
    set (nb := {| value_ := Some value; hash_ := hash; distance_ := distance |}).
    change (next_bucket (store_bucket st position nb) position)
      with (next_bucket st position).
    rewrite next_bucket_spec by done.
    apply (IH _ _ _ _ _ _ (r - 1)); try done; try lia.
    + by apply store_geometry.
    + intros q bq Hq Hlq Heq. destruct (Z.eq_dec q position) as [->|Hnq].
      * rewrite store_lookup_eq in Hlq by done. by injection Hlq as <-.
      * rewrite store_lookup_ne in Hlq by lia. by apply (Hlive q bq).
    + apply Hdead1. intros q Hq Hnq. apply store_lookup_ne; lia.
  - rewrite next_bucket_spec by done.
    apply (IH _ _ _ _ _ _ (r - 1)); try done; try lia. by apply Hdead1.
Qed.

(** ** Operations that keep a key and its value *)

Lemma keeps_step k st st' : keeps k st st' -> step st st'.
Proof.
  intros [? ? ? ? H|? ? ? ? ? H|? ? ? ? H _|? ? ? ? _ H].
  - by eapply step_insert.
  - by eapply step_index.
  - by eapply step_assign.
  - by eapply step_erase.
Qed.

Lemma stored_perm_cons st st' kv k v :
  contents st' ≡ₚ kv :: contents st -> stored st k v -> stored st' k v.
Proof.
  intros Hperm Hst. apply contents_stored. rewrite Hperm. right.
  by apply contents_stored.
Qed.

Lemma keeps_stored k v st st' :
  wf st -> keeps k st st' -> stored st k v -> stored st' k v.
Proof.
  intros Hwf Hk Hst.
  destruct Hk as [fuel st [k' v'] st' H|fuel st key st' position H
                 |st position v' st' H Hother|fuel st key st' Hne H].
  - destruct (insert_contents st k' v' fuel st' Hwf H) as [(v0 & _ & ->)|[_ Hp]];
      [done|by eapply stored_perm_cons].
  - destruct (index_contents st key fuel st' position Hwf H)
      as [(v0 & _ & ->)|[_ Hp]]; [done|by eapply stored_perm_cons].
  - by eapply assign_stored.
  - destruct (erase_contents st key fuel st' Hwf H) as [[_ ->]|(v0 & Hp)];
      [done|].
    apply contents_stored in Hst. rewrite Hp in Hst.
    apply elem_of_cons in Hst as [[= Hkk _]|Hst]; [by destruct Hne|].
    by apply contents_stored.
Qed.

Lemma keeps_rtc_stored k v st st' :
  wf st -> rtc (keeps k) st st' -> stored st k v -> wf st' /\ stored st' k v.
Proof.
  intros Hwf Hrtc. induction Hrtc as [st|st st1 st2 Hk _ IH]; [done|].
  intros Hst. apply IH.
  - apply (step_wf st); [done|by eapply keeps_step].
  - by eapply keeps_stored.
Qed.


(** Where the two passes stop. *)
Lemma erase_loop_exit f :
  forall st position to_swap F gap ts,
    erase_loop f st position to_swap = Ok (F, gap, ts) ->
    exists b, bucket_at F ts = Ok b /\ distance_ b = 0.
Proof.
  induction f as [|f IH]; intros st position to_swap F gap ts H; [done|].
  cbn [erase_loop] in H. apply bind_Ok in H as (b & Hb & H).
  destruct (distance_ b =? 0) eqn:Hz; cbn [negb] in H.
  - injection H as <- <- <-. exists b. split; [done|]. by apply Z.eqb_eq.
  - destruct (bucket_empty b); [by eapply IH|].
    apply bind_Ok in H as (value & _ & H). apply bind_Ok in H as (g & _ & H).
    apply bind_Ok in H as (b' & _ & H). by eapply IH.
Qed.

Lemma backward_shift_spec_exit f :
  forall st gap current F gap' ts,
    backward_shift_spec f st gap current = Ok (F, gap', ts) ->
    exists b, bucket_at F ts = Ok b /\
              (bucket_empty b = true \/ distance_ b = 0).
Proof.
  induction f as [|f IH]; intros st gap current F gap' ts H; [done|].
  cbn [backward_shift_spec] in H. apply bind_Ok in H as (b & Hb & H).
  destruct (bucket_empty b || (distance_ b =? 0)) eqn:Hstop.
  - injection H as <- <- <-. exists b. split; [done|].
    apply orb_true_iff in Hstop as [?|?%Z.eqb_eq]; [by left|by right].
  - apply bind_Ok in H as (value & _ & H). apply bind_Ok in H as (g & _ & H).
    apply bind_Ok in H as (b' & _ & H). by eapply IH.
Qed.

(** * The claims *)

(** C1 (as amended): for every key [k] that is absent from a reachable map
    and every value [v], after inserting the pair [(k, v)], [find(k)]
    returns an iterator to a stored pair with value [v] and [at(k)] returns
    [v], and this continues to hold after any further operations that
    neither erase [k] nor overwrite its value. *)
Theorem insert_find_round_trip st k v fuel st1 st2 fuel' :
  reachable st -> absent st k -> insert fuel st (k, v) = Ok st1 ->
  rtc (keeps k) st1 st2 ->
  (Z.to_nat (capacity_ st2) < fuel')%nat ->
  at_ fuel' st2 k = Ok v /\
  exists it, find fuel' st2 k = Ok it /\ deref st2 it = Ok (k, v).
Proof.
  intros Hreach Habs Hins Hrtc Hfuel.
  pose proof (reachable_wf st Hreach) as Hwf.
  assert (wf st1) as Hwf1 by (by eapply insert_wf).
  assert (stored st1 k v) as Hst1.
  { destruct (insert_contents st k v fuel st1 Hwf Hins)
      as [(v0 & Hst & _)|[_ Hperm]]; [by destruct (Habs v0)|].
    apply contents_stored. rewrite Hperm. by left. }
  destruct (keeps_rtc_stored k v st1 st2 Hwf1 Hrtc Hst1) as [Hwf2 Hst2].
  split; [by apply at_stored|by apply find_stored].
Qed.

(** C2 (as amended): during erase of a present key, the backward-shift loop
    leaves the table, and the gap, that the pass of the specification
    leaves, which stops at the first slot behind the freed slot that is
    empty or whose stored distance is 0, so no slot at or beyond that slot
    is moved.  The loop itself stops at a slot whose stored distance is 0:
    it scans on across empty slots. *)
Theorem erase_loop_refines_backward_shift st k v p b fuel :
  reachable st -> 0 <= p -> st @ p = Some b -> value_ b = Some (k, v) ->
  map_empty (erased_at st p b) = false ->
  (size_ (erased_at st p b) <? min_size_ (erased_at st p b)) = false ->
  enough st fuel ->
  exists F gap ts ts' bt bs,
    erase_loop fuel (erased_at st p b) p (next_bucket st p) = Ok (F, gap, ts) /\
    backward_shift_spec fuel (erased_at st p b) p (next_bucket st p)
      = Ok (F, gap, ts') /\
    erase fuel st k = Ok F /\
    bucket_at F ts = Ok bt /\ distance_ bt = 0 /\
    bucket_at F ts' = Ok bs /\ (bucket_empty bs = true \/ distance_ bs = 0).
Proof.
  intros Hreach Hp Hl Hv Hemp Hshrink Hfuel.
  pose proof (reachable_wf st Hreach) as Hwf.
  assert (size_ st <> 1) as Hsize.
  { intros Hone. unfold map_empty, erased_at in Hemp. simpl in Hemp.
    rewrite Hone in Hemp. done. }
  destruct (erased_shift st k v p b fuel Hwf Hp Hl Hv Hsize Hfuel)
    as (F & gap & ts & ts' & Hrun & Hspec & _).
  change (next_bucket (erased_at st p b) p) with (next_bucket st p) in *.
  destruct (erase_loop_exit _ _ _ _ _ _ _ Hrun) as (bt & Hbt & Hdt).
  destruct (backward_shift_spec_exit _ _ _ _ _ _ _ Hspec) as (bs & Hbs & Hds).
  exists F, gap, ts, ts', bt, bs. split_and!; try done.
  pose proof (wf_capacity_nonneg st Hwf). unfold enough in Hfuel.
  rewrite (erase_unfold st k v p b fuel) by (done || lia). cbv zeta.
  rewrite Hemp, Hshrink.
  change (next_bucket (erased_at st p b) p) with (next_bucket st p).
  by rewrite Hrun.
Qed.

(** C3 (as amended): for every reachable map containing exactly one key,
    erasing that key makes the map empty: the occupied count is 0 and every
    slot is empty, while the capacity, which is not 0, the mask, the
    thresholds and the bucket vector's length stay as they were. *)
Theorem erase_only_key_keeps_capacity st k v fuel :
  reachable st -> stored st k v -> size_ st = 1 ->
  (Z.to_nat (capacity_ st) < fuel)%nat ->
  exists F, erase fuel st k = Ok F /\ size_ F = 0 /\
    capacity_ F = capacity_ st /\ capacity_ F <> 0 /\
    mask_ F = mask_ st /\ max_size_ F = max_size_ st /\
    min_size_ F = min_size_ st /\
    length (buckets_ F) = length (buckets_ st) /\
    forall q e, F @ q = Some e -> bucket_empty e = true.
Proof.
  intros Hreach Hst Hone Hfuel. pose proof (reachable_wf st Hreach) as Hwf.
  destruct (erase_last st k v fuel Hwf Hst Hone Hfuel)
    as (F & Hrun & HwfF & Hsf & Hnil).
  pose proof (stored_capacity st k v (wf_geo st Hwf) Hst) as Hne.
  destruct Hsf. simpl in *. exists F. split_and!; try done; try congruence.
  - pose proof (geo_len st (wf_geo st Hwf)).
    pose proof (geo_len F (wf_geo F HwfF)). lia.
  - intros q e Hle.
    assert (F @ Z.of_nat (Z.to_nat q) = Some e) as Hle'
      by (by rewrite Nat2Z.id).
    apply (dead_empty F (Z.of_nat (Z.to_nat q))).
    + apply (wf_slots F HwfF); [lia|done].
    + by apply (contents_nil_dead F q).
Qed.

(** C4 (as amended): a default-constructed map has capacity 0; inserting
    one key into it yields capacity 2; inserting a second distinct key
    grows the table again, to capacity 4, because the grow threshold of a
    table of 2 buckets is clamped to its mask, 1. *)
Theorem second_insert_grows_to_four k1 v1 k2 v2 fuel :
  k1 <> k2 -> 4 <= max_buckets -> (74 <= fuel)%nat ->
  exists m0 m1 m2,
    new fuel 0 = Ok m0 /\ capacity_ m0 = 0 /\
    insert fuel m0 (k1, v1) = Ok m1 /\ capacity_ m1 = 2 /\
    max_size_ m1 = 1 /\
    insert fuel m1 (k2, v2) = Ok m2 /\ capacity_ m2 = 4.
Proof.
  intros Hk Halloc Hfuel.
  assert (new fuel 0 = Ok (Map 0 0 0 [] 0 0)) as Hnew.
  { unfold new, get_capacity. simpl.
    by replace (max_buckets <? 0) with false by (symmetry; apply Z.ltb_ge; lia). }
  set (m0 := Map 0 0 0 [] 0 0) in *.
  pose proof empty_table_wf as Hwf0. fold m0 in Hwf0.
  assert (absent m0 k1) as Habs0.
  { intros v Hst. apply contents_stored in Hst. by apply elem_of_nil in Hst. }
  destruct (insert_hashed_grow m0 (k1, v1) fuel Hwf0 Habs0 eq_refl)
    as (j & Hj & Hcap & _ & _ & Hfit); [unfold enough; simpl; lia|].
  assert (2 ^ j = 2) as Hj2.
  { assert (get_capacity fuel 1 = Ok 2) as H2
      by (apply (get_capacity_mono 1 1 fuel); [lia|reflexivity]).
    change (size_ m0 + 1) with 1 in Hcap. congruence. }
  destruct Hfit as (m1 & a1 & Hrun1 & (Hwf1 & Hperm1 & _) & Hc1); [lia|].
  rewrite Hj2 in Hc1. simpl in Hrun1.
  assert (mask_ m1 = 1) as Hmask1
    by (rewrite (geo_mask m1 (wf_geo m1 Hwf1)), Hc1; reflexivity).
  assert (max_size_ m1 = 1) as Hmax1.
  { rewrite <- (geo_sizes m1 (wf_geo m1 Hwf1)). simpl. rewrite Hmask1, Hc1.
    reflexivity. }
  assert (size_ m1 = 1) as Hsz1.
  { rewrite (wf_size m1 Hwf1), Hperm1. reflexivity. }
  assert (absent m1 k2) as Habs1.
  { intros v Hst. apply contents_stored in Hst. rewrite Hperm1 in Hst.
    apply elem_of_cons in Hst as [[= Hkk _]|Hst]; [by destruct Hk|].
    by apply elem_of_nil in Hst. }
  destruct (insert_hashed_grow m1 (k2, v2) fuel Hwf1 Habs1)
    as (j' & Hj' & Hcap' & _ & _ & Hfit'); [congruence| |].
  { unfold enough. rewrite Hc1. simpl. lia. }
  assert (2 ^ j' = 4) as Hj4.
  { assert (get_capacity fuel 2 = Ok 4) as H4
      by (apply (get_capacity_mono 2 2 fuel); [lia|reflexivity]).
    rewrite Hsz1 in Hcap'. change (1 + 1) with 2 in Hcap'. congruence. }
  destruct Hfit' as (m2 & a2 & Hrun2 & _ & Hc2); [lia|].
  rewrite Hj4 in Hc2. simpl in Hrun2.
  exists m0, m1, m2. unfold insert. simpl fst.
  rewrite Hrun1, Hrun2. by split_and!.
Qed.

(** C6: for every reachable map and key [k], [at(k)] signals NotFound, the
    exception [std::out_of_range], exactly when [k] is absent, the empty
    table included; when [k] is present it returns the stored value; it has
    no other outcome, in particular no undefined behaviour, no endless scan
    and no default value. *)
Theorem at_not_found_iff_absent st k fuel :
  reachable st -> (Z.to_nat (capacity_ st) < fuel)%nat ->
  (at_ fuel st k = Err OutOfRange <-> absent st k) /\
  (forall v, at_ fuel st k = Ok v <-> stored st k v) /\
  (map_empty st = true -> at_ fuel st k = Err OutOfRange) /\
  (at_ fuel st k = Err OutOfRange \/ exists v, at_ fuel st k = Ok v).
Proof.
  intros Hreach Hfuel. pose proof (reachable_wf st Hreach) as Hwf.
  destruct (stored_dec st k Hwf) as [[v0 Hst]|Habs].
  - pose proof (at_stored st k v0 fuel Hwf Hst Hfuel) as Hat.
    rewrite Hat. split_and!.
    + split; [done|]. intros Habs. by destruct (Habs v0).
    + intros v. split; [by intros [= <-]|].
      intros Hst'. f_equal. by apply (stored_functional st k).
    + intros Hemp. by destruct (empty_absent st k Hwf Hemp v0).
    + right. by exists v0.
  - pose proof (at_absent st k fuel Hwf Habs Hfuel) as Hat.
    rewrite Hat. split_and!; try done.
    + intros v. split; [done|]. intros Hst. by destruct (Habs v).
    + by left.
Qed.

(** C7: for every reachable map and every key [k] that is not present,
    [erase(k)] signals no error and returns the map as it was, so [size()]
    and every key-to-value mapping are unchanged. *)
Theorem erase_absent_is_noop st k fuel :
  reachable st -> absent st k -> (Z.to_nat (capacity_ st) < fuel)%nat ->
  erase fuel st k = Ok st.
Proof.
  intros Hreach Habs Hfuel. apply erase_absent; [|done|done].
  by apply reachable_wf.
Qed.

(** C8 (as amended): after every public operation (construction, insert,
    erase, indexed access, assignment, clear) the capacity is 0 or a power
    of two that is at least 2; the stored mask is capacity - 1 whenever the
    capacity is not 0, and it is 0 when the capacity is 0. *)
Theorem capacity_zero_or_power_of_two st :
  reachable st ->
  (capacity_ st = 0 /\ mask_ st = 0) \/
  (exists k, 1 <= k /\ capacity_ st = 2 ^ k /\
             mask_ st = capacity_ st - 1).
Proof.
  intros Hreach. pose proof (reachable_wf st Hreach) as Hwf.
  pose proof (wf_geo st Hwf) as Hg.
  destruct (Z.eq_dec (capacity_ st) 0) as [Hz|Hne].
  - left. split; [done|]. by rewrite (geo_mask st Hg), Hz.
  - right. destruct (geometry_pow2 st Hg Hne) as (k & Hk & Hc & _).
    pose proof (geometry_cap_range st Hg Hne).
    exists k. split_and!; [lia|done|]. rewrite (geo_mask st Hg). lia.
Qed.

(** C9: in every reachable map state, the stored probe distance of every
    occupied slot is less than the capacity and differs from the sentinel
    [UNOCCUPIED], and a slot holds no payload if and only if its distance
    field holds the sentinel. *)
Theorem occupied_distance_below_capacity st p b :
  reachable st -> 0 <= p -> st @ p = Some b ->
  (value_ b <> None ->
   0 <= distance_ b < capacity_ st /\ distance_ b <> UNOCCUPIED /\
   bucket_empty b = false) /\
  (value_ b = None <-> distance_ b = UNOCCUPIED) /\
  capacity_ st < UNOCCUPIED.
Proof.
  intros Hreach Hp Hl. pose proof (reachable_wf st Hreach) as Hwf.
  pose proof (wf_geo st Hwf) as Hg.
  pose proof (lookup_range st p b Hg Hp Hl) as Hpc.
  assert (capacity_ st <> 0) as Hne by lia.
  pose proof (geometry_cap_range st Hg Hne) as Hcr.
  pose proof (wf_slots st Hwf p b Hp Hl) as Hbo.
  assert (capacity_ st < UNOCCUPIED) as Hsent
    by (rewrite UNOCCUPIED_eq; unfold SIZE_MAX; lia).
  split_and!; try done.
  - intros Hv. destruct (value_ b) as [kv|] eqn:Hvb; [|done].
    destruct (occupied_facts st p b kv Hg Hne Hbo Hvb) as (Hd & He & _).
    split_and!; try done; lia.
  - split.
    + intros Hv. unfold bucket_ok in Hbo. by rewrite Hv in Hbo.
    + intros Hd. apply (empty_iff_dead st p b Hg Hne Hbo).
      unfold bucket_empty. by apply Z.eqb_eq.
Qed.

(** C10: in every reachable map state with non-zero capacity the occupied
    count is at most capacity - 1, the grow threshold being clamped to the
    mask, so at least one slot is empty, and the probe loops of [insert]
    and of [find_bucket] terminate for every key. *)
Theorem probe_loops_terminate st :
  reachable st -> capacity_ st <> 0 ->
  size_ st <= max_size_ st /\ max_size_ st <= mask_ st /\
  mask_ st = capacity_ st - 1 /\ size_ st <= capacity_ st - 1 /\
  (exists q e, 0 <= q < capacity_ st /\ st @ q = Some e /\
               bucket_empty e = true) /\
  forall fuel key value hash,
    (Z.to_nat (capacity_ st) < fuel)%nat ->
    (exists r, find_bucket fuel st key hash = Ok r) /\
    (exists res,
       insert_loop fuel st value hash 0 (get_ideal st hash) UNOCCUPIED
       = Ok res).
Proof.
  intros Hreach Hne. pose proof (reachable_wf st Hreach) as Hwf.
  pose proof (wf_geo st Hwf) as Hg.
  pose proof (geometry_cap_range st Hg Hne) as Hcr.
  pose proof (wf_size_lt_capacity st Hwf Hne) as Hlt.
  destruct (exists_dead st Hg) as (q & e & Hq & Hle & Hve);
    [rewrite <- (wf_size st Hwf); lia|].
  assert (bucket_empty e = true) as Hee.
  { apply (dead_empty st q); [|done]. apply (wf_slots st Hwf); [lia|done]. }
  split_and!.
  - apply (wf_load st Hwf).
  - by apply geometry_max_size.
  - rewrite (geo_mask st Hg). lia.
  - lia.
  - by exists q, e.
  - intros fuel key value hash Hfuel. split.
    + destruct (find_bucket_total st key hash fuel Hwf Hfuel) as (r & Hr & _).
      by exists r.
    + rewrite get_ideal_spec by done.
      assert (0 <= hash mod capacity_ st < capacity_ st) as Hp
        by (apply Z.mod_pos_bound; lia).
      apply (insert_loop_total fuel st value hash 0 _ UNOCCUPIED
               ((q - hash mod capacity_ st) mod capacity_ st));
        try done.
      * intros p b Hp' Hl He Hv.
        by rewrite (dead_empty st p b (wf_slots st Hwf p b Hp' Hl) Hv) in He.
      * apply Z.mod_pos_bound. lia.
      * exists e. split; [|done]. rewrite <- Hle. do 2 f_equal.
        rewrite Zplus_mod_idemp_r.
        replace (hash mod capacity_ st + (q - hash mod capacity_ st))
          with q by lia.
        apply Z.mod_small. lia.
      * pose proof (Z.mod_pos_bound (q - hash mod capacity_ st)
                      (capacity_ st)). lia.
Qed.


(** ** Linear layouts *)

Lemma lin_from_sorted L :
  forall o prev, lin_from o prev L ->
    (forall i', prev = Some i' -> i' <= o - 1) ->
    Forall (fun i => lower o prev <= i) (ideals L) /\ Sorted Z.le (ideals L).
Proof.
  induction L as [|[i|] L IH]; intros o prev Hlin Hprev.
  - split; constructor.
  - destruct Hlin as (Hio & Hpi & Hrest).
    destruct (IH (o + 1) (Some i) Hrest) as [Hall Hsorted].
    { intros i' [= <-]. lia. }
    assert (lower o prev <= i) as Hlow.
    { unfold lower. destruct prev as [i'|].
      - specialize (Hprev i' eq_refl).
        destruct (Z_lt_le_dec i o) as [Hlt|Hge]; [|lia].
        destruct (Hpi Hlt) as (i'' & [= <-] & Hle). done.
      - destruct (Z_lt_le_dec i o) as [Hlt|Hge]; [|lia].
        by destruct (Hpi Hlt) as (i'' & ? & _). }
    change (ideals (Some i :: L)) with (i :: ideals L). split.
    + constructor; [done|]. eapply Forall_impl; [exact Hall|].
      simpl. intros x Hx. lia.
    + constructor; [done|]. destruct (ideals L) as [|x l]; constructor.
      by apply Forall_cons in Hall as [Hx _].
  - change (ideals (None :: L)) with (ideals L).
    destruct (IH (o + 1) None Hlin) as [Hall Hsorted]; [done|].
    split; [|done]. eapply Forall_impl; [exact Hall|].
    simpl. intros x Hx. unfold lower. destruct prev as [i'|]; [|lia].
    specialize (Hprev i' eq_refl). lia.
Qed.

Lemma lin_from_unique A :
  forall B o prev, lin_from o prev A -> lin_from o prev B ->
    (forall i', prev = Some i' -> i' <= o - 1) ->
    length A = length B -> ideals A = ideals B -> A = B.
Proof.
  induction A as [|a A IH]; intros [|b B] o prev HA HB Hprev Hlen Hids;
    try done.
  assert (forall L i rest, lin_from (o + 1) None L -> ideals L = i :: rest ->
            o + 1 <= i) as Hfirst.
  { intros L i rest HL Hi.
    destruct (lin_from_sorted L (o + 1) None HL) as [Hall _]; [done|].
    rewrite Hi in Hall. by apply Forall_cons in Hall as [Hx _]. }
  destruct a as [i|], b as [i'|].
  - change (i :: ideals A = i' :: ideals B) in Hids. injection Hids as -> Hids.
    f_equal. destruct HA as (Hio & _ & HA), HB as (_ & _ & HB).
    apply (IH B (o + 1) (Some i')); try done; [|simpl in Hlen; lia].
    intros ? [= <-]. lia.
  - exfalso. change (i :: ideals A = ideals B) in Hids.
    destruct HA as (Hio & _). pose proof (Hfirst B i (ideals A) HB) as H.
    rewrite <- Hids in H. specialize (H eq_refl). lia.
  - exfalso. change (ideals A = i' :: ideals B) in Hids.
    destruct HB as (Hio & _). pose proof (Hfirst A i' (ideals B) HA Hids). lia.
  - f_equal. apply (IH B (o + 1) None); try done. simpl in Hlen; lia.
Qed.

Lemma lin_from_intro L :
  forall o prev,
    (forall y i, L !! y = Some (Some i) ->
       i <= o + Z.of_nat y /\
       (i < o + Z.of_nat y ->
        exists i', i' <= i /\
          ((y = 0%nat /\ prev = Some i') \/
           (exists y', y = S y' /\ L !! y' = Some (Some i'))))) ->
    lin_from o prev L.
Proof.
  induction L as [|a L IH]; intros o prev H; [done|].
  assert (forall p, a = p ->
            forall y j, L !! y = Some (Some j) ->
              j <= o + 1 + Z.of_nat y /\
              (j < o + 1 + Z.of_nat y ->
               exists j', j' <= j /\
                 ((y = 0%nat /\ p = Some j') \/
                  (exists y', y = S y' /\ L !! y' = Some (Some j')))))
    as Htail.
  { intros p Hp y j Hl. destruct (H (S y) j Hl) as [Hj Hpj].
    split; [lia|]. intros Hlt.
    destruct Hpj as (j' & Hle & [[Hy _]|(y' & Hy & Hl')]); [lia|done|].
    injection Hy as ->. exists j'. split; [done|].
    destruct y' as [|y''].
    - left. simpl in Hl'. split; [done|]. congruence.
    - right. by exists y''. }
  destruct a as [i|]; simpl.
  - destruct (H 0%nat i eq_refl) as [Hio Hprev].
    split; [lia|]. split.
    + intros Hlt. destruct Hprev as (i' & Hle & [[_ Hp]|(y' & Hy & _)]);
        [lia| |done]. by exists i'.
    + apply IH. by apply Htail.
  - apply IH. by apply Htail.
Qed.

(** ** A table read behind one of its slots *)

Lemma rotated_length st e : length (rotated st e) = length (buckets_ st).
Proof. apply length_rotate. Qed.

Lemma rotated_lookup st e y :
  geometry st -> 0 <= e ->
  (y < length (buckets_ st))%nat ->
  rotated st e !! y = st @ ((e + 1 + Z.of_nat y) mod capacity_ st).
Proof.
  intros Hg He Hy. unfold rotated. rewrite lookup_rotate_r by done.
  unfold rotate_nat_add. rewrite Z2Nat.id by lia.
  by rewrite (geo_len st Hg).
Qed.

Lemma rotated_contents st e : omap value_ (rotated st e) ≡ₚ contents st.
Proof.
  unfold rotated, rotate, contents. rewrite omap_app, Permutation_app_comm.
  by rewrite <- omap_app, take_drop.
Qed.

Lemma chain_stop st q b m :
  wf st -> 0 <= q -> st @ q = Some b -> value_ b <> None -> 1 <= m ->
  (exists e, st @ ((q - m) mod capacity_ st) = Some e /\ value_ e = None) ->
  distance_ b < m.
Proof.
  intros Hwf Hq Hl Hv Hm (e & Hle & Hve).
  destruct (Z_lt_le_dec (distance_ b) m) as [|Hge]; [done|]. exfalso.
  destruct (rh_chain st (wf_geo st Hwf) (wf_slots st Hwf) (wf_rh st Hwf)
              (Z.to_nat m) q b Hq Hl Hv) as (b' & Hl' & Hv' & _); [lia|].
  rewrite Z2Nat.id in Hl' by lia. congruence.
Qed.

(** The entry at linear position [y] behind [e]. *)
Lemma rotated_entry st e y b kv :
  wf st -> capacity_ st <> 0 -> 0 <= e < capacity_ st ->
  rotated st e !! y = Some b -> value_ b = Some kv ->
  0 <= distance_ b < capacity_ st /\ Z.of_nat y < capacity_ st /\
  st @ ((e + 1 + Z.of_nat y) mod capacity_ st) = Some b /\
  (distance_ b <= Z.of_nat y ->
   lin_ideal (capacity_ st) e kv = Z.of_nat y - distance_ b).
Proof.
  intros Hwf Hne He Hl Hv. pose proof (wf_geo st Hwf) as Hg.
  pose proof (geometry_cap_range st Hg Hne) as Hcr.
  assert (y < length (buckets_ st))%nat as Hy
    by (rewrite <- (rotated_length st e); by eapply lookup_lt_Some).
  pose proof (geo_len st Hg) as Hlen.
  rewrite rotated_lookup in Hl by (done || lia).
  set (q := (e + 1 + Z.of_nat y) mod capacity_ st) in *.
  assert (0 <= q < capacity_ st) as Hq by (apply Z.mod_pos_bound; lia).
  destruct (occupied_facts st q b kv Hg Hne (wf_slots st Hwf q b (proj1 Hq) Hl) Hv)
    as (Hd & _ & _ & Hde).
  split_and!; try done; try lia.
  intros Hdy. unfold lin_ideal.
  assert ((Z.of_nat y - distance_ b) mod capacity_ st
          = (hasher_ (fst kv) - (e + 1)) mod capacity_ st) as Heq.
  { rewrite Hde. unfold q. rewrite Zminus_mod_idemp_l, Zminus_mod_idemp_r.
    f_equal. lia. }
  rewrite <- Heq. apply Z.mod_small. lia.
Qed.

Lemma dead_base_distance st e y b :
  wf st -> capacity_ st <> 0 -> 0 <= e < capacity_ st ->
  (exists be, st @ e = Some be /\ value_ be = None) ->
  rotated st e !! y = Some b -> value_ b <> None ->
  distance_ b <= Z.of_nat y.
Proof.
  intros Hwf Hne He Hdead Hl Hv.
  destruct (value_ b) as [kv|] eqn:Hvb; [|done].
  destruct (rotated_entry st e y b kv Hwf Hne He Hl Hvb) as (_ & Hy & Hlq & _).
  pose proof (geometry_cap_range st (wf_geo st Hwf) Hne) as Hcr.
  assert (distance_ b < Z.of_nat y + 1); [|lia].
  apply (chain_stop st ((e + 1 + Z.of_nat y) mod capacity_ st) b);
    try done; try lia.
  - apply Z.mod_pos_bound. lia.
  - congruence.
  - rewrite Zminus_mod_idemp_l.
    replace (e + 1 + Z.of_nat y - (Z.of_nat y + 1)) with e by lia.
    by rewrite Z.mod_small by lia.
Qed.

Lemma lin_view_lookup st e y :
  lin_view st e !! y = lin_entry y <$> rotated st e !! y.
Proof. apply list_lookup_imap. Qed.

Lemma lin_view_Some st e y i :
  lin_view st e !! y = Some (Some i) ->
  exists b kv, rotated st e !! y = Some b /\ value_ b = Some kv /\
               i = Z.of_nat y - distance_ b.
Proof.
  rewrite lin_view_lookup. destruct (rotated st e !! y) as [b|]; [|done].
  simpl. unfold lin_entry. destruct (value_ b) as [kv|] eqn:Hv; [|done].
  intros [= <-]. by exists b, kv.
Qed.

(** Behind an empty slot the table is a linear layout. *)
Lemma lin_view_lin_from st e :
  wf st -> capacity_ st <> 0 -> 0 <= e < capacity_ st ->
  (exists be, st @ e = Some be /\ value_ be = None) ->
  lin_from 0 None (lin_view st e).
Proof.
  intros Hwf Hne He Hdead. pose proof (wf_geo st Hwf) as Hg.
  pose proof (geometry_cap_range st Hg Hne) as Hcr.
  apply lin_from_intro. intros y i Hl.
  apply lin_view_Some in Hl as (b & kv & Hl & Hv & ->).
  destruct (rotated_entry st e y b kv Hwf Hne He Hl Hv) as (Hd & Hy & Hlq & _).
  split; [lia|]. intros Hlt.
  set (q := (e + 1 + Z.of_nat y) mod capacity_ st) in *.
  assert (0 <= q < capacity_ st) as Hq by (apply Z.mod_pos_bound; lia).
  destruct (wf_rh st Hwf q b (proj1 Hq) Hlq) as (b' & Hl' & Hv' & Hd');
    [congruence|lia|].
  unfold q in Hl'. rewrite Zminus_mod_idemp_l in Hl'.
  destruct y as [|y'].
  - exfalso. destruct Hdead as (be & Hle & Hve).
    replace (e + 1 + Z.of_nat 0 - 1) with e in Hl' by lia.
    rewrite Z.mod_small in Hl' by lia. congruence.
  - replace (e + 1 + Z.of_nat (S y') - 1) with (e + 1 + Z.of_nat y') in Hl'
      by lia.
    assert (rotated st e !! y' = Some b') as Hr'.
    { rewrite rotated_lookup; [done|done|lia|].
      pose proof (geo_len st Hg). lia. }
    exists (Z.of_nat y' - distance_ b'). split; [lia|]. right. exists y'.
    split; [done|]. rewrite lin_view_lookup, Hr'. simpl. unfold lin_entry.
    by destruct (value_ b').
Qed.

Lemma omap_imap_fmap {A B C : Type} (f : nat -> A -> option B)
    (g : A -> option C) (h : C -> B) (l : list A) :
  (forall y a, l !! y = Some a -> f y a = h <$> g a) ->
  omap (fun x => x) (imap f l) = h <$> omap g l.
Proof.
  revert f. induction l as [|a l IH]; intros f Hf; [done|].
  rewrite imap_cons.
  pose proof (IH (f ∘ S) (fun y a' Hl => Hf (S y) a' Hl)) as IH'.
  simpl. rewrite (Hf 0%nat a eq_refl).
  destruct (g a); simpl; [f_equal|]; exact IH'.
Qed.

(** The ideal buckets of a linear view are those of the stored keys. *)
Lemma lin_view_ideals st e :
  wf st -> capacity_ st <> 0 -> 0 <= e < capacity_ st ->
  (exists be, st @ e = Some be /\ value_ be = None) ->
  ideals (lin_view st e)
  = lin_ideal (capacity_ st) e <$> omap value_ (rotated st e).
Proof.
  intros Hwf Hne He Hdead. unfold ideals, lin_view.
  apply omap_imap_fmap. intros y b Hl. unfold lin_entry.
  destruct (value_ b) as [kv|] eqn:Hv; [|done]. simpl. f_equal.
  destruct (rotated_entry st e y b kv Hwf Hne He Hl Hv) as (_ & _ & _ & Hid).
  symmetry. apply Hid. apply (dead_base_distance st e y b); try done.
  congruence.
Qed.

(** ** Counting entries by their ideal bucket *)

Lemma filter_omap_all {A C : Type} (g : A -> option C) (P : C -> Prop)
    `{forall x, Decision (P x)} (l : list A) :
  (forall a, a ∈ l -> exists c, g a = Some c /\ P c) ->
  length (filter P (omap g l)) = length l.
Proof.
  induction l as [|a l IH]; intros Hall; [done|].
  destruct (Hall a) as (c & Hc & HP); [by left|].
  assert (omap g (a :: l) = c :: omap g l) as -> by (simpl; by rewrite Hc).
  rewrite filter_cons_True by done. simpl. f_equal. apply IH.
  intros a' Ha'. apply Hall. by right.
Qed.

Lemma filter_omap_none {A C : Type} (g : A -> option C) (P : C -> Prop)
    `{forall x, Decision (P x)} (l : list A) :
  (forall a c, a ∈ l -> g a = Some c -> ~ P c) ->
  filter P (omap g l) = [].
Proof.
  induction l as [|a l IH]; intros Hall; [done|].
  assert (filter P (omap g l) = []) as IH'
    by (apply IH; intros a' c Ha'; apply Hall; by right).
  destruct (g a) as [c|] eqn:Hc.
  - assert (omap g (a :: l) = c :: omap g l) as -> by (simpl; by rewrite Hc).
    rewrite filter_cons_False; [done|]. apply (Hall a); [by left|done].
  - assert (omap g (a :: l) = omap g l) as -> by (simpl; by rewrite Hc).
    done.
Qed.

Lemma omap_length_lt_intro {A B : Type} (f : A -> option B) (l : list A) i x :
  l !! i = Some x -> f x = None -> (length (omap f l) < length l)%nat.
Proof.
  revert i. induction l as [|a l IH]; intros i Hl Hx; [done|].
  pose proof (omap_length_le f l) as Hle.
  destruct i as [|i]; simpl in Hl.
  - injection Hl as ->.
    assert (omap f (x :: l) = omap f l) as -> by (simpl; by rewrite Hx).
    simpl. lia.
  - specialize (IH i Hl Hx). destruct (f a) as [y|] eqn:Hfa.
    + assert (omap f (a :: l) = y :: omap f l) as -> by (simpl; by rewrite Hfa).
      simpl. lia.
    + assert (omap f (a :: l) = omap f l) as -> by (simpl; by rewrite Hfa).
      simpl. lia.
Qed.

(** Behind an empty slot [e], fewer than [capacity - s] keys have their
    ideal bucket at linear position [s] or later. *)
Lemma late_ideals_upper st e s :
  wf st -> capacity_ st <> 0 -> 0 <= e < capacity_ st ->
  (exists be, st @ e = Some be /\ value_ be = None) ->
  (s < length (buckets_ st))%nat ->
  (length (filter (fun kv => (Z.of_nat s <= lin_ideal (capacity_ st) e kv)%Z)
             (omap value_ (rotated st e)))
   < length (buckets_ st) - s)%nat.
Proof.
  intros Hwf Hne He Hdead Hs. pose proof (wf_geo st Hwf) as Hg.
  pose proof (geo_len st Hg) as Hlen.
  pose proof (geometry_cap_range st Hg Hne) as Hcr.
  set (R := rotated st e).
  set (P := fun kv => Z.of_nat s <= lin_ideal (capacity_ st) e kv).
  rewrite <- (take_drop s R), omap_app, filter_app, length_app.
  assert (filter P (omap value_ (take s R)) = []) as ->.
  { apply filter_omap_none. intros b kv Hb Hv HP.
    apply list_elem_of_lookup in Hb as (y & Hy).
    apply lookup_take_Some in Hy as [Hy Hys].
    destruct (rotated_entry st e y b kv Hwf Hne He Hy Hv) as (Hd & _ & _ & Hid).
    unfold P in HP. rewrite Hid in HP; [lia|].
    apply (dead_base_distance st e y b); try done. congruence. }
  simpl.
  pose proof (length_filter P (omap value_ (drop s R))) as Hf.
  assert (length (omap value_ (drop s R)) < length (drop s R))%nat as Hd.
  { destruct Hdead as (be & Hle & Hve).
    apply (omap_length_lt_intro value_ _ (length (buckets_ st) - 1 - s) be);
      [|done].
    rewrite lookup_drop.
    replace (s + (length (buckets_ st) - 1 - s))%nat
      with (length (buckets_ st) - 1)%nat by lia.
    unfold R. rewrite rotated_lookup by (done || lia).
    rewrite <- Hle. do 2 f_equal.
    replace (e + 1 + Z.of_nat (length (buckets_ st) - 1))
      with (e + 1 * capacity_ st) by lia.
    rewrite Z.mod_add by lia. apply Z.mod_small. lia. }
  rewrite length_drop in Hd. unfold R in *. rewrite rotated_length in Hd. lia.
Qed.

(** When the slots at the linear positions [s .. capacity - 1] behind [e]
    are occupied and the one before them is empty, their keys have their
    ideal buckets at [s] or later. *)
Lemma late_ideals_lower st e s :
  wf st -> capacity_ st <> 0 -> 0 <= e < capacity_ st ->
  (1 <= s < length (buckets_ st))%nat ->
  (exists bd, rotated st e !! (s - 1)%nat = Some bd /\ value_ bd = None) ->
  (forall y b, (s <= y)%nat -> rotated st e !! y = Some b -> value_ b <> None) ->
  (length (buckets_ st) - s
   <= length (filter (fun kv => (Z.of_nat s <= lin_ideal (capacity_ st) e kv)%Z)
                (omap value_ (rotated st e))))%nat.
Proof.
  intros Hwf Hne He Hs (bd & Hld & Hvd) Hocc. pose proof (wf_geo st Hwf) as Hg.
  pose proof (geo_len st Hg) as Hlen.
  pose proof (geometry_cap_range st Hg Hne) as Hcr.
  set (R := rotated st e) in *.
  set (P := fun kv => Z.of_nat s <= lin_ideal (capacity_ st) e kv).
  rewrite <- (take_drop s R), omap_app, filter_app, length_app.
  assert (length (filter P (omap value_ (drop s R))) = length (drop s R)) as ->.
  { apply filter_omap_all. intros b Hb.
    apply list_elem_of_lookup in Hb as (y' & Hy'). rewrite lookup_drop in Hy'.
    destruct (value_ b) as [kv|] eqn:Hv;
      [|by destruct (Hocc (s + y')%nat b ltac:(lia) Hy')].
    exists kv. split; [done|].
    destruct (rotated_entry st e (s + y') b kv Hwf Hne He Hy' Hv)
      as (Hd & Hy & Hlq & Hid).
    assert (distance_ b < Z.of_nat (s + y') - Z.of_nat s + 1) as Hlt.
    { apply (chain_stop st ((e + 1 + Z.of_nat (s + y')) mod capacity_ st) b);
        try done; try lia.
      - apply Z.mod_pos_bound. lia.
      - congruence.
      - exists bd. split; [|done]. rewrite <- Hld. unfold R.
        rewrite rotated_lookup by (done || lia). do 2 f_equal.
        rewrite Zminus_mod_idemp_l. f_equal. lia. }
    unfold P. rewrite Hid by lia. lia. }
  rewrite length_drop. unfold R. rewrite rotated_length. lia.
Qed.

(** The run of occupied positions that ends at position [n]. *)
Lemma cluster_start (R : list HashBucket) (n : nat) :
  (n < length R)%nat ->
  (forall y b, (y <= n)%nat -> R !! y = Some b -> value_ b <> None) \/
  (exists s, (1 <= s <= S n)%nat /\
     (exists bd, R !! (s - 1)%nat = Some bd /\ value_ bd = None) /\
     forall y b, (s <= y <= n)%nat -> R !! y = Some b -> value_ b <> None).
Proof.
  induction n as [|n IH]; intros Hn.
  - destruct (lookup_lt_is_Some_2 R 0%nat Hn) as [b0 Hb0].
    destruct (value_ b0) as [kv|] eqn:Hv.
    + left. intros y b Hy Hl. assert (y = 0%nat) as -> by lia. congruence.
    + right. exists 1%nat. split; [lia|]. split; [by exists b0|].
      intros y b Hy. lia.
  - destruct (lookup_lt_is_Some_2 R (S n) Hn) as [bn Hbn].
    destruct (value_ bn) as [kv|] eqn:Hv.
    + destruct IH as [Hall|(s & Hs & Hdead & Hrun)]; [lia| |].
      * left. intros y b Hy Hl. destruct (decide (y = S n)) as [->|Hne].
        -- congruence.
        -- apply (Hall y b); [lia|done].
      * right. exists s. split; [lia|]. split; [done|].
        intros y b Hy Hl. destruct (decide (y = S n)) as [->|Hne].
        -- congruence.
        -- apply (Hrun y b); [lia|done].
    + right. exists (S (S n)). split; [lia|]. split.
      * exists bn. split; [|done]. rewrite <- Hbn. f_equal; lia.
      * intros y b Hy. lia.
Qed.

(** An empty slot of a table is empty in every table of the same capacity
    that stores the same pairs. *)
Lemma dead_slot_shared A B e :
  wf A -> wf B -> capacity_ A = capacity_ B -> contents A ≡ₚ contents B ->
  0 <= e -> (exists be, A @ e = Some be /\ value_ be = None) ->
  exists be, B @ e = Some be /\ value_ be = None.
Proof.
  intros HwfA HwfB Hcap Hperm He0 HdeadA.
  pose proof (wf_geo A HwfA) as HgA. pose proof (wf_geo B HwfB) as HgB.
  destruct HdeadA as (ba & Hla & Hva).
  pose proof (lookup_range A e ba HgA He0 Hla) as Hec.
  assert (capacity_ A <> 0) as HneA by lia.
  assert (capacity_ B <> 0) as HneB by lia.
  pose proof (geometry_cap_range A HgA HneA) as Hcr.
  pose proof (geo_len A HgA) as HlenA. pose proof (geo_len B HgB) as HlenB.
  destruct (lookup_total B e HgB) as [be Hlb]; [lia|].
  exists be. split; [done|].
  destruct (value_ be) as [kv|] eqn:Hvb; [|done]. exfalso.
  set (n := (length (buckets_ B) - 1)%nat).
  assert (rotated B e !! n = Some be) as Hrn.
  { rewrite rotated_lookup by (done || lia). rewrite <- Hlb. do 2 f_equal.
    replace (e + 1 + Z.of_nat n) with (e + 1 * capacity_ B) by lia.
    rewrite Z.mod_add by lia. apply Z.mod_small. lia. }
  destruct (cluster_start (rotated B e) n) as [Hall|(s & Hs & Hdead & Hrun)].
  { rewrite rotated_length. lia. }
  - (* every slot of [B] would be occupied *)
    destruct (exists_dead B HgB) as (q & bq & Hq & Hlq & Hvq).
    { rewrite <- (wf_size B HwfB). by apply wf_size_lt_capacity. }
    set (y := Z.to_nat ((q - (e + 1)) mod capacity_ B)).
    pose proof (Z.mod_pos_bound (q - (e + 1)) (capacity_ B)) as Hy.
    apply (Hall y bq); [lia| |done].
    rewrite rotated_lookup by (done || lia). rewrite <- Hlq. do 2 f_equal.
    unfold y. rewrite Z2Nat.id by lia. rewrite Zplus_mod_idemp_r.
    replace (e + 1 + (q - (e + 1))) with q by lia. apply Z.mod_small. lia.
  - assert (s <= n)%nat as Hsn.
    { destruct (decide (s = S n)) as [->|]; [|lia].
      destruct Hdead as (bd & Hld & Hvd).
      replace (S n - 1)%nat with n in Hld by lia. congruence. }
    pose proof (late_ideals_upper A e s HwfA HneA) as Hup.
    pose proof (late_ideals_lower B e s HwfB HneB) as Hlow.
    assert (length (filter (fun kv => Z.of_nat s <= lin_ideal (capacity_ A) e kv)
                      (omap value_ (rotated A e)))
            = length (filter (fun kv => Z.of_nat s <= lin_ideal (capacity_ B) e kv)
                        (omap value_ (rotated B e)))) as Heq.
    { rewrite Hcap. apply Permutation_length.
      by rewrite !rotated_contents, Hperm. }
    assert (length (buckets_ A) = length (buckets_ B)) as Hlen by lia.
    specialize (Hup ltac:(lia) ltac:(by exists ba) ltac:(lia)).
    specialize (Hlow ltac:(lia) ltac:(lia) Hdead).
    assert (length (buckets_ B) - s
            <= length (filter (fun kv => (Z.of_nat s <= lin_ideal (capacity_ B) e kv)%Z)
                         (omap value_ (rotated B e))))%nat as Hlow'.
    { apply Hlow. intros y b Hy Hl. apply (Hrun y b); [|done].
      apply lookup_lt_Some in Hl. rewrite rotated_length in Hl. lia. }
    lia.
Qed.

(** Two tables of the same capacity that store the same pairs have the
    same occupancy and the same distance in every slot. *)
Lemma canonical_distances A B :
  wf A -> wf B -> capacity_ A = capacity_ B -> contents A ≡ₚ contents B ->
  forall q bA bB, 0 <= q -> A @ q = Some bA -> B @ q = Some bB ->
    distance_ bA = distance_ bB /\ (value_ bA = None <-> value_ bB = None).
Proof.
  intros HwfA HwfB Hcap Hperm q bA bB Hq HlA HlB.
  pose proof (wf_geo A HwfA) as HgA. pose proof (wf_geo B HwfB) as HgB.
  pose proof (lookup_range A q bA HgA Hq HlA) as Hqc.
  assert (capacity_ A <> 0) as HneA by lia.
  assert (capacity_ B <> 0) as HneB by lia.
  pose proof (geometry_cap_range A HgA HneA) as Hcr.
  pose proof (geo_len A HgA) as HlenA. pose proof (geo_len B HgB) as HlenB.
  destruct (exists_dead A HgA) as (e & be & He & Hle & Hve).
  { rewrite <- (wf_size A HwfA). by apply wf_size_lt_capacity. }
  assert (exists be, A @ e = Some be /\ value_ be = None) as HdeadA
    by (by exists be).
  pose proof (dead_slot_shared A B e HwfA HwfB Hcap Hperm (proj1 He) HdeadA)
    as HdeadB.
  assert (lin_view A e = lin_view B e) as Hview.
  { pose proof (lin_view_lin_from A e HwfA HneA He HdeadA) as HlinA.
    pose proof (lin_view_lin_from B e HwfB HneB ltac:(lia) HdeadB) as HlinB.
    apply (lin_from_unique _ _ 0 None); try done.
    - unfold lin_view. rewrite !length_imap, !rotated_length. lia.
    - destruct (lin_from_sorted _ 0 None HlinA) as [_ HsA]; [done|].
      destruct (lin_from_sorted _ 0 None HlinB) as [_ HsB]; [done|].
      apply (Sorted_unique Z.le); try done.
      rewrite (lin_view_ideals A e), (lin_view_ideals B e)
        by (done || lia).
      by rewrite !rotated_contents, Hperm, Hcap. }
  set (y := Z.to_nat ((q - (e + 1)) mod capacity_ A)).
  pose proof (Z.mod_pos_bound (q - (e + 1)) (capacity_ A)) as Hy.
  assert ((e + 1 + Z.of_nat y) mod capacity_ A = q) as Hyq.
  { unfold y. rewrite Z2Nat.id by lia. rewrite Zplus_mod_idemp_r.
    replace (e + 1 + (q - (e + 1))) with q by lia. apply Z.mod_small. lia. }
  assert (lin_entry y bA = lin_entry y bB) as Hentry.
  { assert (lin_view A e !! y = lin_view B e !! y) as Hl by (by rewrite Hview).
    rewrite !lin_view_lookup in Hl.
    rewrite !rotated_lookup in Hl by (done || lia).
    rewrite <- Hcap, Hyq, HlA, HlB in Hl. simpl in Hl. congruence. }
  pose proof (wf_slots A HwfA q bA Hq HlA) as HokA.
  pose proof (wf_slots B HwfB q bB Hq HlB) as HokB.
  unfold lin_entry, bucket_ok in *.
  destruct (value_ bA) as [kvA|], (value_ bB) as [kvB|]; try done.
  - split; [|done]. injection Hentry as Hentry. lia.
  - split; [congruence|done].
Qed.

Lemma absent_keys st k : k ∉ (contents st).*1 -> absent st k.
Proof.
  intros Hnot v Hst. apply Hnot. apply list_elem_of_fmap. exists (k, v).
  split; [done|]. by apply contents_stored.
Qed.

(** ** Insertion of a sequence of pairs *)

Lemma insert_all_mono l :
  forall st f f' r, (f <= f')%nat ->
    insert_all f st l = Ok r -> insert_all f' st l = Ok r.
Proof.
  induction l as [|kv l IH]; intros st f f' r Hle; [done|].
  cbn [insert_all]. apply bind_mono; [intros a; by apply insert_mono|].
  intros a _. by apply IH.
Qed.

(** The capacity fixes the mask and the two thresholds. *)
Lemma geometry_thresholds A B :
  geometry A -> geometry B -> capacity_ A = capacity_ B ->
  mask_ A = mask_ B /\ max_size_ A = max_size_ B /\ min_size_ A = min_size_ B.
Proof.
  intros HgA HgB Hc.
  assert (mask_ A = mask_ B) as Hm
    by (rewrite (geo_mask A HgA), (geo_mask B HgB); by rewrite Hc).
  split; [done|].
  rewrite <- (geo_sizes A HgA), <- (geo_sizes B HgB). simpl.
  by rewrite Hm, Hc.
Qed.

(** Two tables of the same capacity and size take a new key each in the
    same way: both keep their capacity or both grow to the same one. *)
Lemma insert_absent_sim A B kv1 kv2 f1 A1 :
  wf A -> wf B -> capacity_ A = capacity_ B -> size_ A = size_ B ->
  absent A (fst kv1) -> absent B (fst kv2) ->
  insert f1 A kv1 = Ok A1 ->
  exists B1, insert (more B 0) B kv2 = Ok B1 /\
    capacity_ B1 = capacity_ A1 /\ wf A1 /\ wf B1 /\
    contents A1 ≡ₚ kv1 :: contents A /\ contents B1 ≡ₚ kv2 :: contents B.
Proof.
  intros HwfA HwfB Hcap Hsize HabsA HabsB Hrun.
  destruct (geometry_thresholds A B (wf_geo A HwfA) (wf_geo B HwfB) Hcap)
    as (_ & Hmax & _).
  apply (insert_mono A kv1 f1 (more A f1)) in Hrun; [|unfold more; lia].
  unfold insert in Hrun. apply bind_Ok in Hrun as ([FA a] & Hrun & [= <-]).
  assert (enough A (more A f1)) as HfA by (unfold enough, more; lia).
  pose proof (more_enough B 0%nat) as HfB.
  destruct (Z.eq_dec (size_ A) (max_size_ A)) as [Hfull|Hroom].
  - destruct (insert_hashed_grow A kv1 _ HwfA HabsA Hfull HfA)
      as (k & Hk & HgcA & _ & HbigA & HfitA).
    destruct (insert_hashed_grow B kv2 _ HwfB HabsB ltac:(lia) HfB)
      as (k' & Hk' & HgcB & _ & _ & HfitB).
    assert (2 ^ k' = 2 ^ k) as Hkk.
    { apply (get_capacity_mono _ _ (more A f1 + more B 0)) in HgcA; [|lia].
      apply (get_capacity_mono _ _ (more A f1 + more B 0)) in HgcB; [|lia].
      rewrite Hsize in HgcA. congruence. }
    destruct (Z.lt_ge_cases max_buckets (2 ^ k)) as [Hlt|Hge];
      [rewrite (HbigA Hlt) in Hrun; done|].
    destruct (HfitA Hge) as (F & a' & HrunA & (HwfF & HpF & _) & HcF).
    destruct (HfitB ltac:(lia)) as (G & a'' & HrunB & (HwfG & HpG & _) & HcG).
    assert (F = FA) as -> by congruence.
    exists G. unfold insert. rewrite HrunB. simpl.
    split_and!; try done. lia.
  - pose proof (wf_load A HwfA) as Hload.
    destruct (insert_hashed_room A kv1 (more A f1) HwfA HabsA)
      as (F & a' & HrunA & (HwfF & HpF & _) & HsfA);
      [lia|by apply more_lookup|].
    destruct (insert_hashed_room B kv2 (more B 0) HwfB HabsB)
      as (G & a'' & HrunB & (HwfG & HpG & _) & HsfB);
      [lia|by apply more_lookup|].
    assert (F = FA) as -> by congruence.
    exists G. unfold insert. rewrite HrunB. simpl.
    pose proof (sf_capacity _ _ HsfA) as HcA.
    pose proof (sf_capacity _ _ HsfB) as HcB. simpl in HcA, HcB.
    split_and!; try done. lia.
Qed.

Lemma wf_size_perm A B :
  wf A -> wf B -> length (contents A) = length (contents B) ->
  size_ A = size_ B.
Proof. intros HA HB Hl. rewrite (wf_size A HA), (wf_size B HB). lia. Qed.

(** Inserting as many new keys into two tables of the same capacity and
    size: when the first run returns, so does the second one, with a table
    of the same capacity. *)
Lemma insert_all_sim l1 :
  forall l2 A B f1 FA,
    length l1 = length l2 -> wf A -> wf B ->
    capacity_ A = capacity_ B ->
    length (contents A) = length (contents B) ->
    NoDup (l1.*1 ++ (contents A).*1) -> NoDup (l2.*1 ++ (contents B).*1) ->
    insert_all f1 A l1 = Ok FA ->
    exists f2 FB,
      insert_all f2 B l2 = Ok FB /\ capacity_ FB = capacity_ FA /\
      wf FA /\ wf FB /\
      contents FA ≡ₚ l1 ++ contents A /\ contents FB ≡ₚ l2 ++ contents B.
Proof.
  induction l1 as [|kv1 l1 IH];
    intros [|kv2 l2] A B f1 FA Hlen HwfA HwfB Hcap Hsize HndA HndB Hrun;
    try done.
  - injection Hrun as <-. by exists 0%nat, B.
  - cbn [insert_all] in Hrun. apply bind_Ok in Hrun as (A1 & Hins & Hrest).
    rewrite fmap_cons in HndA, HndB. simpl in HndA, HndB.
    apply list.NoDup_cons in HndA as [HinA HndA].
    apply list.NoDup_cons in HndB as [HinB HndB].
    assert (absent A (fst kv1)) as HabsA
      by (apply absent_keys; intros Hin; apply HinA, elem_of_app; by right).
    assert (absent B (fst kv2)) as HabsB
      by (apply absent_keys; intros Hin; apply HinB, elem_of_app; by right).
    destruct (insert_absent_sim A B kv1 kv2 f1 A1 HwfA HwfB Hcap
                (wf_size_perm A B HwfA HwfB Hsize) HabsA HabsB Hins)
      as (B1 & HinsB & Hcap1 & HwfA1 & HwfB1 & HpA1 & HpB1).
    destruct (IH l2 A1 B1 f1 FA) as (f2 & FB & HrunB & HcapF & HwfFA & HwfFB
                                      & HpFA & HpFB); try done.
    + simpl in Hlen. lia.
    + rewrite HpA1, HpB1. simpl. lia.
    + rewrite HpA1, fmap_cons, <- Permutation_middle.
      apply list.NoDup_cons. by split.
    + rewrite HpB1, fmap_cons, <- Permutation_middle.
      apply list.NoDup_cons. by split.
    + exists (f2 `max` more B 0)%nat, FB. split_and!; try done.
      * cbn [insert_all].
        rewrite (insert_mono B kv2 (more B 0) (f2 `max` more B 0) B1)
          by (done || lia).
        simpl. apply (insert_all_mono l2 B1 f2); [lia|done].
      * by rewrite HpFA, HpA1, <- Permutation_middle.
      * by rewrite HpFB, HpB1, <- Permutation_middle.
Qed.

(** Equal distances in the same slot mean equal ideal buckets. *)
Lemma same_distance_same_ideal c q h1 h2 :
  0 < c -> (q - h1) mod c = (q - h2) mod c -> h1 mod c = h2 mod c.
Proof.
  intros Hc Heq.
  assert (forall h, h mod c = (q - (q - h) mod c) mod c) as E.
  { intros h. rewrite Zminus_mod_idemp_r. f_equal. lia. }
  by rewrite (E h1), (E h2), Heq.
Qed.

(** ** Independence of the insertion order *)

(** C5 (as amended): when the pairs of a list with distinct keys are
    inserted into an empty table and the run returns, inserting them in any
    other order into an empty table of the same capacity returns too, given
    enough fuel; the two final tables have the same capacity and store the
    same pairs; every slot is occupied in both or in neither, with the same
    distance and with keys of the same ideal bucket; and when no two of the
    keys share an ideal bucket in the final table, the two bucket layouts
    are identical: the same pair, hash and distance in every slot. *)
Theorem insertion_order_fixes_layout_up_to_ties st1 st2 l1 l2 fuel F1 :
  reachable st1 -> reachable st2 ->
  contents st1 = [] -> contents st2 = [] ->
  capacity_ st1 = capacity_ st2 ->
  NoDup (l1.*1) -> l1 ≡ₚ l2 ->
  insert_all fuel st1 l1 = Ok F1 ->
  exists fuel2 F2,
    (forall f, (fuel2 <= f)%nat -> insert_all f st2 l2 = Ok F2) /\
    capacity_ F2 = capacity_ F1 /\
    contents F1 ≡ₚ l1 /\ contents F2 ≡ₚ l1 /\
    (forall q b1 b2, 0 <= q -> F1 @ q = Some b1 -> F2 @ q = Some b2 ->
       distance_ b1 = distance_ b2 /\
       (value_ b1 = None <-> value_ b2 = None) /\
       forall kv1 kv2, value_ b1 = Some kv1 -> value_ b2 = Some kv2 ->
         get_ideal F1 (hasher_ (fst kv1)) = get_ideal F2 (hasher_ (fst kv2))) /\
    ((forall kv kv', kv ∈ l1 -> kv' ∈ l1 ->
        get_ideal F1 (hasher_ (fst kv)) = get_ideal F1 (hasher_ (fst kv')) ->
        kv = kv') ->
     layout F1 = layout F2).
Proof.
  intros Hr1 Hr2 He1 He2 Hcap Hnd Hperm Hrun.
  pose proof (reachable_wf st1 Hr1) as Hwf1.
  pose proof (reachable_wf st2 Hr2) as Hwf2.
  destruct (insert_all_sim l1 l2 st1 st2 fuel F1)
    as (f2 & F2 & Hrun2 & HcapF & HwfF1 & HwfF2 & Hp1 & Hp2); try done.
  - by apply Permutation_length.
  - by rewrite He1, He2.
  - by rewrite He1, app_nil_r.
  - by rewrite He2, app_nil_r, <- Hperm.
  - rewrite He1, app_nil_r in Hp1. rewrite He2, app_nil_r, <- Hperm in Hp2.
    pose proof (wf_geo F1 HwfF1) as Hg1. pose proof (wf_geo F2 HwfF2) as Hg2.
    assert (contents F1 ≡ₚ contents F2) as HpF by (by rewrite Hp1, Hp2).
    pose proof (canonical_distances F1 F2 HwfF1 HwfF2 (eq_sym HcapF) HpF)
      as Hcanon.
    assert (forall q b1 b2 kv1 kv2, 0 <= q ->
              F1 @ q = Some b1 -> F2 @ q = Some b2 ->
              value_ b1 = Some kv1 -> value_ b2 = Some kv2 ->
              get_ideal F1 (hasher_ (fst kv1))
              = get_ideal F2 (hasher_ (fst kv2))) as Hideal.
    { intros q b1 b2 kv1 kv2 Hq Hl1 Hl2 Hv1 Hv2.
      pose proof (lookup_range F1 q b1 Hg1 Hq Hl1) as Hqc.
      assert (capacity_ F1 <> 0) as Hne1 by lia.
      assert (capacity_ F2 <> 0) as Hne2 by lia.
      destruct (Hcanon q b1 b2 Hq Hl1 Hl2) as [Hd _].
      destruct (occupied_facts F1 q b1 kv1 Hg1 Hne1
                  (wf_slots F1 HwfF1 q b1 Hq Hl1) Hv1) as (_ & _ & _ & Hd1).
      destruct (occupied_facts F2 q b2 kv2 Hg2 Hne2
                  (wf_slots F2 HwfF2 q b2 Hq Hl2) Hv2) as (_ & _ & _ & Hd2).
      rewrite !get_ideal_spec by done. rewrite HcapF.
      apply (same_distance_same_ideal _ q); [lia|]. rewrite <- Hd1, Hd.
      by rewrite Hd2, HcapF. }
    exists f2, F2. split_and!; try done.
    + intros f Hf. by apply (insert_all_mono l2 st2 f2).
    + intros q b1 b2 Hq Hl1 Hl2.
      destruct (Hcanon q b1 b2 Hq Hl1 Hl2) as [Hd Hv].
      split_and!; try done. intros kv1 kv2. by apply (Hideal q b1 b2).
    + intros Hinj. unfold layout. apply list_eq. intros i.
      rewrite !list_lookup_fmap.
      pose proof (geo_len F1 Hg1) as Hlen1. pose proof (geo_len F2 Hg2) as Hlen2.
      destruct (buckets_ F1 !! i) as [b1|] eqn:Hl1.
      * pose proof (lookup_lt_Some _ _ _ Hl1) as Hi.
        destruct (lookup_lt_is_Some_2 (buckets_ F2) i ltac:(lia)) as [b2 Hl2].
        rewrite Hl2. simpl. f_equal.
        assert (F1 @ Z.of_nat i = Some b1) as Hq1 by (by rewrite Nat2Z.id).
        assert (F2 @ Z.of_nat i = Some b2) as Hq2 by (by rewrite Nat2Z.id).
        assert (0 <= Z.of_nat i) as Hq0 by lia.
        destruct (Hcanon _ b1 b2 Hq0 Hq1 Hq2) as [Hd Hv].
        pose proof (wf_slots F1 HwfF1 _ b1 Hq0 Hq1) as Hok1.
        pose proof (wf_slots F2 HwfF2 _ b2 Hq0 Hq2) as Hok2.
        pose proof (Hideal (Z.of_nat i) b1 b2) as Hid.
        unfold slot_view, bucket_ok in *.
        destruct (value_ b1) as [kv1|] eqn:Hv1,
                 (value_ b2) as [kv2|] eqn:Hv2; try done.
        -- assert (kv1 = kv2) as <-.
           { apply Hinj.
             - rewrite <- Hp1. unfold contents. apply list_elem_of_omap.
               exists b1. split; [by eapply list_elem_of_lookup_2|done].
             - rewrite <- Hp2. unfold contents. apply list_elem_of_omap.
               exists b2. split; [by eapply list_elem_of_lookup_2|done].
             - rewrite (Hid kv1 kv2) by (done || lia).
               unfold get_ideal.
               by destruct (geometry_thresholds F1 F2 Hg1 Hg2 (eq_sym HcapF))
                 as (-> & _). }
           destruct Hok1 as [-> _], Hok2 as [-> _]. by rewrite Hd.
        -- destruct Hv as [_ Hv]. by specialize (Hv eq_refl).
        -- destruct Hv as [Hv _]. by specialize (Hv eq_refl).
      * apply lookup_ge_None in Hl1.
        rewrite (proj2 (lookup_ge_None (buckets_ F2) i)) by lia. done.
Qed.

(** * Iteration *)

(** In a well-formed table a bucket reports empty exactly when it holds no
    pair. *)
Lemma wf_empty_dead st i b :
  wf st -> buckets_ st !! i = Some b ->
  bucket_empty b = true <-> value_ b = None.
Proof.
  intros Hwf Hl. pose proof (wf_geo st Hwf) as Hg.
  assert (st @ Z.of_nat i = Some b) as Hq by (by rewrite Nat2Z.id).
  pose proof (lookup_range st _ b Hg (Zle_0_nat i) Hq) as Hr.
  apply (empty_iff_dead st (Z.of_nat i)); [done|lia|].
  apply (wf_slots st Hwf); [lia|done].
Qed.

Lemma bucket_at_nat st i b :
  buckets_ st !! i = Some b -> bucket_at st (Z.of_nat i) = Ok b.
Proof. intros Hl. unfold bucket_at. by rewrite Nat2Z.id, Hl. Qed.

(** [advance] moves to the next occupied bucket, or to the end. *)
Lemma advance_loop_spec st fuel :
  wf st ->
  forall i, (i < length (buckets_ st))%nat ->
    (length (buckets_ st) - i <= fuel)%nat ->
    exists j, (i < j <= length (buckets_ st))%nat /\
      advance_loop fuel st (Z.of_nat i) (Z.of_nat (length (buckets_ st)))
      = Ok (Z.of_nat j) /\
      omap value_ (drop j (buckets_ st)) = omap value_ (drop (S i) (buckets_ st)) /\
      ((j < length (buckets_ st))%nat ->
       exists b kv, buckets_ st !! j = Some b /\ value_ b = Some kv).
Proof.
  intros Hwf. induction fuel as [|f IH]; intros i Hi Hfuel; [lia|].
  cbn [advance_loop].
  replace (Z.of_nat i + 1) with (Z.of_nat (S i)) by lia.
  destruct (decide (S i = length (buckets_ st))) as [Hend|Hmore].
  - rewrite <- Hend, Z.eqb_refl. simpl. exists (S i). split_and!; try done; try lia.
  - replace (Z.of_nat (S i) =? Z.of_nat (length (buckets_ st))) with false
      by (symmetry; apply Z.eqb_neq; lia).
    simpl negb. cbv iota.
    destruct (lookup_lt_is_Some_2 (buckets_ st) (S i) ltac:(lia)) as [b Hb].
    rewrite (bucket_at_nat st (S i) b Hb). cbn [bind].
    pose proof (wf_empty_dead st (S i) b Hwf Hb) as Hdead.
    destruct (bucket_empty b) eqn:Hemp.
    + destruct (IH (S i)) as (j & Hj & Hrun & Hdrop & Hocc); [lia|lia|].
      exists j. split_and!; try done; try lia.
      rewrite Hdrop, (drop_S _ _ _ Hb).
      assert (value_ b = None) as Hv by (by apply Hdead).
      change (omap value_ (b :: drop (S (S i)) (buckets_ st)))
        with (match value_ b with
              | Some kv => kv :: omap value_ (drop (S (S i)) (buckets_ st))
              | None => omap value_ (drop (S (S i)) (buckets_ st))
              end).
      by rewrite Hv.
    + exists (S i). split_and!; try done; try lia.
      intros _. destruct (value_ b) as [kv|] eqn:Hv; [by exists b, kv|].
      destruct Hdead as [_ Hd]. by specialize (Hd eq_refl).
Qed.

Lemma iterate_spec st fuel :
  wf st ->
  forall i, (i <= length (buckets_ st))%nat ->
    ((i < length (buckets_ st))%nat ->
     exists b kv, buckets_ st !! i = Some b /\ value_ b = Some kv) ->
    (length (buckets_ st) - i < fuel)%nat ->
    iterate fuel st (Iterator (Z.of_nat i) (Z.of_nat (length (buckets_ st))))
    = Ok (omap value_ (drop i (buckets_ st))).
Proof.
  intros Hwf. induction fuel as [|f IH]; intros i Hi Hocc Hfuel; [lia|].
  cbn [iterate]. unfold iterator_ne, iterator_eq, end_iterator.
  cbn [current_ end_]. rewrite Z.eqb_refl.
  destruct (decide (i = length (buckets_ st))) as [->|Hne].
  - rewrite Z.eqb_refl. simpl. by rewrite drop_all.
  - replace (Z.of_nat i =? Z.of_nat (length (buckets_ st))) with false
      by (symmetry; apply Z.eqb_neq; lia).
    simpl negb. cbv iota.
    destruct Hocc as (b & kv & Hb & Hv); [lia|].
    unfold iterator_get. cbn [current_].
    rewrite (bucket_at_nat st i b Hb). cbn [bind]. unfold bucket_get.
    rewrite Hv. cbn [bind]. unfold advance. cbn [current_ end_].
    replace (Z.of_nat i =? Z.of_nat (length (buckets_ st))) with false
      by (symmetry; apply Z.eqb_neq; lia).
    destruct (advance_loop_spec st (S f) Hwf i) as (j & Hj & Hrun & Hdrop & Hocc');
      [lia|lia|].
    rewrite Hrun. cbn [bind]. rewrite (IH j) by (done || lia). cbn [bind].
    rewrite Hdrop, (drop_S _ _ _ Hb).
    change (omap value_ (b :: drop (S i) (buckets_ st)))
      with (match value_ b with
            | Some kv => kv :: omap value_ (drop (S i) (buckets_ st))
            | None => omap value_ (drop (S i) (buckets_ st))
            end).
    by rewrite Hv.
Qed.

Lemma begin_spec st fuel :
  wf st -> (length (buckets_ st) <= fuel)%nat ->
  exists j, (j <= length (buckets_ st))%nat /\
    begin fuel st = Ok (Iterator (Z.of_nat j) (Z.of_nat (length (buckets_ st)))) /\
    omap value_ (drop j (buckets_ st)) = contents st /\
    ((j < length (buckets_ st))%nat ->
     exists b kv, buckets_ st !! j = Some b /\ value_ b = Some kv).
Proof.
  intros Hwf Hfuel. unfold begin, contents.
  destruct (buckets_ st) as [|b bs] eqn:Hbs.
  - exists 0%nat. split_and!; try done. simpl. lia.
  - assert (buckets_ st !! 0%nat = Some b) as Hb by (by rewrite Hbs).
    pose proof (wf_empty_dead st 0 b Hwf Hb) as Hdead.
    destruct (bucket_empty b) eqn:Hemp.
    + unfold advance. cbn [current_ end_].
      replace (0 =? Z.of_nat (length (b :: bs))) with false
        by (symmetry; apply Z.eqb_neq; simpl; lia).
      destruct (advance_loop_spec st fuel Hwf 0%nat)
        as (j & Hj & Hrun & Hdrop & Hocc);
        [rewrite Hbs; simpl; lia|rewrite Hbs; simpl in *; lia|].
      rewrite Hbs in Hj, Hrun, Hdrop, Hocc.
      change (Z.of_nat 0) with 0 in Hrun. rewrite Hrun. cbn [bind].
      exists j. split_and!; try done; try lia.
      rewrite Hdrop.
      assert (value_ b = None) as Hv by (by apply Hdead).
      change (omap value_ (b :: bs))
        with (match value_ b with
              | Some kv => kv :: omap value_ bs
              | None => omap value_ bs
              end).
      by rewrite Hv.
    + exists 0%nat. split_and!; try done; try (simpl; lia).
      intros _. destruct (value_ b) as [kv|] eqn:Hv; [by exists b, kv|].
      destruct Hdead as [_ Hd]. by specialize (Hd eq_refl).
Qed.

(** X1: a traversal from [begin()] to [end()] with [operator++] yields the
    stored pairs, each once, in the order of their buckets: as many as
    [size()] says, with distinct keys, and exactly the pairs [(k, v)] for
    which [at(k)] returns [v]. *)
Theorem traversal_yields_stored_pairs st fuel :
  reachable st -> (length (buckets_ st) < fuel)%nat ->
  to_list fuel st = Ok (contents st) /\
  Z.of_nat (length (contents st)) = size st /\
  NoDup ((contents st).*1) /\
  forall k v, (k, v) ∈ contents st <-> at_ fuel st k = Ok v.
Proof.
  intros Hr Hfuel. pose proof (reachable_wf st Hr) as Hwf.
  pose proof (geo_len st (wf_geo st Hwf)) as Hlen.
  split_and!.
  - unfold to_list.
    destruct (begin_spec st fuel Hwf) as (j & Hj & -> & Hdrop & Hocc); [lia|].
    cbn [bind]. rewrite (iterate_spec st fuel Hwf j) by (done || lia).
    by rewrite Hdrop.
  - unfold size. by rewrite (wf_size st Hwf).
  - apply keys_unique_NoDup, (wf_keys st Hwf).
  - intros k v. rewrite contents_stored. split.
    + intros Hst. apply at_stored; [done|done|lia].
    + intros Hat. destruct (stored_dec st k Hwf) as [[v' Hst]|Habs].
      * rewrite (at_stored st k v' fuel) in Hat by (done || lia).
        by injection Hat as ->.
      * rewrite (at_absent st k fuel) in Hat by (done || lia). done.
Qed.

(** X2: [begin()] compares equal to [end()] exactly when the map is
    empty. *)
Theorem begin_is_end_iff_empty st fuel :
  reachable st -> (length (buckets_ st) <= fuel)%nat ->
  exists it, begin fuel st = Ok it /\
             iterator_eq it (end_iterator st) = map_empty st.
Proof.
  intros Hr Hfuel. pose proof (reachable_wf st Hr) as Hwf.
  destruct (begin_spec st fuel Hwf Hfuel) as (j & Hj & Hrun & Hdrop & Hocc).
  eexists. split; [exact Hrun|].
  unfold iterator_eq, end_iterator, map_empty. cbn [current_ end_].
  rewrite Z.eqb_refl, (wf_size st Hwf), <- Hdrop.
  destruct (decide (j = length (buckets_ st))) as [->|Hne].
  - rewrite drop_all, Z.eqb_refl. done.
  - destruct Hocc as (b & kv & Hb & Hv); [lia|].
    rewrite (drop_S _ _ _ Hb).
    assert (omap value_ (b :: drop (S j) (buckets_ st))
            = kv :: omap value_ (drop (S j) (buckets_ st))) as ->
      by (simpl; by rewrite Hv).
    rewrite length_cons.
    transitivity false; [apply Z.eqb_neq; lia|symmetry; apply Z.eqb_neq; lia].
Qed.

(** * What the operations do to the bindings *)

Lemma shrink_check_all (n : nat) :
  (n < 62)%nat -> shrink_check (Z.of_nat (S n)) = true.
Proof.
  intros Hn.
  do 62 (destruct n as [|n]; [vm_compute; reflexivity|]). lia.
Qed.

Lemma geometry_min_size st :
  geometry st -> capacity_ st <> 0 -> 4 * min_size_ st <= capacity_ st.
Proof.
  intros Hg Hne. destruct (geometry_pow2 st Hg Hne) as (k & Hk & Hc & _).
  pose proof (shrink_check_all (Z.to_nat (k - 1)) ltac:(lia)) as H.
  replace (Z.of_nat (S (Z.to_nat (k - 1)))) with k in H by lia.
  apply Z.leb_le in H. rewrite <- (geo_sizes st Hg). simpl. by rewrite Hc.
Qed.

Lemma stored_cons_iff st st' kv :
  contents st' ≡ₚ kv :: contents st ->
  forall k v, stored st' k v <-> ((k, v) = kv \/ stored st k v).
Proof.
  intros Hperm k v. rewrite <- !contents_stored, Hperm. apply elem_of_cons.
Qed.

Lemma stored_absent st k v : stored st k v -> absent st k -> False.
Proof. intros Hst Habs. by apply (Habs v). Qed.

(** A key that is not stored goes in: in place below the grow threshold,
    after a rehash to [get_capacity(size_ + 1)] at it, unless the larger
    vector cannot be created. *)
Lemma insert_hashed_absent_cases st kv fuel :
  wf st -> absent st (fst kv) -> enough st fuel ->
  (size_ st = max_size_ st /\
   (exists c, get_capacity fuel (size_ st + 1) = Ok c /\ max_buckets < c) /\
   insert_hashed fuel st kv (hasher_ (fst kv)) = Err AllocFailure) \/
  (exists F a, insert_hashed fuel st kv (hasher_ (fst kv)) = Ok (F, a) /\
     added st kv F a /\ capacity_ st <= capacity_ F /\
     (size_ st = max_size_ st ->
      exists c, get_capacity fuel (size_ st + 1) = Ok c /\ c <= max_buckets /\
                capacity_ F = c /\ capacity_ st < c) /\
     (size_ st <> max_size_ st -> capacity_ F = capacity_ st)).
Proof.
  intros Hwf Habs Hfuel. pose proof (wf_geo st Hwf) as Hg.
  destruct (Z.eq_dec (size_ st) (max_size_ st)) as [Hfull|Hroom].
  - destruct (insert_hashed_grow st kv fuel Hwf Habs Hfull Hfuel)
      as (k & Hk & Hgc & Hup & Hbig & Hfit).
    destruct (Z.lt_ge_cases max_buckets (2 ^ k)) as [Hlt|Hge].
    + left. split_and!; [done|by exists (2 ^ k)|by apply Hbig].
    + right. destruct (Hfit Hge) as (F & a & Hrun & Hadd & HcF).
      assert (capacity_ st < 2 ^ k) as Hgrow.
      { destruct (Z.eq_dec (capacity_ st) 0) as [->|Hne].
        - apply Z.pow_pos_nonneg; lia.
        - destruct (geometry_pow2 st Hg Hne) as (j & Hj & Hc & _).
          pose proof (geometry_load st j Hg ltac:(lia) Hc) as Hload.
          rewrite Hc, (pow2_half k), (pow2_half j) by lia. lia. }
      exists F, a. split_and!; try done; [lia|intros _; by exists (2 ^ k)].
  - right. pose proof (wf_load st Hwf) as Hload.
    pose proof (wf_capacity_nonneg st Hwf) as Hc0. unfold enough in Hfuel.
    destruct (insert_hashed_room st kv fuel Hwf Habs)
      as (F & a & Hrun & Hadd & Hsf); [lia|lia|].
    pose proof (sf_capacity _ _ Hsf) as Hc. simpl in Hc.
    exists F, a. split_and!; try done. lia.
Qed.

(** A stored key is erased without fail; when the table shrinks, the
    smaller vector is shorter than the one it replaces. *)
Lemma erase_present_shape st k v fuel :
  wf st -> stored st k v -> enough st fuel ->
  exists F, erase fuel st k = Ok F /\ wf F /\
            contents st ≡ₚ (k, v) :: contents F /\
            capacity_ F <= capacity_ st /\
            (size_ st = 1 \/ min_size_ st <= size_ st - 1 ->
             capacity_ F = capacity_ st) /\
            (size_ st <> 1 -> size_ st - 1 < min_size_ st ->
             get_capacity fuel (size_ st - 1) = Ok (capacity_ F) /\
             capacity_ F < capacity_ st).
Proof.
  intros Hwf Hst Hfuel. pose proof Hfuel as Hfuel'. unfold enough in Hfuel.
  pose proof Hst as (p & b & Hp & Hl & Hv).
  pose proof (wf_geo st Hwf) as Hg.
  pose proof (stored_size st k v Hwf Hst) as Hsz.
  pose proof (stored_capacity st k v Hg Hst) as Hne.
  pose proof (wf_size_lt_capacity st Hwf Hne) as Hlt.
  pose proof (geometry_cap_range st Hg Hne) as Hcr.
  pose proof (lookup_range st p b Hg Hp Hl) as Hpc.
  pose proof (geometry_min_size st Hg Hne) as Hmin.
  pose proof (geo_alloc st Hg) as Halloc.
  rewrite (erase_unfold st k v p b fuel) by (done || lia). cbv zeta.
  destruct (erased_at_facts st p b k v Hwf Hp Hl Hv)
    as (Hg1 & Hs1 & Hu1 & Hperm & Hsz1 & Hl1 & Hdead).
  pose proof (erased_shift st k v p b fuel Hwf Hp Hl Hv) as Hshift.
  cbv zeta in Hshift.
  set (st1 := erased_at st p b) in *.
  assert (size_ st1 = size_ st - 1) as Hsize1 by reflexivity.
  assert (capacity_ st1 = capacity_ st) as Hcap1 by reflexivity.
  assert (max_size_ st1 = max_size_ st) as Hmax1 by reflexivity.
  assert (min_size_ st1 = min_size_ st) as Hmin1 by reflexivity.
  destruct (map_empty st1) eqn:Hemp.
  { unfold map_empty in Hemp. apply Z.eqb_eq in Hemp.
    assert (contents st1 = []) as Hnil by (apply length_zero_iff_nil; lia).
    exists st1. split_and!; try done; try lia. split; try done.
    - by apply rh_ok_nil.
    - rewrite Hemp. by apply geometry_max_size_nonneg. }
  unfold map_empty in Hemp. apply Z.eqb_neq in Hemp.
  destruct (size_ st1 <? min_size_ st1) eqn:Hshrink.
  - apply Z.ltb_lt in Hshrink.
    destruct (get_capacity_spec fuel (size_ st1)) as (j & Hj & Hgc & Hup & Hlo);
      [lia|lia|]. rewrite Hgc. cbn [bind]. unfold rehash.
    assert (2 ^ j <= max_buckets) as Hfit by lia.
    destruct (rehash_with_spec fuel st1 j) as (F & Hrun & HwfF & HcF & HpermF);
      try done; try lia.
    exists F. split_and!; try done; try lia; [by rewrite HpermF|].
    intros _ _. rewrite HcF, <- Hsize1. split; [done|lia].
  - apply Z.ltb_ge in Hshrink.
    destruct Hshift as (F & gap' & ts & ts' & Hrun & _ & HokF & Hsf & HpermF);
      [lia|done|].
    rewrite Hrun. cbn [bind fst]. exists F. destruct Hsf.
    split_and!; try done; try lia.
    + apply table_ok_wf; [done| |].
      * rewrite HpermF. congruence.
      * pose proof (wf_load st Hwf). lia.
    + by rewrite HpermF.
Qed.

(** X3: [insert] of a pair with a new key stores the pair and raises
    [size()] by one; [insert] never changes what any other key is bound to,
    never changes the map when the key is present, and never makes the
    bucket vector shorter. *)
Theorem insert_adds_one_binding st k v fuel st' :
  reachable st -> insert fuel st (k, v) = Ok st' ->
  (forall k' v', k' <> k -> (stored st' k' v' <-> stored st k' v')) /\
  (absent st k -> stored st' k v /\ size st' = size st + 1) /\
  (forall v0, stored st k v0 -> st' = st) /\
  capacity_ st <= capacity_ st'.
Proof.
  intros Hr Hrun. pose proof (reachable_wf st Hr) as Hwf.
  apply (insert_mono st _ fuel (more st fuel)) in Hrun; [|unfold more; lia].
  unfold insert in Hrun. apply bind_Ok in Hrun as ([F a] & Hrun & [= <-]).
  cbn [fst] in *.
  destruct (stored_dec st k Hwf) as [[v0 Hst]|Habs].
  - destruct (insert_hashed_present st k v0 v (more st fuel) Hwf Hst)
      as (a' & b & Hrun' & _); [by apply more_lookup|].
    assert (F = st) as -> by congruence.
    split_and!; try done; try lia.
    intros Habs. destruct (stored_absent st k v0 Hst Habs).
  - destruct (insert_hashed_absent_cases st (k, v) (more st fuel) Hwf Habs
                (more_enough st fuel))
      as [(_ & _ & Herr)|(F' & a' & Hrun' & (HwfF & Hperm & _) & Hcap & _)];
      [cbn [fst] in Herr; congruence|].
    cbn [fst] in Hrun'. assert (F' = F) as -> by congruence.
    pose proof (stored_cons_iff st F (k, v) Hperm) as Hiff.
    split_and!; try done.
    + intros k' v' Hne. rewrite Hiff. split; [|by right].
      intros [[= -> ->]|H']; [done|done].
    + intros _. split; [apply Hiff; by left|].
      unfold size. rewrite (wf_size F HwfF), (wf_size st Hwf), Hperm.
      rewrite length_cons. lia.
    + intros v0 Hst. destruct (stored_absent st k v0 Hst Habs).
Qed.


(** Assignment to the value of the entry of [k] rebinds [k] and nothing
    else. *)
Lemma assign_at st a b k v0 v st' :
  wf st -> 0 <= a -> st @ a = Some b -> value_ b = Some (k, v0) ->
  assign st a v = Ok st' ->
  wf st' /\ size_ st' = size_ st /\ stored st' k v /\
  forall k' v', k' <> k -> (stored st' k' v' <-> stored st k' v').
Proof.
  intros Hwf Ha Hl Hv Hrun. pose proof (wf_geo st Hwf) as Hg.
  pose proof (lookup_range st a b Hg Ha Hl) as Hac.
  destruct (assign_spec st a v st' Hwf Hrun)
    as (b' & k0 & v0' & Hat & Hl' & Hv' & -> & Hwf').
  cbv zeta in *. rewrite Z2Nat.id in * by lia.
  assert (b' = b) as -> by congruence.
  assert (k0 = k /\ v0' = v0) as [-> ->] by (split; congruence).
  set (nb := {| value_ := Some (k, v); hash_ := hash_ b;
                distance_ := distance_ b |}) in *.
  assert (stored (store_bucket st a nb) k v) as Hnew.
  { exists a, nb. split_and!; [done| |done]. apply store_lookup_eq; [done|lia]. }
  pose proof (contents_store st a b nb Ha Hl) as Hperm.
  rewrite Hv in Hperm. change (value_ nb) with (Some (k, v)) in Hperm.
  simpl in Hperm.
  split_and!; try done.
  intros k' v' Hne. rewrite <- !contents_stored. split; intros Hin.
  - assert ((k', v') ∈ (k, v) :: contents st) as Hin'
      by (rewrite <- Hperm; by right).
    apply elem_of_cons in Hin' as [[= -> ->]|Hin']; done.
  - assert ((k', v') ∈ (k, v0) :: contents (store_bucket st a nb)) as Hin'
      by (rewrite Hperm; by right).
    apply elem_of_cons in Hin' as [[= -> ->]|Hin']; done.
Qed.

(** What [operator[]] returns: the table, with the key bound to the default
    value if it was not bound, and the position of the entry of the key. *)
Lemma index_entry st k fuel F a :
  wf st -> index fuel st k = Ok (F, a) ->
  wf F /\ 0 <= a /\ (exists b v0, F @ a = Some b /\ value_ b = Some (k, v0)) /\
  ((exists v0, stored st k v0 /\ F = st) \/
   (absent st k /\ contents F ≡ₚ (k, default_value) :: contents st)).
Proof.
  intros Hwf Hrun.
  apply (index_mono st k fuel (more st fuel)) in Hrun; [|unfold more; lia].
  destruct (stored_dec st k Hwf) as [[v0 Hst]|Habs].
  - destruct (index_present st k v0 (more st fuel) Hwf Hst)
      as (a' & b & Hrun' & Ha & Hl & Hv); [by apply more_lookup|].
    assert (F = st /\ a = a') as [-> ->] by (split; congruence).
    split_and!; try done; [by exists b, v0|left; by exists v0].
  - destruct (index_absent st k (more st fuel) Hwf Habs (more_enough st fuel))
      as [Herr|(F' & a' & Hrun' & HwfF & Hperm & bA & Hl & Hv & Ha)];
      [congruence|].
    assert (F' = F /\ a' = a) as [-> ->] by (split; congruence).
    split_and!; try done; [lia|by exists bA, default_value|by right].
Qed.

(** X5: [m[k] = v] binds [k] to [v], whether or not [k] was bound before,
    and leaves every other key bound as it was; [size()] grows by one
    exactly when [k] was not bound. *)
Theorem index_assign_binds_key st k v fuel st' :
  reachable st -> index_assign fuel st k v = Ok st' ->
  stored st' k v /\
  (forall k' v', k' <> k -> (stored st' k' v' <-> stored st k' v')) /\
  (absent st k -> size st' = size st + 1) /\
  (forall v0, stored st k v0 -> size st' = size st).
Proof.
  intros Hr Hrun. pose proof (reachable_wf st Hr) as Hwf.
  unfold index_assign in Hrun. apply bind_Ok in Hrun as ([F a] & Hidx & Hasg).
  cbn [fst snd] in Hasg.
  destruct (index_entry st k fuel F a Hwf Hidx)
    as (HwfF & Ha & (b & v0 & Hl & Hv) & Hcases).
  destruct (assign_at F a b k v0 v st' HwfF Ha Hl Hv Hasg)
    as (Hwf' & Hsize & Hnew & Hothers).
  unfold size. rewrite Hsize.
  destruct Hcases as [(v1 & Hst & ->)|[Habs Hperm]].
  - split_and!; try done.
    intros Habs. destruct (stored_absent st k v1 Hst Habs).
  - pose proof (stored_cons_iff st F _ Hperm) as Hiff.
    split_and!; try done.
    + intros k' v' Hne. rewrite (Hothers k' v' Hne), Hiff.
      split; [|by right]. intros [[= -> ->]|H']; done.
    + intros _. rewrite (wf_size F HwfF), (wf_size st Hwf), Hperm.
      rewrite length_cons. lia.
    + intros v1 Hst. destruct (stored_absent st k v1 Hst Habs).
Qed.

(** X6: on a map the interface has built, [find], [insert], [operator[]] and
    [m[k] = v] return when they are given enough fuel, the last three unless
    the allocation of a larger bucket vector fails: none of them reads
    outside the bucket vector or the payload of an empty bucket, and none
    loops forever. *)
Theorem lookups_and_updates_return st fuel :
  reachable st -> enough st fuel ->
  (forall k, exists it, find fuel st k = Ok it) /\
  (forall kv, (exists st', insert fuel st kv = Ok st') \/
              insert fuel st kv = Err AllocFailure) /\
  (forall k, (exists r, index fuel st k = Ok r) \/
             index fuel st k = Err AllocFailure) /\
  (forall k v, (exists st', index_assign fuel st k v = Ok st') \/
               index_assign fuel st k v = Err AllocFailure).
Proof.
  intros Hr Hfuel. pose proof (reachable_wf st Hr) as Hwf.
  pose proof (wf_capacity_nonneg st Hwf) as Hc0.
  assert (Z.to_nat (capacity_ st) < fuel)%nat as Hfuel'
    by (unfold enough in Hfuel; lia).
  split_and!.
  - intros k. destruct (stored_dec st k Hwf) as [[v Hst]|Habs].
    + destruct (find_stored st k v fuel Hwf Hst Hfuel') as (it & Hrun & _).
      by exists it.
    + exists None. by apply find_absent.
  - intros [k v]. unfold insert.
    destruct (stored_dec st k Hwf) as [[v0 Hst]|Habs].
    + destruct (insert_hashed_present st k v0 v fuel Hwf Hst Hfuel')
        as (a & b & Hrun & _).
      left. exists st. cbn [fst]. by rewrite Hrun.
    + destruct (insert_hashed_absent st (k, v) fuel Hwf Habs Hfuel)
        as [Herr|(F & a & Hrun & _)]; cbn [fst] in *.
      * right. by rewrite Herr.
      * left. exists F. by rewrite Hrun.
  - intros k. destruct (stored_dec st k Hwf) as [[v0 Hst]|Habs].
    + destruct (index_present st k v0 fuel Hwf Hst Hfuel')
        as (a & b & Hrun & _).
      left. by eexists.
    + destruct (index_absent st k fuel Hwf Habs Hfuel)
        as [Herr|(F & a & Hrun & _)]; [by right|left; by eexists].
  - intros k v. unfold index_assign.
    assert ((exists F a, index fuel st k = Ok (F, a)) \/
            index fuel st k = Err AllocFailure) as [(F & a & Hrun)|Herr].
    { destruct (stored_dec st k Hwf) as [[v0 Hst]|Habs].
      - destruct (index_present st k v0 fuel Hwf Hst Hfuel')
          as (a & b & Hrun & _).
        left. by exists st, a.
      - destruct (index_absent st k fuel Hwf Habs Hfuel)
          as [Herr|(F & a & Hrun & _)]; [by right|left; by exists F, a]. }
    + left. rewrite Hrun. cbn [bind fst snd].
      destruct (index_entry st k fuel F a Hwf Hrun)
        as (_ & _ & (b & v0 & Hl & Hv) & _).
      unfold assign. rewrite (bucket_at_Some F a b Hl). cbn [bind].
      unfold bucket_get. rewrite Hv. cbn [bind]. by eexists.
    + right. by rewrite Herr.
Qed.

(** X7: [insert] fails exactly when the key is new, the table has reached
    its grow threshold and a bucket vector of [get_capacity(size_ + 1)]
    buckets cannot be created. *)
Theorem insert_fails_iff_growth_impossible st kv fuel :
  reachable st -> enough st fuel ->
  insert fuel st kv = Err AllocFailure <->
  absent st (fst kv) /\ size_ st = max_size_ st /\
  exists c, get_capacity fuel (size_ st + 1) = Ok c /\ max_buckets < c.
Proof.
  intros Hr Hfuel. pose proof (reachable_wf st Hr) as Hwf.
  pose proof (wf_capacity_nonneg st Hwf) as Hc0.
  assert (Z.to_nat (capacity_ st) < fuel)%nat as Hfuel'
    by (unfold enough in Hfuel; lia).
  unfold insert. destruct kv as [k v]. cbn [fst]. split.
  - intros Herr. destruct (stored_dec st k Hwf) as [[v0 Hst]|Habs].
    + destruct (insert_hashed_present st k v0 v fuel Hwf Hst Hfuel')
        as (a & b & Hrun & _). by rewrite Hrun in Herr.
    + destruct (insert_hashed_absent_cases st (k, v) fuel Hwf Habs Hfuel)
        as [(Hfull & Hc & _)|(F & a & Hrun & _)]; cbn [fst] in *; [done|].
      by rewrite Hrun in Herr.
  - intros (Habs & Hfull & c & Hc & Hbig).
    destruct (insert_hashed_absent_cases st (k, v) fuel Hwf Habs Hfuel)
      as [(_ & _ & Herr)|(F & a & _ & _ & _ & Hfit & _)]; cbn [fst] in *.
    + by rewrite Herr.
    + destruct (Hfit Hfull) as (c' & Hc' & Hle & _).
      assert (c' = c) as -> by congruence. lia.
Qed.

(** * Construction from a sequence of pairs *)

Lemma first_binding_keys l k :
  (exists v, first_binding l k = Some v) <-> k ∈ l.*1.
Proof.
  induction l as [|[k0 v0] l IH]; simpl.
  - split; [by intros [v ?]|by intros ?%elem_of_nil].
  - rewrite elem_of_cons. destruct (decide (k0 = k)) as [->|Hne].
    + split; [by left|]. intros _. by exists v0.
    + rewrite IH. split; [by right|]. by intros [->|?].
Qed.

Lemma absent_cons_iff st st' kv :
  contents st' ≡ₚ kv :: contents st ->
  forall k, absent st' k <-> (k <> fst kv /\ absent st k).
Proof.
  intros Hperm k. pose proof (stored_cons_iff st st' kv Hperm) as Hiff. split.
  - intros Habs. split.
    + intros ->. apply (Habs (snd kv)), Hiff. left. by destruct kv.
    + intros v Hst. apply (Habs v), Hiff. by right.
  - intros [Hne Habs] v Hst. apply Hiff in Hst as [<-|Hst]; [done|].
    by apply (Habs v).
Qed.

(** After the insertion of the pairs of [l], a key is bound as it was
    before or, when it was not bound, as its first pair in [l] says. *)
Lemma insert_all_stored l :
  forall st fuel F, wf st -> insert_all fuel st l = Ok F ->
    wf F /\
    forall k v, stored F k v <->
                (stored st k v \/ (absent st k /\ first_binding l k = Some v)).
Proof.
  induction l as [|[k0 v0] l IH]; intros st fuel F Hwf Hrun.
  - injection Hrun as <-. split; [done|]. intros k v. simpl.
    split; [by left|]. by intros [?|[_ ?]].
  - cbn [insert_all] in Hrun. apply bind_Ok in Hrun as (st1 & Hins & Hrest).
    pose proof (insert_wf st _ fuel st1 Hwf Hins) as Hwf1.
    destruct (IH st1 fuel F Hwf1 Hrest) as [HwfF HF]. split; [done|].
    intros k v. rewrite HF. cbn [first_binding fst snd].
    destruct (insert_contents st k0 v0 fuel st1 Hwf Hins)
      as [(v1 & Hst & ->)|[Habs Hperm]].
    + destruct (decide (k0 = k)) as [->|Hne]; [|done].
      split; (intros [?|[Ha _]]; [by left|destruct (stored_absent _ _ _ Hst Ha)]).
    + pose proof (stored_cons_iff st st1 _ Hperm k v) as Hs.
      pose proof (absent_cons_iff st st1 _ Hperm k) as Ha. cbn [fst] in Ha.
      rewrite Hs, Ha. destruct (decide (k0 = k)) as [->|Hne].
      * split.
        -- intros [[[= ->]|Hst]|[[Hne _] _]]; [|by left|done].
           right. by split.
        -- intros [Hst|[_ [= ->]]]; [left; by right|]. left. by left.
      * split.
        -- intros [[[= -> ->]|Hst]|[[_ Hab] Hf]]; [done|by left|by right].
        -- intros [Hst|[Hab Hf]]; [left; by right|]. right.
           split; [|done]. split; [|done]. by intros ->.
Qed.

Lemma insert_all_reachable l :
  forall st fuel F, reachable st -> insert_all fuel st l = Ok F -> reachable F.
Proof.
  induction l as [|kv l IH]; intros st fuel F Hr Hrun.
  - by injection Hrun as <-.
  - cbn [insert_all] in Hrun. apply bind_Ok in Hrun as (st1 & Hins & Hrest).
    apply (IH st1 fuel F); [|done].
    apply (reach_step st); [done|]. by apply (step_insert fuel st kv).
Qed.

(** The number of entries of a table whose keys are those of [l]. *)
Lemma size_distinct_keys st (l : list (Key * Value)) :
  wf st -> (forall k, (exists v, stored st k v) <-> k ∈ l.*1) ->
  size_ st = Z.of_nat (length (remove_dups (l.*1))).
Proof.
  intros Hwf Hkeys. rewrite (wf_size st Hwf). f_equal.
  rewrite <- (length_fmap (@fst Key Value) (contents st)).
  apply Permutation_length.
  apply NoDup_Permutation.
  - apply keys_unique_NoDup, (wf_keys st Hwf).
  - apply NoDup_remove_dups.
  - intros k. rewrite elem_of_remove_dups, <- Hkeys, list_elem_of_fmap. split.
    + intros ([k' v] & -> & Hin). exists v. by apply contents_stored.
    + intros [v Hst]. exists (k, v). split; [done|]. by apply contents_stored.
Qed.

(** X8: the map constructed from a range binds each key of the range to the
    value of its first pair, and to nothing else; its size is the number
    of distinct keys of the range. *)
Theorem from_range_binds_first_pairs l fuel F :
  from_range fuel l = Ok F ->
  reachable F /\
  (forall k v, stored F k v <-> first_binding l k = Some v) /\
  size F = Z.of_nat (length (remove_dups (l.*1))).
Proof.
  intros Hrun. unfold from_range in Hrun.
  apply bind_Ok in Hrun as (st & Hnew & Hrun).
  destruct (new_wf fuel 0 st Hnew) as [Hwf Hnil].
  pose proof (reach_new fuel 0 st Hnew) as Hr.
  destruct (insert_all_stored l st fuel F Hwf Hrun) as [HwfF HF].
  assert (forall k, absent st k) as Habs.
  { intros k v Hst. apply contents_stored in Hst. rewrite Hnil in Hst.
    by apply elem_of_nil in Hst. }
  assert (forall k v, stored F k v <-> first_binding l k = Some v) as Hbind.
  { intros k v. rewrite HF. split; [|by right].
    intros [Hst|[_ Hf]]; [|done]. destruct (Habs k v Hst). }
  split_and!; [by apply (insert_all_reachable l st fuel)|done|].
  apply size_distinct_keys; [done|]. intros k.
  rewrite <- first_binding_keys. split; intros [v Hv]; exists v; by apply Hbind.
Qed.

(** With enough fuel an insertion has one outcome: a table, or the failure
    to create a larger bucket vector. *)
Lemma insert_settles st kv :
  wf st ->
  (exists F, forall fuel, enough st fuel -> insert fuel st kv = Ok F) \/
  (forall fuel, enough st fuel -> insert fuel st kv = Err AllocFailure).
Proof.
  intros Hwf. pose proof (wf_capacity_nonneg st Hwf) as Hc0.
  destruct kv as [k v]. unfold insert. cbn [fst].
  destruct (stored_dec st k Hwf) as [[v0 Hst]|Habs].
  - left. exists st. intros fuel Hfuel.
    destruct (insert_hashed_present st k v0 v fuel Hwf Hst) as (a & b & -> & _);
      [unfold enough in Hfuel; lia|done].
  - destruct (insert_hashed_absent_cases st (k, v) (more st 0) Hwf Habs
                (more_enough st 0))
      as [(Hfull & (c & Hc & Hbig) & _)|(F & a & Hrun & _)]; cbn [fst] in *.
    + right. intros fuel Hfuel.
      destruct (insert_hashed_absent_cases st (k, v) fuel Hwf Habs Hfuel)
        as [(_ & _ & Herr)|(F & a & _ & _ & _ & Hfit & _)]; cbn [fst] in *.
      * by rewrite Herr.
      * destruct (Hfit Hfull) as (c' & Hc' & Hle & _).
        apply (get_capacity_mono _ _ (fuel + more st 0)) in Hc; [|lia].
        apply (get_capacity_mono _ _ (fuel + more st 0)) in Hc'; [|lia].
        assert (c' = c) as -> by congruence. lia.
    + left. exists F. intros fuel Hfuel.
      destruct (insert_hashed_absent_cases st (k, v) fuel Hwf Habs Hfuel)
        as [(Hfull & (c & Hc & Hbig) & _)|(F' & a' & Hrun' & _)];
        cbn [fst] in *.
      * destruct (insert_hashed_absent_cases st (k, v) (more st 0) Hwf Habs
                    (more_enough st 0))
          as [(_ & _ & Herr)|(F'' & a'' & _ & _ & _ & Hfit & _)]; cbn [fst] in *;
          [congruence|].
        destruct (Hfit Hfull) as (c' & Hc' & Hle & _).
        apply (get_capacity_mono _ _ (fuel + more st 0)) in Hc; [|lia].
        apply (get_capacity_mono _ _ (fuel + more st 0)) in Hc'; [|lia].
        assert (c' = c) as -> by congruence. lia.
      * rewrite Hrun'. cbn [bind fst].
        apply (insert_hashed_mono _ (fuel + more st 0)) in Hrun; [|lia].
        apply (insert_hashed_mono _ (fuel + more st 0)) in Hrun'; [|lia].
        congruence.
Qed.

Lemma insert_all_settles l :
  forall st, wf st ->
    exists fuel0,
      (exists F, forall fuel, (fuel0 <= fuel)%nat ->
                   insert_all fuel st l = Ok F) \/
      (forall fuel, (fuel0 <= fuel)%nat ->
         insert_all fuel st l = Err AllocFailure).
Proof.
  induction l as [|kv l IH]; intros st Hwf.
  - exists 0%nat. left. by exists st.
  - destruct (insert_settles st kv Hwf) as [[st1 Hins]|Herr].
    + pose proof (insert_wf st kv _ st1 Hwf (Hins _ (more_enough st 0))) as Hwf1.
      destruct (IH st1 Hwf1) as (f1 & [[F HF]|HE]).
      * exists (f1 `max` more st 0)%nat. left. exists F. intros fuel Hfuel.
        cbn [insert_all]. rewrite (Hins fuel) by (unfold enough, more in *; lia).
        cbn [bind]. apply HF. lia.
      * exists (f1 `max` more st 0)%nat. right. intros fuel Hfuel.
        cbn [insert_all]. rewrite (Hins fuel) by (unfold enough, more in *; lia).
        cbn [bind]. apply HE. lia.
    + exists (more st 0). right. intros fuel Hfuel. cbn [insert_all].
      rewrite (Herr fuel) by (unfold enough, more in *; lia). done.
Qed.

(** X9: the construction from a range has one outcome once the fuel
    suffices: a map, or the failure to create a bucket vector. *)
Theorem from_range_returns_or_fails_to_allocate l :
  exists fuel0,
    (exists F, forall fuel, (fuel0 <= fuel)%nat -> from_range fuel l = Ok F) \/
    (forall fuel, (fuel0 <= fuel)%nat -> from_range fuel l = Err AllocFailure).
Proof.
  unfold from_range, new. change (get_capacity ?f 0) with (@Ok Z 0).
  cbn [bind]. destruct (max_buckets <? 0) eqn:Halloc.
  - exists 0%nat. by right.
  - cbn [bind]. change (0 =? 0) with true. cbv iota.
    apply insert_all_settles. apply empty_table_wf.
Qed.

(** Below the grow threshold insertions leave the bucket vector alone. *)
Lemma insert_all_room l :
  forall st fuel, wf st ->
    size_ st + Z.of_nat (length l) <= max_size_ st ->
    (Z.to_nat (capacity_ st) < fuel)%nat ->
    exists F, insert_all fuel st l = Ok F /\ capacity_ F = capacity_ st.
Proof.
  induction l as [|[k v] l IH]; intros st fuel Hwf Hroom Hfuel.
  - by exists st.
  - cbn [insert_all]. unfold insert. cbn [fst].
    rewrite length_cons in Hroom.
    destruct (stored_dec st k Hwf) as [[v0 Hst]|Habs].
    + destruct (insert_hashed_present st k v0 v fuel Hwf Hst Hfuel)
        as (a & b & -> & _). cbn [bind fst].
      apply IH; [done|lia|done].
    + destruct (insert_hashed_room st (k, v) fuel Hwf Habs)
        as (F1 & a & Hrun & (Hwf1 & _) & Hsf); [lia|done|].
      cbn [fst] in Hrun. rewrite Hrun. cbn [bind fst].
      destruct Hsf as [Hs Hc _ Hm _]. simpl in Hs, Hc, Hm.
      destruct (IH F1 fuel Hwf1) as (F & HF & HcF); [lia|lia|].
      exists F. split; [done|lia].
Qed.

(** X10: the map constructed from an initializer list is created with
    [get_capacity(list.size())] buckets and keeps them: no insertion of the
    constructor rehashes, and the construction returns when a vector of
    four times the length of the list can be created.  Each key is bound to
    the value of its first pair in the list. *)
Theorem from_list_never_rehashes l fuel :
  4 * Z.of_nat (length l) <= max_buckets ->
  (Z.to_nat (4 * Z.of_nat (length l) + 66) <= fuel)%nat ->
  exists F c,
    get_capacity fuel (Z.of_nat (length l)) = Ok c /\
    from_list fuel l = Ok F /\ capacity_ F = c /\ reachable F /\
    forall k v, stored F k v <-> first_binding l k = Some v.
Proof.
  intros Halloc Hfuel. unfold from_list.
  assert (Z.of_nat (length l) <= 2 ^ 62) as Hlen.
  { pose proof max_buckets_bound as Hb.
    assert (SIZE_MAX / 2 < 4 * 2 ^ 62) as Hm by reflexivity. lia. }
  assert (exists st c, get_capacity fuel (Z.of_nat (length l)) = Ok c /\
            new fuel (Z.of_nat (length l)) = Ok st /\ capacity_ st = c /\
            size_ st = 0 /\ Z.of_nat (length l) <= max_size_ st /\
            c < 4 * Z.of_nat (length l) + 1)
    as (st & c & Hc & Hnew & Hcap & Hsize & Hmax & Hsmall).
  { unfold new. destruct (decide (length l = 0%nat)) as [->|Hne].
    - change (get_capacity fuel (Z.of_nat 0)) with (@Ok Z 0). cbn [bind].
      replace (max_buckets <? 0) with false by (symmetry; apply Z.ltb_ge; lia).
      eexists _, 0. split_and!; try done.
    - destruct (get_capacity_spec fuel (Z.of_nat (length l)))
        as (j & Hj & Hc & Hup & Hlo); [lia|lia|].
      rewrite Hc. cbn [bind].
      replace (max_buckets <? 2 ^ j) with false
        by (symmetry; apply Z.ltb_ge; lia).
      assert (0 < 2 ^ j) by (apply Z.pow_pos_nonneg; lia).
      replace (2 ^ j =? 0) with false by (symmetry; apply Z.eqb_neq; lia).
      fold (fresh_table (2 ^ j) 0 0).
      pose proof (fresh_wf j 0 0 Hj ltac:(lia)) as Hwf.
      pose proof (geometry_load _ j (wf_geo _ Hwf) Hj eq_refl) as Hload.
      exists (fresh_table (2 ^ j) 0 0), (2 ^ j).
      split_and!; try done; lia. }
  rewrite Hnew. cbn [bind].
  destruct (new_wf _ _ st Hnew) as [Hwf Hnil].
  destruct (insert_all_room l st fuel Hwf) as (F & Hrun & HcF); [lia|lia|].
  exists F, c. split_and!; try done; [congruence| |].
  - apply (insert_all_reachable l st fuel); [|done].
    by apply (reach_new fuel (Z.of_nat (length l)) st).
  - destruct (insert_all_stored l st fuel F Hwf Hrun) as [_ HF].
    intros k v. rewrite HF. split; [|intros Hf; right; split; [|done]].
    + intros [Hst|[_ Hf]]; [|done]. apply contents_stored in Hst.
      rewrite Hnil in Hst. by apply elem_of_nil in Hst.
    + intros v' Hst. apply contents_stored in Hst. rewrite Hnil in Hst.
      by apply elem_of_nil in Hst.
Qed.

(** * Capacities *)

(** X11: a map created for [count] entries has a power of two of at least
    [2 * count] and less than [4 * count] buckets, and room for [count]
    entries before it grows. *)
Theorem new_reserves_room count fuel :
  1 <= count -> 4 * count <= max_buckets -> (63 <= fuel)%nat ->
  exists st k,
    new fuel count = Ok st /\ 1 <= k <= 63 /\ capacity_ st = 2 ^ k /\
    2 * count <= capacity_ st < 4 * count /\
    size st = 0 /\ count <= max_size_ st.
Proof.
  intros Hc Halloc Hfuel.
  assert (count <= 2 ^ 62) as Hlen.
  { pose proof max_buckets_bound as Hb.
    assert (SIZE_MAX / 2 < 4 * 2 ^ 62) as Hm by reflexivity. lia. }
  destruct (get_capacity_spec fuel count) as (j & Hj & Hgc & Hup & Hlo);
    [lia|lia|].
  unfold new. rewrite Hgc. cbn [bind].
  replace (max_buckets <? 2 ^ j) with false by (symmetry; apply Z.ltb_ge; lia).
  assert (0 < 2 ^ j) by (apply Z.pow_pos_nonneg; lia).
  replace (2 ^ j =? 0) with false by (symmetry; apply Z.eqb_neq; lia).
  fold (fresh_table (2 ^ j) 0 0).
  pose proof (fresh_wf j 0 0 Hj ltac:(lia)) as Hwf.
  pose proof (geometry_load _ j (wf_geo _ Hwf) Hj eq_refl) as Hload.
  pose proof (pow2_half j (proj1 Hj)) as Hhalf.
  exists (fresh_table (2 ^ j) 0 0), j.
  change (capacity_ (fresh_table (2 ^ j) 0 0)) with (2 ^ j).
  split_and!; try done; try lia.
Qed.

Lemma get_capacity_loop_top count (n : nat) :
  2 ^ 62 < count <= 2 ^ 63 ->
  forall fuel i, Z.of_nat n = 63 - i -> 0 <= i -> (n < fuel)%nat ->
    get_capacity_loop fuel (2 ^ i) count = Ok (2 ^ 63).
Proof.
  intros Hc. induction n as [|n IH]; intros fuel i Hn Hi Hfuel;
    (destruct fuel as [|fuel]; [lia|]); cbn [get_capacity_loop].
  - replace i with 63 by lia.
    replace (2 ^ 63 <? count) with false by (symmetry; apply Z.ltb_ge; lia).
    done.
  - assert (2 ^ i <= 2 ^ 62) as Hle by (apply Z.pow_le_mono_r; lia).
    replace (2 ^ i <? count) with true by (symmetry; apply Z.ltb_lt; lia).
    rewrite Z.shiftl_mul_pow2 by lia.
    replace (2 ^ i * 2 ^ 1) with (2 ^ (i + 1))
      by (rewrite Z.pow_add_r by lia; reflexivity).
    assert (2 ^ (i + 1) <= 2 ^ 63) as Hle' by (apply Z.pow_le_mono_r; lia).
    assert (0 < 2 ^ (i + 1)) by (apply Z.pow_pos_nonneg; lia).
    rewrite wrap_small
      by (unfold SIZE_MAX; change (2 ^ 63) with 9223372036854775808 in Hle'; lia).
    apply IH; lia.
Qed.

(** X12: for a count above [2 ^ 62] and up to [2 ^ 63] the doubling of
    [get_capacity] overflows: it returns 0, and the constructor creates a
    map without buckets. *)
Theorem get_capacity_wraps_to_zero count fuel :
  2 ^ 62 < count <= 2 ^ 63 -> (64 <= fuel)%nat -> 0 <= max_buckets ->
  get_capacity fuel count = Ok 0 /\
  exists st, new fuel count = Ok st /\ capacity_ st = 0 /\ buckets_ st = [].
Proof.
  intros Hc Hfuel Hmax.
  assert (get_capacity fuel count = Ok 0) as Hgc.
  { unfold get_capacity.
    replace (count =? 0) with false
      by (symmetry; apply Z.eqb_neq; change (2 ^ 62) with 4611686018427387904 in Hc; lia).
    change 1 with (2 ^ 0) at 1.
    rewrite (get_capacity_loop_top count 63 Hc fuel 0) by (done || lia).
    reflexivity. }
  split; [done|]. unfold new. rewrite Hgc. cbn [bind].
  replace (max_buckets <? 0) with false by (symmetry; apply Z.ltb_ge; lia).
  by eexists.
Qed.

Lemma get_capacity_loop_diverges count fuel :
  2 ^ 63 < count ->
  forall size, (size = 0 \/ exists i, 0 <= i <= 63 /\ size = 2 ^ i) ->
    get_capacity_loop fuel size count = Err OutOfFuel.
Proof.
  intros Hc. induction fuel as [|fuel IH]; intros size Hsize; [done|].
  cbn [get_capacity_loop].
  assert (0 < 2 ^ 63) as Hpos by done.
  destruct Hsize as [->|(i & Hi & ->)].
  - replace (0 <? count) with true by (symmetry; apply Z.ltb_lt; lia).
    apply IH. by left.
  - assert (2 ^ i <= 2 ^ 63) as Hle by (apply Z.pow_le_mono_r; lia).
    replace (2 ^ i <? count) with true by (symmetry; apply Z.ltb_lt; lia).
    apply IH. rewrite Z.shiftl_mul_pow2 by lia.
    replace (2 ^ i * 2 ^ 1) with (2 ^ (i + 1))
      by (rewrite Z.pow_add_r by lia; reflexivity).
    destruct (Z.eq_dec i 63) as [->|Hne].
    + left. reflexivity.
    + right. exists (i + 1). split; [lia|].
      assert (2 ^ (i + 1) <= 2 ^ 63) as Hle' by (apply Z.pow_le_mono_r; lia).
      assert (0 < 2 ^ (i + 1)) by (apply Z.pow_pos_nonneg; lia).
      apply wrap_small. unfold SIZE_MAX.
      change (2 ^ 63) with 9223372036854775808 in Hle'. lia.
Qed.

(** X13: for a count above [2 ^ 63] the loop of [get_capacity] never ends:
    the size it doubles wraps around to 0 and stays below the count.  The
    constructor called with such a count does not return. *)
Theorem get_capacity_diverges count fuel :
  2 ^ 63 < count ->
  get_capacity fuel count = Err OutOfFuel /\
  new fuel count = Err OutOfFuel.
Proof.
  intros Hc.
  assert (get_capacity fuel count = Err OutOfFuel) as Hgc.
  { unfold get_capacity. assert (0 < 2 ^ 63) as Hpos by done.
    replace (count =? 0) with false by (symmetry; apply Z.eqb_neq; lia).
    rewrite (get_capacity_loop_diverges count fuel Hc 1); [done|].
    right. exists 0. split; [lia|done]. }
  split; [done|]. unfold new. by rewrite Hgc.
Qed.

(** X14: [insert] rehashes exactly when the key is new and the table has
    reached its grow threshold; the bucket vector then grows to
    [get_capacity(size_ + 1)] buckets, and is left alone otherwise. *)
Theorem insert_grows_exactly_at_threshold st k v fuel st' :
  reachable st -> enough st fuel -> absent st k ->
  insert fuel st (k, v) = Ok st' ->
  (size_ st <> max_size_ st -> capacity_ st' = capacity_ st) /\
  (size_ st = max_size_ st ->
   get_capacity fuel (size_ st + 1) = Ok (capacity_ st') /\
   capacity_ st < capacity_ st').
Proof.
  intros Hr Hfuel Habs Hrun. pose proof (reachable_wf st Hr) as Hwf.
  unfold insert in Hrun. apply bind_Ok in Hrun as ([F a] & Hrun & [= <-]).
  cbn [fst] in *.
  destruct (insert_hashed_absent_cases st (k, v) fuel Hwf Habs Hfuel)
    as [(_ & _ & Herr)|(F' & a' & Hrun' & _ & _ & Hgrow & Hkeep)];
    cbn [fst] in *; [congruence|].
  assert (F' = F) as -> by congruence.
  split; [done|]. intros Hfull.
  destruct (Hgrow Hfull) as (c & Hc & _ & -> & Hlt). done.
Qed.

(** X15: [erase] of a stored key rebuilds the table exactly when entries
    are left and their number has dropped below the shrink threshold; the
    bucket vector then shrinks to [get_capacity(size_)] buckets, and keeps
    its length otherwise. *)
Theorem erase_shrinks_below_threshold st k v fuel :
  reachable st -> stored st k v -> enough st fuel ->
  exists st', erase fuel st k = Ok st' /\
    (size_ st = 1 \/ min_size_ st <= size_ st - 1 ->
     capacity_ st' = capacity_ st) /\
    (size_ st <> 1 -> size_ st - 1 < min_size_ st ->
     get_capacity fuel (size_ st - 1) = Ok (capacity_ st') /\
     capacity_ st' < capacity_ st).
Proof.
  intros Hr Hst Hfuel. pose proof (reachable_wf st Hr) as Hwf.
  destruct (erase_present_shape st k v fuel Hwf Hst Hfuel)
    as (F & Hrun & _ & _ & _ & Hkeep & Hshrink).
  by exists F.
Qed.

(** * The overloads that take a hash *)

Lemma check_foreign st p k h :
  wf st -> h <> hasher_ k -> 0 <= p -> (capacity_ st <> 0 -> p < capacity_ st) ->
  check st p k h = Ok false.
Proof.
  intros Hwf Hh Hp Hpc. pose proof (wf_geo st Hwf) as Hg. unfold check.
  destruct (map_empty st) eqn:Hemp; [done|].
  assert (capacity_ st <> 0) as Hne.
  { intros Hz. destruct (wf_capacity_zero st Hwf Hz) as [_ Hs].
    unfold map_empty in Hemp. rewrite Hs in Hemp. done. }
  destruct (lookup_total st p Hg) as [b Hl]; [split; [done|by apply Hpc]|].
  rewrite (bucket_at_Some st p b Hl). cbn [bind].
  pose proof (wf_slots st Hwf p b Hp Hl) as Hok.
  destruct (bucket_empty b) eqn:Hb; [done|].
  destruct (hash_ b =? h) eqn:Hhash; [|done]. apply Z.eqb_eq in Hhash.
  simpl negb. cbv iota. unfold bucket_get.
  destruct (value_ b) as [kv|] eqn:Hv.
  - cbn [bind]. f_equal. apply bool_decide_eq_false. intros Hk.
    destruct (occupied_facts st p b kv Hg Hne Hok Hv) as (_ & _ & Hhb & _).
    apply Hh. congruence.
  - pose proof (dead_empty st p b Hok Hv). congruence.
Qed.

(** X16: [erase(key, hash)] called with a hash that is not the hash of the
    key changes nothing, even when the key is stored. *)
Theorem erase_with_foreign_hash_is_noop st k h fuel :
  reachable st -> h <> hasher_ k -> (Z.to_nat (capacity_ st) < fuel)%nat ->
  erase_hashed fuel st k h = Ok st.
Proof.
  intros Hr Hh Hfuel. pose proof (reachable_wf st Hr) as Hwf.
  unfold erase_hashed.
  destruct (find_bucket_total st k h fuel Hwf Hfuel) as (r & -> & Hr0 & Hrc).
  cbn [bind]. by rewrite (check_foreign st r k h).
Qed.

(** X17: [rehash] to a power of two that is at least twice the number of
    entries returns a table of that many buckets with the same bindings
    and the same answers of [at]. *)
Theorem rehash_keeps_bindings st j fuel :
  reachable st -> 1 <= j <= 63 -> size st <= 2 ^ (j - 1) ->
  2 ^ j <= max_buckets -> (Z.to_nat (2 ^ j) < fuel)%nat ->
  exists F, rehash fuel (2 ^ j) st = Ok F /\
    capacity_ F = 2 ^ j /\ size F = size st /\
    (forall k v, stored F k v <-> stored st k v) /\
    forall k fuel', (Z.to_nat (capacity_ st) < fuel')%nat ->
                    (Z.to_nat (capacity_ F) < fuel')%nat ->
                    at_ fuel' F k = at_ fuel' st k.
Proof.
  intros Hr Hj Hsize Hfit Hfuel. pose proof (reachable_wf st Hr) as Hwf.
  unfold size in *.
  destruct (rehash_with_spec fuel st j) as (F & Hrun & HwfF & HcF & HpermF);
    try done; try apply Hwf.
  { by rewrite <- (wf_size st Hwf). }
  assert (forall k v, stored F k v <-> stored st k v) as Hsame
    by (intros k v; by rewrite <- !contents_stored, HpermF).
  exists F. split_and!; try done.
  - by rewrite (wf_size F HwfF), (wf_size st Hwf), HpermF.
  - intros k fuel' Hf1 Hf2. destruct (stored_dec st k Hwf) as [[v Hst]|Habs].
    + rewrite (at_stored st k v fuel') by done.
      apply at_stored; [done|by apply Hsame|done].
    + rewrite (at_absent st k fuel') by done.
      apply at_absent; [done| |done]. intros v Hst. apply (Habs v).
      by apply Hsame.
Qed.

(** * What every entry satisfies *)

(** X18: in every map the interface has built, an entry caches the hash of
    its key, its distance is [get_distance] from the ideal bucket of that
    hash to its position, and no other bucket holds its key. *)
Theorem entries_are_consistent st p b kv :
  reachable st -> 0 <= p -> st @ p = Some b -> value_ b = Some kv ->
  hash_ b = hasher_ (fst kv) /\
  distance_ b = get_distance st (get_ideal st (hash_ b)) p /\
  forall q b' kv', 0 <= q -> st @ q = Some b' -> value_ b' = Some kv' ->
                   fst kv' = fst kv -> q = p.
Proof.
  intros Hr Hp Hl Hv. pose proof (reachable_wf st Hr) as Hwf.
  pose proof (wf_geo st Hwf) as Hg.
  pose proof (lookup_range st p b Hg Hp Hl) as Hpc.
  assert (capacity_ st <> 0) as Hne by lia.
  destruct (occupied_facts st p b kv Hg Hne (wf_slots st Hwf p b Hp Hl) Hv)
    as (_ & _ & Hh & Hd).
  split_and!; [done| |].
  - rewrite get_distance_spec, get_ideal_spec by done.
    by rewrite Zminus_mod_idemp_r, Hh.
  - intros q b' kv' Hq Hl' Hv' Hk.
    by apply (wf_keys st Hwf q p b' b kv' kv).
Qed.

(** X19: the Robin Hood ordering: the buckets between the ideal bucket of
    an entry and the entry are all occupied, and the entry [m] buckets ahead
    of an entry at distance [d] is at a distance of at least [d - m]. *)
Theorem probe_run_has_no_gap st p b m :
  reachable st -> 0 <= p -> st @ p = Some b -> value_ b <> None ->
  0 <= m <= distance_ b ->
  exists b', st @ ((p - m) mod capacity_ st) = Some b' /\
             value_ b' <> None /\ distance_ b - m <= distance_ b'.
Proof.
  intros Hr Hp Hl Hv Hm. pose proof (reachable_wf st Hr) as Hwf.
  destruct (rh_chain st (wf_geo st Hwf) (wf_slots st Hwf) (wf_rh st Hwf)
              (Z.to_nat m) p b Hp Hl Hv) as (b' & Hl' & Hv' & Hd'); [lia|].
  rewrite Z2Nat.id in * by lia. by exists b'.
Qed.

Lemma next_bucket_iter st a (n : nat) :
  geometry st -> capacity_ st <> 0 -> 0 <= a < capacity_ st ->
  Nat.iter n (next_bucket st) a = (a + Z.of_nat n) mod capacity_ st.
Proof.
  intros Hg Hne Ha. induction n as [|n IH].
  - simpl. rewrite Z.add_0_r. symmetry. by apply Z.mod_small.
  - cbn [Nat.iter nat_rect]. change (nat_rect _ a (fun _ => next_bucket st) n)
      with (Nat.iter n (next_bucket st) a).
    rewrite IH, next_bucket_spec by done. rewrite Zplus_mod_idemp_l.
    f_equal. lia.
Qed.

(** X20: [get_distance(a, p)] is the number of [next_bucket] steps that lead
    from bucket [a] to bucket [p], and is less than the capacity. *)
Theorem get_distance_counts_next_bucket_steps st a p :
  reachable st -> 0 <= a < capacity_ st -> 0 <= p < capacity_ st ->
  0 <= get_distance st a p < capacity_ st /\
  Nat.iter (Z.to_nat (get_distance st a p)) (next_bucket st) a = p.
Proof.
  intros Hr Ha Hpc. pose proof (reachable_wf st Hr) as Hwf.
  pose proof (wf_geo st Hwf) as Hg.
  assert (capacity_ st <> 0) as Hne by lia.
  rewrite get_distance_spec by done.
  pose proof (Z.mod_pos_bound (p - a) (capacity_ st) ltac:(lia)) as Hd.
  split; [done|]. rewrite next_bucket_iter by done.
  rewrite Z2Nat.id by lia. rewrite Zplus_mod_idemp_r.
  replace (a + (p - a)) with p by lia. apply Z.mod_small. lia.
Qed.

(** * Iterators of [find] and references of [operator[]] *)

(** X21: [find] of a stored key returns an iterator that differs from
    [end()] and refers to the pair of the key; a traversal that goes on from
    it yields that pair first and then the pairs of the later buckets.
    [find] of an absent key returns an iterator equal to [end()]. *)
Theorem find_iterator_refers_to_pair st k fuel :
  reachable st -> (length (buckets_ st) < fuel)%nat ->
  exists it, find_iterator fuel st k = Ok it /\
    (forall v, stored st k v ->
       iterator_ne it (end_iterator st) = true /\
       iterator_get st it = Ok (k, v) /\
       exists rest, iterate fuel st it = Ok ((k, v) :: rest) /\
                    ((k, v) :: rest) `suffix_of` contents st) /\
    (absent st k -> iterator_eq it (end_iterator st) = true).
Proof.
  intros Hr Hfuel. pose proof (reachable_wf st Hr) as Hwf.
  pose proof (wf_geo st Hwf) as Hg. pose proof (geo_len st Hg) as Hlen.
  assert (Z.to_nat (capacity_ st) < fuel)%nat as Hfuel' by lia.
  unfold find_iterator.
  destruct (stored_dec st k Hwf) as [[v Hst]|Habs].
  - pose proof Hst as (p & b & Hp & Hl & Hv).
    pose proof (stored_size st k v Hwf Hst) as Hsz.
    pose proof (lookup_range st p b Hg Hp Hl) as Hpc.
    assert (find fuel st k = Ok (Some p)) as ->.
    { unfold find, map_empty.
      replace (size_ st =? 0) with false by (symmetry; apply Z.eqb_neq; lia).
      rewrite (find_bucket_stored st k v p b fuel) by done. cbn [bind].
      by rewrite (check_stored st p b k v). }
    cbn [bind]. eexists. split; [done|]. split.
    + intros v' Hst'. assert (v' = v) as -> by (by eapply stored_functional).
      unfold iterator_ne, iterator_eq, end_iterator, position_iterator,
        iterator_get. cbn [current_ end_]. rewrite Z.eqb_refl.
      split_and!.
      * apply negb_true_iff, Z.eqb_neq. lia.
      * rewrite (bucket_at_Some st p b Hl). cbn [bind]. unfold bucket_get.
        by rewrite Hv.
      * exists (omap value_ (drop (S (Z.to_nat p)) (buckets_ st))).
        assert (omap value_ (drop (Z.to_nat p) (buckets_ st))
                = (k, v) :: omap value_ (drop (S (Z.to_nat p)) (buckets_ st)))
          as Hdrop.
        { rewrite (drop_S _ _ _ Hl). simpl. by rewrite Hv. }
        split.
        -- rewrite <- Hdrop. rewrite <- (Z2Nat.id p) at 1 by lia.
           apply iterate_spec; [done|lia| |lia].
           intros _. by exists b, (k, v).
        -- exists (omap value_ (take (Z.to_nat p) (buckets_ st))).
           rewrite <- Hdrop, <- omap_app, take_drop. done.
    + intros Habs. destruct (stored_absent st k v Hst Habs).
  - rewrite (find_absent st k fuel Hwf Habs Hfuel'). cbn [bind].
    eexists. split; [done|]. split.
    + intros v Hst. destruct (stored_absent st k v Hst Habs).
    + intros _. unfold iterator_eq, end_iterator. cbn [current_ end_].
      by rewrite !Z.eqb_refl.
Qed.

(** X22: when [operator[]] returns, the bucket it refers to holds the key:
    with the stored value and an unchanged map when the key was bound, with
    the default value when it was not; in that case the key has been added
    and every other key is bound as before. *)
Theorem index_refers_to_entry_of_key st k fuel st' p :
  reachable st -> index fuel st k = Ok (st', p) ->
  exists b v, 0 <= p /\ st' @ p = Some b /\ value_ b = Some (k, v) /\
    ((stored st k v /\ st' = st) \/
     (absent st k /\ v = default_value /\ size st' = size st + 1 /\
      forall k' v', k' <> k -> (stored st' k' v' <-> stored st k' v'))).
Proof.
  intros Hr Hrun. pose proof (reachable_wf st Hr) as Hwf.
  destruct (index_entry st k fuel st' p Hwf Hrun)
    as (Hwf' & Hp & (b & v & Hl & Hv) & Hcases).
  exists b, v. split_and!; try done.
  assert (stored st' k v) as Hst' by (by exists p, b).
  destruct Hcases as [(v0 & Hst & ->)|[Habs Hperm]].
  - left. split; [|done]. by rewrite (stored_functional st k v v0 Hwf Hst' Hst).
  - right. pose proof (stored_cons_iff st st' _ Hperm) as Hiff.
    split_and!; try done.
    + apply Hiff in Hst' as [[= ->]|Hst]; [done|].
      destruct (stored_absent st k v Hst Habs).
    + unfold size. rewrite (wf_size st' Hwf'), (wf_size st Hwf), Hperm.
      rewrite length_cons. lia.
    + intros k' v' Hne. rewrite Hiff. split; [|by right].
      intros [[= -> ->]|H']; done.
Qed.

End HashMapModel.

(** * Integer keys hashed by their value

    The instance [std::hash<size_t>] of common standard libraries is the
    identity; concrete tables over it serve as inputs. *)

Module IntKeys.

Definition identity_hash (k : Z) : Z := wrap k.

(** A bound on the length of a bucket vector. *)
Definition vector_limit : Z := 1048576.

Abbreviation table := (@HashMap Z Z).
Abbreviation t_new := (@new Z Z vector_limit).
Abbreviation t_insert := (@insert Z Z _ identity_hash vector_limit).
Abbreviation t_erase := (@erase Z Z _ identity_hash vector_limit).
Abbreviation t_at := (@at_ Z Z _ identity_hash).
Abbreviation t_reachable := (@reachable Z Z _ identity_hash 0 vector_limit).
Abbreviation t_insert_all := (@insert_all Z Z _ identity_hash vector_limit).
Abbreviation t_index_assign :=
  (@index_assign Z Z _ identity_hash 0 vector_limit).
Abbreviation t_from_range := (@from_range Z Z _ identity_hash vector_limit).
Abbreviation t_from_list := (@from_list Z Z _ identity_hash vector_limit).
Abbreviation t_erase_hashed := (@erase_hashed Z Z _ identity_hash vector_limit).
Abbreviation t_rehash := (@rehash Z Z _ identity_hash vector_limit).
Abbreviation t_find := (@find Z Z _ identity_hash).
Abbreviation t_index := (@index Z Z _ identity_hash 0 vector_limit).

Definition empty_bucket : @HashBucket Z Z := new_bucket.

Definition entry (k v d : Z) : @HashBucket Z Z :=
  {| value_ := Some (k, v); hash_ := k; distance_ := d |}.

(** The default-constructed map. *)
Definition t_empty : table := Map 0 0 0 [] 0 0.

(** After inserting (5, 50) into [t_empty]. *)
Definition t_one : table := Map 1 2 1 [empty_bucket; entry 5 50 0] 1 0.

(** After inserting (6, 60) into [t_one]. *)
Definition t_two : table :=
  Map 2 4 3 [empty_bucket; entry 5 50 0; entry 6 60 0; empty_bucket] 3 0.

(** A table of capacity 4 with the keys 0, 1 and 3. *)
Definition t_sized : table :=
  Map 0 4 3 [empty_bucket; empty_bucket; empty_bucket; empty_bucket] 3 0.
Definition t_three : table :=
  Map 3 4 3 [entry 0 0 0; entry 1 10 0; empty_bucket; entry 3 30 0] 3 0.

(** Absence of a key from a concrete table. *)
Ltac solve_absent :=
  apply absent_keys; simpl;
  let H := fresh in
  intros H;
  repeat (apply elem_of_cons in H as [H|H]; [discriminate H|]);
  by apply elem_of_nil in H.

(** The table right after the entry of key 1 of [t_three] is destroyed. *)
Definition t_three_gap : table := erased_at t_three 1 (entry 1 10 0).

(** [t_one] after its only key is erased. *)
Definition t_one_erased : table :=
  Map 0 2 1
    [empty_bucket;
     {| value_ := None; hash_ := 5; distance_ := UNOCCUPIED |}] 1 0.

(** The keys 0 and 4 share the ideal bucket 0 of a table of capacity 4. *)
Definition t_zero_four : table :=
  Map 2 4 3 [entry 0 0 0; entry 4 40 1; empty_bucket; empty_bucket] 3 0.
Definition t_four_zero : table :=
  Map 2 4 3 [entry 4 40 0; entry 0 0 1; empty_bucket; empty_bucket] 3 0.

(** [t_one] after [m[6] = 66]. *)
Definition t_one_more : table :=
  Map 2 4 3 [empty_bucket; entry 5 50 0; entry 6 66 0; empty_bucket] 3 0.

(** [t_one] after [m[6]]. *)
Definition t_one_default : table :=
  Map 2 4 3 [empty_bucket; entry 5 50 0; entry 6 0 0; empty_bucket] 3 0.

(** [t_three] after the insertion of (2, 20), which makes it grow. *)
Definition t_four : table :=
  Map 4 8 7
    [entry 0 0 0; entry 1 10 0; entry 2 20 0; entry 3 30 0;
     empty_bucket; empty_bucket; empty_bucket; empty_bucket] 7 1.

(** A table created for 5 entries, empty and with the keys 1, 2 and 3. *)
Definition t_wide_empty : table :=
  Map 0 16 15 (replicate 16 empty_bucket) 13 3.
Definition t_wide : table :=
  Map 3 16 15
    (empty_bucket :: entry 1 10 0 :: entry 2 20 0 :: entry 3 30 0
       :: replicate 12 empty_bucket) 13 3.

Lemma vector_limit_bound : vector_limit <= SIZE_MAX / 2.
Proof. by vm_compute. Qed.

Lemma t_empty_reachable : t_reachable t_empty.
Proof. by apply (reach_new _ _ _ 1%nat 0). Defined.

Lemma t_one_reachable : t_reachable t_one.
Proof.
  apply (reach_step _ _ _ t_empty); [apply t_empty_reachable|].
  by apply (step_insert _ _ _ 10%nat _ (5, 50)).
Defined.

Lemma t_two_reachable : t_reachable t_two.
Proof.
  apply (reach_step _ _ _ t_one); [apply t_one_reachable|].
  by apply (step_insert _ _ _ 10%nat _ (6, 60)).
Defined.

Lemma t_sized_reachable : t_reachable t_sized.
Proof. by apply (reach_new _ _ _ 3%nat 2). Defined.

Lemma t_three_reachable : t_reachable t_three.
Proof.
  pose proof t_sized_reachable as H0.
  assert (forall a b kv, t_reachable a -> t_insert 10%nat a kv = Ok b ->
                         t_reachable b) as Hstep.
  { intros a b kv Ha Hab. apply (reach_step _ _ _ a); [done|].
    by apply (step_insert _ _ _ 10%nat _ kv). }
  apply (Hstep _ _ (3, 30)
           (Hstep _ _ (1, 10) (Hstep _ _ (0, 0) H0 eq_refl) eq_refl)).
  reflexivity.
Defined.


(** ** Witnesses and counterexamples *)

Lemma insert_find_round_trip_witness :
  t_reachable t_empty /\ absent t_empty 5 /\
  t_insert 10%nat t_empty (5, 50) = Ok t_one /\
  rtc (keeps identity_hash 0 vector_limit 5) t_one t_two /\
  (Z.to_nat (capacity_ t_two) < 10)%nat /\
  t_at 10%nat t_two 5 = Ok 50 /\
  exists it, find identity_hash 10%nat t_two 5 = Ok it /\
             deref t_two it = Ok (5, 50).
Proof.
  assert (absent t_empty 5) as Habs by solve_absent.
  assert (rtc (keeps identity_hash 0 vector_limit 5) t_one t_two) as Hrtc.
  { apply rtc_once.
    by apply (keeps_insert identity_hash 0 vector_limit 5 10%nat t_one (6, 60)). }
  assert ((Z.to_nat (capacity_ t_two) < 10)%nat) as Hfuel by (simpl; lia).
  split; [apply t_empty_reachable|]. split; [exact Habs|].
  split; [reflexivity|]. split; [exact Hrtc|]. split; [exact Hfuel|].
  exact (insert_find_round_trip identity_hash 0 vector_limit vector_limit_bound
           t_empty 5 50 10%nat t_one t_two 10%nat
           t_empty_reachable Habs eq_refl Hrtc Hfuel).
Defined.

(** C1, as stated, fails: inserting (5, 77) into a map that holds (5, 50)
    leaves the value 50 in place. *)
Lemma insert_present_key_keeps_old_value :
  t_reachable t_one /\ t_insert 10%nat t_one (5, 77) = Ok t_one /\
  t_at 10%nat t_one 5 = Ok 50 /\ t_at 10%nat t_one 5 <> Ok 77.
Proof.
  split; [apply t_one_reachable|]. split; [reflexivity|].
  split; [reflexivity|]. discriminate.
Qed.

Lemma erase_loop_refines_backward_shift_witness :
  t_reachable t_three /\ 0 <= 1 /\
  buckets_ t_three !! Z.to_nat 1 = Some (entry 1 10 0) /\
  value_ (entry 1 10 0) = Some (1, 10) /\
  map_empty t_three_gap = false /\
  (size_ t_three_gap <? min_size_ t_three_gap) = false /\
  enough t_three 82%nat /\
  exists F gap ts ts' bt bs,
    erase_loop 82%nat t_three_gap 1 (next_bucket t_three 1) = Ok (F, gap, ts) /\
    backward_shift_spec 82%nat t_three_gap 1 (next_bucket t_three 1)
      = Ok (F, gap, ts') /\
    t_erase 82%nat t_three 1 = Ok F /\
    bucket_at F ts = Ok bt /\ distance_ bt = 0 /\
    bucket_at F ts' = Ok bs /\ (bucket_empty bs = true \/ distance_ bs = 0).
Proof.
  assert (enough t_three 82%nat) as Hfuel by (unfold enough; simpl; lia).
  split; [apply t_three_reachable|]. split; [lia|]. split; [reflexivity|].
  split; [reflexivity|]. split; [reflexivity|]. split; [reflexivity|].
  split; [exact Hfuel|].
  exact (erase_loop_refines_backward_shift identity_hash 0 vector_limit
           vector_limit_bound t_three 1 10 1 (entry 1 10 0) 82%nat
           t_three_reachable (Z.le_0_1) eq_refl eq_refl eq_refl eq_refl Hfuel).
Defined.

(** C2, as stated, fails: behind the freed slot 1 of [t_three] the first
    slot encountered, slot 2, is empty, and the loop of [erase] does not
    stop there: it ends at slot 3.  The pass of the specification ends at
    slot 2; the table is the same. *)
Lemma erase_loop_scans_past_empty_slot :
  t_reachable t_three /\ next_bucket t_three 1 = 2 /\
  bucket_at t_three_gap 2 = Ok empty_bucket /\
  bucket_empty empty_bucket = true /\
  erase_loop 10%nat t_three_gap 1 2 = Ok (t_three_gap, 1, 3) /\
  backward_shift_spec 10%nat t_three_gap 1 2 = Ok (t_three_gap, 1, 2).
Proof. split; [apply t_three_reachable|]. by split_and!. Qed.

Lemma erase_only_key_keeps_capacity_witness :
  t_reachable t_one /\ stored t_one 5 50 /\ size_ t_one = 1 /\
  (Z.to_nat (capacity_ t_one) < 10)%nat /\
  exists F, t_erase 10%nat t_one 5 = Ok F /\ size_ F = 0 /\
    capacity_ F = capacity_ t_one /\ capacity_ F <> 0 /\
    mask_ F = mask_ t_one /\ max_size_ F = max_size_ t_one /\
    min_size_ F = min_size_ t_one /\
    length (buckets_ F) = length (buckets_ t_one) /\
    forall q e, buckets_ F !! Z.to_nat q = Some e -> bucket_empty e = true.
Proof.
  assert (stored t_one 5 50) as Hst.
  { exists 1, (entry 5 50 0). split; [lia|]. by split. }
  assert ((Z.to_nat (capacity_ t_one) < 10)%nat) as Hfuel by (simpl; lia).
  split; [apply t_one_reachable|]. split; [exact Hst|].
  split; [reflexivity|]. split; [exact Hfuel|].
  exact (erase_only_key_keeps_capacity identity_hash 0 vector_limit
           vector_limit_bound t_one 5 50 10%nat
           t_one_reachable Hst eq_refl Hfuel).
Defined.

(** C3, as stated, fails: erasing the only key of [t_one] leaves a table of
    capacity 2, not the default one of capacity 0. *)
Lemma erase_only_key_leaves_two_buckets :
  t_reachable t_one /\ size_ t_one = 1 /\ stored t_one 5 50 /\
  t_erase 10%nat t_one 5 = Ok t_one_erased /\
  size_ t_one_erased = 0 /\ capacity_ t_one_erased = 2 /\
  capacity_ t_one_erased <> 0.
Proof.
  split; [apply t_one_reachable|]. split; [reflexivity|]. split.
  { exists 1, (entry 5 50 0). split; [lia|]. by split. }
  by split_and!.
Qed.

Lemma second_insert_grows_to_four_witness :
  5 <> 6 /\ 4 <= vector_limit /\ (74 <= 74)%nat /\
  exists m0 m1 m2,
    t_new 74%nat 0 = Ok m0 /\ capacity_ m0 = 0 /\
    t_insert 74%nat m0 (5, 50) = Ok m1 /\ capacity_ m1 = 2 /\
    max_size_ m1 = 1 /\
    t_insert 74%nat m1 (6, 60) = Ok m2 /\ capacity_ m2 = 4.
Proof.
  assert (5 <> 6) as Hne by lia.
  assert (4 <= vector_limit) as Hlim by (unfold vector_limit; lia).
  assert ((74 <= 74)%nat) as Hfuel by lia.
  split; [exact Hne|]. split; [exact Hlim|]. split; [exact Hfuel|].
  exact (second_insert_grows_to_four identity_hash vector_limit
           vector_limit_bound 5 50 6 60 74%nat Hne Hlim Hfuel).
Defined.

(** C4, as stated, fails: the second distinct key does not fit into the
    table of capacity 2, the table grows to capacity 4. *)
Lemma second_key_grows_capacity :
  t_new 10%nat 0 = Ok t_empty /\ capacity_ t_empty = 0 /\
  t_insert 10%nat t_empty (5, 50) = Ok t_one /\ capacity_ t_one = 2 /\
  t_insert 10%nat t_one (6, 60) = Ok t_two /\ capacity_ t_two = 4 /\
  capacity_ t_two <> 2.
Proof. by split_and!. Qed.

(** C5, as stated, fails: the keys 0 and 4, inserted in the two orders into
    the empty table [t_sized] of capacity 4, end up in different slots. *)
Lemma same_ideal_keys_lie_in_insertion_order :
  t_reachable t_sized /\ contents t_sized = [] /\
  (do a <- t_insert 10%nat t_sized (0, 0); t_insert 10%nat a (4, 40))
    = Ok t_zero_four /\
  (do a <- t_insert 10%nat t_sized (4, 40); t_insert 10%nat a (0, 0))
    = Ok t_four_zero /\
  buckets_ t_zero_four !! 0%nat = Some (entry 0 0 0) /\
  buckets_ t_four_zero !! 0%nat = Some (entry 4 40 0) /\
  buckets_ t_zero_four <> buckets_ t_four_zero.
Proof.
  split; [by apply (reach_new _ _ _ 3%nat 2)|]. by split_and!.
Qed.

Lemma at_not_found_iff_absent_witness :
  t_reachable t_one /\ (Z.to_nat (capacity_ t_one) < 10)%nat /\
  (t_at 10%nat t_one 7 = Err OutOfRange <-> absent t_one 7) /\
  (forall v, t_at 10%nat t_one 7 = Ok v <-> stored t_one 7 v) /\
  (map_empty t_one = true -> t_at 10%nat t_one 7 = Err OutOfRange) /\
  (t_at 10%nat t_one 7 = Err OutOfRange \/
   exists v, t_at 10%nat t_one 7 = Ok v).
Proof.
  assert ((Z.to_nat (capacity_ t_one) < 10)%nat) as Hfuel by (simpl; lia).
  split; [apply t_one_reachable|]. split; [exact Hfuel|].
  exact (at_not_found_iff_absent identity_hash 0 vector_limit
           vector_limit_bound t_one 7 10%nat t_one_reachable Hfuel).
Defined.

Lemma erase_absent_is_noop_witness :
  t_reachable t_one /\ absent t_one 7 /\
  (Z.to_nat (capacity_ t_one) < 10)%nat /\
  t_erase 10%nat t_one 7 = Ok t_one.
Proof.
  assert (absent t_one 7) as Habs by solve_absent.
  assert ((Z.to_nat (capacity_ t_one) < 10)%nat) as Hfuel by (simpl; lia).
  split; [apply t_one_reachable|]. split; [exact Habs|].
  split; [exact Hfuel|].
  exact (erase_absent_is_noop identity_hash 0 vector_limit vector_limit_bound
           t_one 7 10%nat t_one_reachable Habs Hfuel).
Defined.

Lemma capacity_zero_or_power_of_two_witness :
  t_reachable t_two /\
  ((capacity_ t_two = 0 /\ mask_ t_two = 0) \/
   (exists k, 1 <= k /\ capacity_ t_two = 2 ^ k /\
              mask_ t_two = capacity_ t_two - 1)).
Proof.
  split; [apply t_two_reachable|].
  exact (capacity_zero_or_power_of_two identity_hash 0 vector_limit
           vector_limit_bound t_two t_two_reachable).
Defined.

(** C8, as stated, fails: the default-constructed map has capacity 0 and
    mask 0, which is not capacity - 1, neither as an integer nor as a
    [size_t]. *)
Lemma empty_map_mask_is_zero :
  t_reachable t_empty /\ capacity_ t_empty = 0 /\ mask_ t_empty = 0 /\
  mask_ t_empty <> capacity_ t_empty - 1 /\
  mask_ t_empty <> wrap (capacity_ t_empty - 1).
Proof. split; [apply t_empty_reachable|]. by split_and!. Qed.

Lemma occupied_distance_below_capacity_witness :
  t_reachable t_zero_four /\ 0 <= 1 /\
  buckets_ t_zero_four !! Z.to_nat 1 = Some (entry 4 40 1) /\
  (value_ (entry 4 40 1) <> None ->
   0 <= distance_ (entry 4 40 1) < capacity_ t_zero_four /\
   distance_ (entry 4 40 1) <> UNOCCUPIED /\
   bucket_empty (entry 4 40 1) = false) /\
  (value_ (entry 4 40 1) = None <-> distance_ (entry 4 40 1) = UNOCCUPIED) /\
  capacity_ t_zero_four < UNOCCUPIED.
Proof.
  assert (t_reachable t_zero_four) as Hreach.
  { apply (reach_step _ _ _
             (Map 1 4 3 [entry 0 0 0; empty_bucket; empty_bucket; empty_bucket]
                  3 0)).
    - apply (reach_step _ _ _ t_sized);
        [by apply (reach_new _ _ _ 3%nat 2)|].
      by apply (step_insert _ _ _ 10%nat _ (0, 0)).
    - by apply (step_insert _ _ _ 10%nat _ (4, 40)). }
  split; [exact Hreach|]. split; [lia|]. split; [reflexivity|].
  exact (occupied_distance_below_capacity identity_hash 0 vector_limit
           vector_limit_bound t_zero_four 1 (entry 4 40 1)
           Hreach Z.le_0_1 eq_refl).
Defined.

Lemma probe_loops_terminate_witness :
  t_reachable t_two /\ capacity_ t_two <> 0 /\
  size_ t_two <= max_size_ t_two /\ max_size_ t_two <= mask_ t_two /\
  mask_ t_two = capacity_ t_two - 1 /\ size_ t_two <= capacity_ t_two - 1 /\
  (exists q e, 0 <= q < capacity_ t_two /\
               buckets_ t_two !! Z.to_nat q = Some e /\
               bucket_empty e = true) /\
  forall fuel key value hash,
    (Z.to_nat (capacity_ t_two) < fuel)%nat ->
    (exists r, find_bucket fuel t_two key hash = Ok r) /\
    (exists res,
       insert_loop fuel t_two value hash 0 (get_ideal t_two hash) UNOCCUPIED
       = Ok res).
Proof.
  assert (capacity_ t_two <> 0) as Hne by (simpl; lia).
  split; [apply t_two_reachable|]. split; [exact Hne|].
  exact (probe_loops_terminate identity_hash 0 vector_limit vector_limit_bound
           t_two t_two_reachable Hne).
Defined.

Lemma insertion_order_fixes_layout_up_to_ties_witness :
  t_reachable t_sized /\ contents t_sized = [] /\
  NoDup ([(0, 0); (1, 10); (3, 30)].*1) /\
  [(0, 0); (1, 10); (3, 30)] ≡ₚ [(3, 30); (0, 0); (1, 10)] /\
  t_insert_all 10%nat t_sized [(0, 0); (1, 10); (3, 30)] = Ok t_three /\
  exists fuel2 F2,
    (forall f, (fuel2 <= f)%nat ->
       t_insert_all f t_sized [(3, 30); (0, 0); (1, 10)] = Ok F2) /\
    capacity_ F2 = capacity_ t_three /\
    contents t_three ≡ₚ [(0, 0); (1, 10); (3, 30)] /\
    contents F2 ≡ₚ [(0, 0); (1, 10); (3, 30)] /\
    (forall q b1 b2, 0 <= q ->
       buckets_ t_three !! Z.to_nat q = Some b1 ->
       buckets_ F2 !! Z.to_nat q = Some b2 ->
       distance_ b1 = distance_ b2 /\
       (value_ b1 = None <-> value_ b2 = None) /\
       forall kv1 kv2, value_ b1 = Some kv1 -> value_ b2 = Some kv2 ->
         get_ideal t_three (identity_hash (fst kv1))
         = get_ideal F2 (identity_hash (fst kv2))) /\
    ((forall kv kv', kv ∈ [(0, 0); (1, 10); (3, 30)] ->
        kv' ∈ [(0, 0); (1, 10); (3, 30)] ->
        get_ideal t_three (identity_hash (fst kv))
        = get_ideal t_three (identity_hash (fst kv')) ->
        kv = kv') ->
     layout t_three = layout F2).
Proof.
  assert (contents t_sized = []) as Hempty by reflexivity.
  assert (NoDup ([(0, 0); (1, 10); (3, 30)].*1)) as Hnd
    by (apply (bool_decide_unpack _); by vm_compute).
  assert ([(0, 0); (1, 10); (3, 30)] ≡ₚ [(3, 30); (0, 0); (1, 10)]) as Hperm
    by (apply (bool_decide_unpack _); by vm_compute).
  assert (t_insert_all 10%nat t_sized [(0, 0); (1, 10); (3, 30)] = Ok t_three)
    as Hrun by reflexivity.
  split; [exact t_sized_reachable|]. split; [exact Hempty|].
  split; [exact Hnd|]. split; [exact Hperm|]. split; [exact Hrun|].
  exact (insertion_order_fixes_layout_up_to_ties identity_hash 0 vector_limit
           vector_limit_bound t_sized t_sized _ _ 10%nat t_three
           t_sized_reachable t_sized_reachable Hempty Hempty eq_refl
           Hnd Hperm Hrun).
Defined.

(** ** Instances of the further properties *)

Lemma t_zero_four_reachable : t_reachable t_zero_four.
Proof.
  apply (reach_step _ _ _
           (Map 1 4 3 [entry 0 0 0; empty_bucket; empty_bucket; empty_bucket]
                3 0)).
  - apply (reach_step _ _ _ t_sized); [apply t_sized_reachable|].
    by apply (step_insert _ _ _ 10%nat _ (0, 0)).
  - by apply (step_insert _ _ _ 10%nat _ (4, 40)).
Defined.

Lemma t_wide_reachable : t_reachable t_wide.
Proof.
  assert (t_reachable t_wide_empty) as H0
    by (by apply (reach_new _ _ _ 70%nat 5)).
  assert (forall a b kv, t_reachable a -> t_insert 20%nat a kv = Ok b ->
                         t_reachable b) as Hstep.
  { intros a b kv Ha Hab. apply (reach_step _ _ _ a); [done|].
    by apply (step_insert _ _ _ 20%nat _ kv). }
  apply (Hstep _ _ (3, 30)
           (Hstep _ _ (2, 20) (Hstep _ _ (1, 10) H0 eq_refl) eq_refl)).
  reflexivity.
Defined.

Lemma traversal_yields_stored_pairs_witness :
  t_reachable t_three /\ (length (buckets_ t_three) < 5)%nat /\
  to_list 5%nat t_three = Ok (contents t_three) /\
  Z.of_nat (length (contents t_three)) = size t_three /\
  NoDup ((contents t_three).*1) /\
  forall k v, (k, v) ∈ contents t_three <-> t_at 5%nat t_three k = Ok v.
Proof.
  assert ((length (buckets_ t_three) < 5)%nat) as Hfuel by (simpl; lia).
  split; [exact t_three_reachable|]. split; [exact Hfuel|].
  exact (traversal_yields_stored_pairs identity_hash 0 vector_limit
           vector_limit_bound t_three 5%nat t_three_reachable Hfuel).
Defined.

Lemma begin_is_end_iff_empty_witness :
  t_reachable t_sized /\ (length (buckets_ t_sized) <= 4)%nat /\
  exists it, begin 4%nat t_sized = Ok it /\
             iterator_eq it (end_iterator t_sized) = map_empty t_sized.
Proof.
  assert ((length (buckets_ t_sized) <= 4)%nat) as Hfuel by (simpl; lia).
  split; [exact t_sized_reachable|]. split; [exact Hfuel|].
  exact (begin_is_end_iff_empty identity_hash 0 vector_limit
           vector_limit_bound t_sized 4%nat t_sized_reachable Hfuel).
Defined.

Lemma insert_adds_one_binding_witness :
  t_reachable t_one /\ t_insert 10%nat t_one (6, 60) = Ok t_two /\
  (forall k' v', k' <> 6 -> (stored t_two k' v' <-> stored t_one k' v')) /\
  (absent t_one 6 -> stored t_two 6 60 /\ size t_two = size t_one + 1) /\
  (forall v0, stored t_one 6 v0 -> t_two = t_one) /\
  capacity_ t_one <= capacity_ t_two.
Proof.
  assert (t_insert 10%nat t_one (6, 60) = Ok t_two) as Hrun by reflexivity.
  split; [exact t_one_reachable|]. split; [exact Hrun|].
  exact (insert_adds_one_binding identity_hash 0 vector_limit
           vector_limit_bound t_one 6 60 10%nat t_two t_one_reachable Hrun).
Defined.


Lemma index_assign_binds_key_witness :
  t_reachable t_one /\ t_index_assign 100%nat t_one 6 66 = Ok t_one_more /\
  stored t_one_more 6 66 /\
  (forall k' v', k' <> 6 ->
     (stored t_one_more k' v' <-> stored t_one k' v')) /\
  (absent t_one 6 -> size t_one_more = size t_one + 1) /\
  (forall v0, stored t_one 6 v0 -> size t_one_more = size t_one).
Proof.
  assert (t_index_assign 100%nat t_one 6 66 = Ok t_one_more) as Hrun
    by reflexivity.
  split; [exact t_one_reachable|]. split; [exact Hrun|].
  exact (index_assign_binds_key identity_hash 0 vector_limit
           vector_limit_bound t_one 6 66 100%nat t_one_more
           t_one_reachable Hrun).
Defined.

Lemma lookups_and_updates_return_witness :
  t_reachable t_three /\ enough t_three 100%nat /\
  (forall k, exists it, t_find 100%nat t_three k = Ok it) /\
  (forall kv, (exists st', t_insert 100%nat t_three kv = Ok st') \/
              t_insert 100%nat t_three kv = Err AllocFailure) /\
  (forall k, (exists r, t_index 100%nat t_three k = Ok r) \/
             t_index 100%nat t_three k = Err AllocFailure) /\
  (forall k v, (exists st', t_index_assign 100%nat t_three k v = Ok st') \/
               t_index_assign 100%nat t_three k v = Err AllocFailure).
Proof.
  assert (enough t_three 100%nat) as Hfuel by (unfold enough; simpl; lia).
  split; [exact t_three_reachable|]. split; [exact Hfuel|].
  exact (lookups_and_updates_return identity_hash 0 vector_limit
           vector_limit_bound t_three 100%nat t_three_reachable Hfuel).
Defined.

Lemma insert_fails_iff_growth_impossible_witness :
  t_reachable t_three /\ enough t_three 100%nat /\
  (t_insert 100%nat t_three (2, 20) = Err AllocFailure <->
   absent t_three (fst (2, 20)) /\ size_ t_three = max_size_ t_three /\
   exists c, get_capacity 100%nat (size_ t_three + 1) = Ok c /\
             vector_limit < c).
Proof.
  assert (enough t_three 100%nat) as Hfuel by (unfold enough; simpl; lia).
  split; [exact t_three_reachable|]. split; [exact Hfuel|].
  exact (insert_fails_iff_growth_impossible identity_hash 0 vector_limit
           vector_limit_bound t_three (2, 20) 100%nat
           t_three_reachable Hfuel).
Defined.

Lemma from_range_binds_first_pairs_witness :
  t_from_range 100%nat [(5, 50); (6, 60); (5, 55)] = Ok t_two /\
  t_reachable t_two /\
  (forall k v, stored t_two k v <->
               first_binding [(5, 50); (6, 60); (5, 55)] k = Some v) /\
  size t_two
  = Z.of_nat (length (remove_dups ([(5, 50); (6, 60); (5, 55)].*1))).
Proof.
  assert (t_from_range 100%nat [(5, 50); (6, 60); (5, 55)] = Ok t_two) as Hrun
    by reflexivity.
  split; [exact Hrun|].
  exact (from_range_binds_first_pairs identity_hash 0 vector_limit
           vector_limit_bound [(5, 50); (6, 60); (5, 55)] 100%nat t_two Hrun).
Defined.

Lemma from_range_returns_or_fails_to_allocate_witness :
  vector_limit <= SIZE_MAX / 2 /\
  exists fuel0,
    (exists F, forall fuel, (fuel0 <= fuel)%nat ->
       t_from_range fuel [(5, 50); (6, 60); (5, 55)] = Ok F) \/
    (forall fuel, (fuel0 <= fuel)%nat ->
       t_from_range fuel [(5, 50); (6, 60); (5, 55)] = Err AllocFailure).
Proof.
  split; [exact vector_limit_bound|].
  exact (from_range_returns_or_fails_to_allocate identity_hash vector_limit
           vector_limit_bound [(5, 50); (6, 60); (5, 55)]).
Defined.

Lemma from_list_never_rehashes_witness :
  4 * Z.of_nat (length [(5, 50); (6, 60); (5, 55)]) <= vector_limit /\
  (Z.to_nat (4 * Z.of_nat (length [(5, 50); (6, 60); (5, 55)]) + 66)
   <= 100)%nat /\
  exists F c,
    get_capacity 100%nat (Z.of_nat (length [(5, 50); (6, 60); (5, 55)]))
    = Ok c /\
    t_from_list 100%nat [(5, 50); (6, 60); (5, 55)] = Ok F /\
    capacity_ F = c /\ t_reachable F /\
    forall k v, stored F k v <->
                first_binding [(5, 50); (6, 60); (5, 55)] k = Some v.
Proof.
  assert (4 * Z.of_nat (length [(5, 50); (6, 60); (5, 55)]) <= vector_limit)
    as Hfit by (unfold vector_limit; simpl; lia).
  assert ((Z.to_nat (4 * Z.of_nat (length [(5, 50); (6, 60); (5, 55)]) + 66)
           <= 100)%nat) as Hfuel by (simpl; lia).
  split; [exact Hfit|]. split; [exact Hfuel|].
  exact (from_list_never_rehashes identity_hash 0 vector_limit
           vector_limit_bound [(5, 50); (6, 60); (5, 55)] 100%nat Hfit Hfuel).
Defined.

Lemma new_reserves_room_witness :
  1 <= 5 /\ 4 * 5 <= vector_limit /\ (63 <= 70)%nat /\
  exists (st : table) k,
    t_new 70%nat 5 = Ok st /\ 1 <= k <= 63 /\ capacity_ st = 2 ^ k /\
    2 * 5 <= capacity_ st < 4 * 5 /\
    size st = 0 /\ 5 <= max_size_ st.
Proof.
  assert (1 <= 5) as H1 by lia.
  assert (4 * 5 <= vector_limit) as H2 by (unfold vector_limit; lia).
  assert ((63 <= 70)%nat) as H3 by lia.
  split; [exact H1|]. split; [exact H2|]. split; [exact H3|].
  exact (@new_reserves_room Z Z identity_hash vector_limit vector_limit_bound
           5 70%nat H1 H2 H3).
Defined.

Lemma get_capacity_wraps_to_zero_witness :
  2 ^ 62 < 2 ^ 63 <= 2 ^ 63 /\ (64 <= 64)%nat /\ 0 <= vector_limit /\
  get_capacity 64%nat (2 ^ 63) = Ok 0 /\
  exists st : table,
    t_new 64%nat (2 ^ 63) = Ok st /\ capacity_ st = 0 /\ buckets_ st = [].
Proof.
  assert (2 ^ 62 < 2 ^ 63 <= 2 ^ 63) as H1 by (split; [reflexivity|lia]).
  assert ((64 <= 64)%nat) as H2 by lia.
  assert (0 <= vector_limit) as H3 by (unfold vector_limit; lia).
  split; [exact H1|]. split; [exact H2|]. split; [exact H3|].
  exact (@get_capacity_wraps_to_zero Z Z vector_limit (2 ^ 63) 64%nat
           H1 H2 H3).
Defined.

Lemma get_capacity_diverges_witness :
  2 ^ 63 < 2 ^ 63 + 1 /\
  get_capacity 1000%nat (2 ^ 63 + 1) = Err OutOfFuel /\
  t_new 1000%nat (2 ^ 63 + 1) = Err OutOfFuel.
Proof.
  assert (2 ^ 63 < 2 ^ 63 + 1) as H1 by lia.
  split; [exact H1|].
  exact (@get_capacity_diverges Z Z vector_limit (2 ^ 63 + 1) 1000%nat H1).
Defined.

Lemma insert_grows_exactly_at_threshold_witness :
  t_reachable t_three /\ enough t_three 100%nat /\ absent t_three 2 /\
  t_insert 100%nat t_three (2, 20) = Ok t_four /\
  (size_ t_three <> max_size_ t_three ->
   capacity_ t_four = capacity_ t_three) /\
  (size_ t_three = max_size_ t_three ->
   get_capacity 100%nat (size_ t_three + 1) = Ok (capacity_ t_four) /\
   capacity_ t_three < capacity_ t_four).
Proof.
  assert (enough t_three 100%nat) as Hfuel by (unfold enough; simpl; lia).
  assert (absent t_three 2) as Habs by solve_absent.
  assert (t_insert 100%nat t_three (2, 20) = Ok t_four) as Hrun
    by reflexivity.
  split; [exact t_three_reachable|]. split; [exact Hfuel|].
  split; [exact Habs|]. split; [exact Hrun|].
  exact (insert_grows_exactly_at_threshold identity_hash 0 vector_limit
           vector_limit_bound t_three 2 20 100%nat t_four
           t_three_reachable Hfuel Habs Hrun).
Defined.

Lemma erase_shrinks_below_threshold_witness :
  t_reachable t_wide /\ stored t_wide 2 20 /\ enough t_wide 200%nat /\
  exists st', t_erase 200%nat t_wide 2 = Ok st' /\
    (size_ t_wide = 1 \/ min_size_ t_wide <= size_ t_wide - 1 ->
     capacity_ st' = capacity_ t_wide) /\
    (size_ t_wide <> 1 -> size_ t_wide - 1 < min_size_ t_wide ->
     get_capacity 200%nat (size_ t_wide - 1) = Ok (capacity_ st') /\
     capacity_ st' < capacity_ t_wide).
Proof.
  assert (stored t_wide 2 20) as Hst.
  { exists 2, (entry 2 20 0). split; [lia|]. by split. }
  assert (enough t_wide 200%nat) as Hfuel by (unfold enough; simpl; lia).
  split; [exact t_wide_reachable|]. split; [exact Hst|].
  split; [exact Hfuel|].
  exact (erase_shrinks_below_threshold identity_hash 0 vector_limit
           vector_limit_bound t_wide 2 20 200%nat
           t_wide_reachable Hst Hfuel).
Defined.

Lemma erase_with_foreign_hash_is_noop_witness :
  t_reachable t_one /\ 7 <> identity_hash 5 /\
  (Z.to_nat (capacity_ t_one) < 10)%nat /\
  t_erase_hashed 10%nat t_one 5 7 = Ok t_one.
Proof.
  assert (7 <> identity_hash 5) as Hh by (vm_compute; discriminate).
  assert ((Z.to_nat (capacity_ t_one) < 10)%nat) as Hfuel by (simpl; lia).
  split; [exact t_one_reachable|]. split; [exact Hh|]. split; [exact Hfuel|].
  exact (erase_with_foreign_hash_is_noop identity_hash 0 vector_limit
           vector_limit_bound t_one 5 7 10%nat t_one_reachable Hh Hfuel).
Defined.

Lemma rehash_keeps_bindings_witness :
  t_reachable t_two /\ 1 <= 3 <= 63 /\ size t_two <= 2 ^ (3 - 1) /\
  2 ^ 3 <= vector_limit /\ (Z.to_nat (2 ^ 3) < 100)%nat /\
  exists F, t_rehash 100%nat (2 ^ 3) t_two = Ok F /\
    capacity_ F = 2 ^ 3 /\ size F = size t_two /\
    (forall k v, stored F k v <-> stored t_two k v) /\
    forall k fuel', (Z.to_nat (capacity_ t_two) < fuel')%nat ->
                    (Z.to_nat (capacity_ F) < fuel')%nat ->
                    t_at fuel' F k = t_at fuel' t_two k.
Proof.
  assert (1 <= 3 <= 63) as H1 by lia.
  assert (size t_two <= 2 ^ (3 - 1)) as H2 by (simpl; lia).
  assert (2 ^ 3 <= vector_limit) as H3 by (unfold vector_limit; simpl; lia).
  assert ((Z.to_nat (2 ^ 3) < 100)%nat) as H4 by (simpl; lia).
  split; [exact t_two_reachable|]. split; [exact H1|]. split; [exact H2|].
  split; [exact H3|]. split; [exact H4|].
  exact (rehash_keeps_bindings identity_hash 0 vector_limit
           vector_limit_bound t_two 3 100%nat t_two_reachable H1 H2 H3 H4).
Defined.

Lemma entries_are_consistent_witness :
  t_reachable t_zero_four /\ 0 <= 1 /\
  buckets_ t_zero_four !! Z.to_nat 1 = Some (entry 4 40 1) /\
  value_ (entry 4 40 1) = Some (4, 40) /\
  hash_ (entry 4 40 1) = identity_hash (fst (4, 40)) /\
  distance_ (entry 4 40 1)
  = get_distance t_zero_four (get_ideal t_zero_four (hash_ (entry 4 40 1))) 1 /\
  forall q b' kv', 0 <= q -> buckets_ t_zero_four !! Z.to_nat q = Some b' ->
                   value_ b' = Some kv' -> fst kv' = fst (4, 40) -> q = 1.
Proof.
  split; [exact t_zero_four_reachable|]. split; [lia|].
  split; [reflexivity|]. split; [reflexivity|].
  exact (entries_are_consistent identity_hash 0 vector_limit
           vector_limit_bound t_zero_four 1 (entry 4 40 1) (4, 40)
           t_zero_four_reachable Z.le_0_1 eq_refl eq_refl).
Defined.

Lemma probe_run_has_no_gap_witness :
  t_reachable t_zero_four /\ 0 <= 1 /\
  buckets_ t_zero_four !! Z.to_nat 1 = Some (entry 4 40 1) /\
  value_ (entry 4 40 1) <> None /\ 0 <= 1 <= distance_ (entry 4 40 1) /\
  exists b',
    buckets_ t_zero_four !! Z.to_nat ((1 - 1) mod capacity_ t_zero_four)
    = Some b' /\
    value_ b' <> None /\ distance_ (entry 4 40 1) - 1 <= distance_ b'.
Proof.
  assert (value_ (entry 4 40 1) <> None) as Hv by discriminate.
  assert (0 <= 1 <= distance_ (entry 4 40 1)) as Hm by (simpl; lia).
  split; [exact t_zero_four_reachable|]. split; [lia|].
  split; [reflexivity|]. split; [exact Hv|]. split; [exact Hm|].
  exact (probe_run_has_no_gap identity_hash 0 vector_limit
           vector_limit_bound t_zero_four 1 (entry 4 40 1) 1
           t_zero_four_reachable Z.le_0_1 eq_refl Hv Hm).
Defined.

Lemma get_distance_counts_next_bucket_steps_witness :
  t_reachable t_two /\ 0 <= 3 < capacity_ t_two /\
  0 <= 1 < capacity_ t_two /\
  0 <= get_distance t_two 3 1 < capacity_ t_two /\
  Nat.iter (Z.to_nat (get_distance t_two 3 1)) (next_bucket t_two) 3 = 1.
Proof.
  assert (0 <= 3 < capacity_ t_two) as Ha by (simpl; lia).
  assert (0 <= 1 < capacity_ t_two) as Hp by (simpl; lia).
  split; [exact t_two_reachable|]. split; [exact Ha|]. split; [exact Hp|].
  exact (get_distance_counts_next_bucket_steps identity_hash 0 vector_limit
           vector_limit_bound t_two 3 1 t_two_reachable Ha Hp).
Defined.

Lemma find_iterator_refers_to_pair_witness :
  t_reachable t_three /\ (length (buckets_ t_three) < 5)%nat /\
  exists it, find_iterator identity_hash 5%nat t_three 1 = Ok it /\
    (forall v, stored t_three 1 v ->
       iterator_ne it (end_iterator t_three) = true /\
       iterator_get t_three it = Ok (1, v) /\
       exists rest, iterate 5%nat t_three it = Ok ((1, v) :: rest) /\
                    ((1, v) :: rest) `suffix_of` contents t_three) /\
    (absent t_three 1 -> iterator_eq it (end_iterator t_three) = true).
Proof.
  assert ((length (buckets_ t_three) < 5)%nat) as Hfuel by (simpl; lia).
  split; [exact t_three_reachable|]. split; [exact Hfuel|].
  exact (find_iterator_refers_to_pair identity_hash 0 vector_limit
           vector_limit_bound t_three 1 5%nat t_three_reachable Hfuel).
Defined.

Lemma index_refers_to_entry_of_key_witness :
  t_reachable t_one /\ t_index 100%nat t_one 6 = Ok (t_one_default, 2) /\
  exists b v, 0 <= 2 /\ buckets_ t_one_default !! Z.to_nat 2 = Some b /\
    value_ b = Some (6, v) /\
    ((stored t_one 6 v /\ t_one_default = t_one) \/
     (absent t_one 6 /\ v = 0 /\ size t_one_default = size t_one + 1 /\
      forall k' v', k' <> 6 ->
        (stored t_one_default k' v' <-> stored t_one k' v'))).
Proof.
  assert (t_index 100%nat t_one 6 = Ok (t_one_default, 2)) as Hrun
    by reflexivity.
  split; [exact t_one_reachable|]. split; [exact Hrun|].
  exact (index_refers_to_entry_of_key identity_hash 0 vector_limit
           vector_limit_bound t_one 6 100%nat t_one_default 2
           t_one_reachable Hrun).
Defined.

End IntKeys.
